(** * A DynamoDB-backed distributed lock client: model and verification

    Shallow embedding of the TypeScript lock client
    ([src/model/lock.ts], [src/model/lock-table-config.ts],
    [src/data-layer.ts], [src/lock-client.ts]).

    - Millisecond quantities and counters are JavaScript numbers holding
      integers; they are modelled as [Z].  The one division of the code
      ([leaseDurationInMs / 2]) is carried out in [Q], where it is exact.
    - [Lock] objects are mutable and shared by reference (the caller, the
      registry and the timer closures all hold the same object), so they
      live in a heap indexed by a location.
    - An [async] function is a resumption: it runs synchronously up to
      its next [await], hands a request to the outside world, and is
      resumed later with the reply on whatever the client state has
      become in the meantime. *)

From Stdlib Require Import ZArith QArith String List Bool Lia.
From stdpp Require Import base list strings pretty.
Import ListNotations.
Open Scope Z_scope.

(** ** JavaScript values and objects *)

(** [additionalAttributes : {[key: string]: unknown}], opaque to the client. *)
Definition Payload : Type := list (string * string).

Inductive Value : Type :=
| VUndefined
| VString (s : string)
| VNumber (z : Z)
| VObject (p : Payload).

(** A plain object with string keys: properties in insertion order;
    assigning to an existing key keeps its position. *)
Definition JsObject (A : Type) : Type := list (string * A).

Fixpoint obj_get {A} (k : string) (o : JsObject A) : option A :=
  match o with
  | [] => None
  | (k', v) :: o' => if String.eqb k' k then Some v else obj_get k o'
  end.

Fixpoint obj_set {A} (k : string) (v : A) (o : JsObject A) : JsObject A :=
  match o with
  | [] => [(k, v)]
  | (k', v') :: o' =>
      if String.eqb k' k then (k', v) :: o' else (k', v') :: obj_set k v o'
  end.

Fixpoint obj_delete {A} (k : string) (o : JsObject A) : JsObject A :=
  match o with
  | [] => []
  | (k', v') :: o' =>
      if String.eqb k' k then obj_delete k o' else (k', v') :: obj_delete k o'
  end.

(** [Object.values(o)] *)
Definition obj_values {A} (o : JsObject A) : list A := map snd o.

(** [{...o, ...more}] *)
Definition obj_spread {A} (o more : JsObject A) : JsObject A :=
  fold_left (fun acc kv => obj_set (fst kv) (snd kv) acc) more o.

Definition of_opt_string (o : option string) : Value :=
  match o with Some s => VString s | None => VUndefined end.

Definition of_opt_number (o : option Z) : Value :=
  match o with Some z => VNumber z | None => VUndefined end.

(** The one-character string holding a double quote. *)
Definition dquote : string := String (Ascii.ascii_of_nat 34) EmptyString.

(** Truthiness of an optional string: [undefined] and the empty
    string are falsy. *)
Definition truthy_string (o : option string) : bool :=
  match o with
  | Some s => negb (String.eqb s EmptyString)
  | None => false
  end.

(** ** Errors ([src/model/errors.ts] and values thrown by the backend) *)

Inductive Error : Type :=
| LockOptionsValidationError (message : string)
| LockTableConfigValidationError (message : string)
| LockNotGrantedError (message : string)
| AWSError (code : option string).

(** [(error as AWSError).code === "ConditionalCheckFailedException"] *)
Definition isConditionalCheckFailed (error : Error) : bool :=
  match error with
  | AWSError (Some c) => String.eqb c "ConditionalCheckFailedException"
  | _ => false
  end.

(** Completion of a synchronous call. *)
Inductive Completion (A : Type) : Type :=
| Normal (a : A)
| Thrown (e : Error).
Arguments Normal {A} a.
Arguments Thrown {A} e.

(** ** The lock entity ([src/model/lock.ts]) *)

(** A [NodeJS.Timeout] returned by [setTimeout]. *)
Abbreviation TimerId := nat (only parsing).

Record LockOptions : Type := mkLockOptions {
  opt_leaseDurationInMs : option Z;
  opt_prolongLeaseEnabled : option bool;
  opt_prolongEveryMs : option Z;
  opt_trustLocalTime : option bool;
  opt_waitDurationInMs : option Z;
  opt_maxRetryCount : option Z;
  opt_additionalAttributes : option Payload
}.

(** [lockOptions: LockOptions = {}] *)
Definition noOptions : LockOptions :=
  mkLockOptions None None None None None None None.

Record Lock : Type := mkLock {
  lockId : string;
  lockGroup : string;
  ownerName : string;
  recordVersionNumber : option string;
  lastUpdatedTimeInMs : option Z;
  isAcquired : bool;
  leaseDurationInMs : Z;
  additionalAttributes : Payload;
  prolongLeaseEnabled : bool;
  prolongEveryMs : Z;
  maxRetryCount : option Z;
  trustLocalTime : bool;
  waitDurationInMs : option Z;
  timeoutHandler : option TimerId
}.

Definition set_isAcquired (b : bool) (this : Lock) : Lock :=
  mkLock (lockId this) (lockGroup this) (ownerName this)
    (recordVersionNumber this) (lastUpdatedTimeInMs this) b
    (leaseDurationInMs this) (additionalAttributes this)
    (prolongLeaseEnabled this) (prolongEveryMs this) (maxRetryCount this)
    (trustLocalTime this) (waitDurationInMs this) (timeoutHandler this).

Definition set_version_and_time (rvn : option string) (t : option Z)
    (this : Lock) : Lock :=
  mkLock (lockId this) (lockGroup this) (ownerName this) rvn t
    (isAcquired this) (leaseDurationInMs this) (additionalAttributes this)
    (prolongLeaseEnabled this) (prolongEveryMs this) (maxRetryCount this)
    (trustLocalTime this) (waitDurationInMs this) (timeoutHandler this).

Definition set_timeoutHandler (h : option TimerId) (this : Lock) : Lock :=
  mkLock (lockId this) (lockGroup this) (ownerName this)
    (recordVersionNumber this) (lastUpdatedTimeInMs this) (isAcquired this)
    (leaseDurationInMs this) (additionalAttributes this)
    (prolongLeaseEnabled this) (prolongEveryMs this) (maxRetryCount this)
    (trustLocalTime this) (waitDurationInMs this) h.

Module Lock.

(** The private constructor with its default parameter values. *)
Definition new (lockId lockGroup ownerName : string)
    (recordVersionNumber : option string) (lastUpdatedTimeInMs : option Z)
    (isAcquired : option bool) (leaseDurationInMs : option Z)
    (additionalAttributes : option Payload)
    (prolongLeaseEnabled : option bool) (prolongEveryMs : option Z)
    (maxRetryCount : option Z) (trustLocalTime : option bool)
    (waitDurationInMs : option Z) : Lock :=
  mkLock lockId lockGroup ownerName recordVersionNumber lastUpdatedTimeInMs
    (default false isAcquired)
    (default 20000 leaseDurationInMs)
    (default [] additionalAttributes)
    (default true prolongLeaseEnabled)
    (default 5000 prolongEveryMs)
    maxRetryCount
    (default false trustLocalTime)
    waitDurationInMs
    None.

(** [prolongEveryMs >= leaseDurationInMs / 2], the division taken in [Q]. *)
Definition prolongTooLong (lockItem : Lock) : bool :=
  Qle_bool (leaseDurationInMs lockItem # 2) (inject_Z (prolongEveryMs lockItem)).

Definition validate (lockItem : Lock) : Completion unit :=
  if negb (isAcquired lockItem) && prolongLeaseEnabled lockItem
     && prolongTooLong lockItem
  then Thrown (LockOptionsValidationError
         ("prolongEveryMs(" +:+ pretty (prolongEveryMs lockItem)
          +:+ ") can not be longer than leaseDurationInMs/2("
          +:+ pretty (leaseDurationInMs lockItem) +:+ ")"))
  else Normal tt.

Definition create (lockGroup lockId ownerName : string)
    (recordVersionNumber : option string) (lastUpdatedTimeInMs : option Z)
    (isAcquired : option bool) (lockOptions : LockOptions)
    : Completion Lock :=
  let lock :=
    new lockId lockGroup ownerName recordVersionNumber lastUpdatedTimeInMs
      isAcquired
      (opt_leaseDurationInMs lockOptions)
      (opt_additionalAttributes lockOptions)
      (opt_prolongLeaseEnabled lockOptions)
      (opt_prolongEveryMs lockOptions)
      (opt_maxRetryCount lockOptions)
      (opt_trustLocalTime lockOptions)
      (opt_waitDurationInMs lockOptions) in
  match validate lock with
  | Thrown e => Thrown e
  | Normal _ => Normal lock
  end.

Definition getUniqueLockIdentifier (this : Lock) : string :=
  lockGroup this +:+ "|" +:+ lockId this.

(** [now] is the value of [Date.now()] at the call.  The guard
    [!this.lastUpdatedTimeInMs] holds for [undefined] and for [0]. *)
Definition leaseExpirationTimePassed (this : Lock) (now : Z) : bool :=
  match lastUpdatedTimeInMs this with
  | None => false
  | Some updated =>
      if updated =? 0 then false
      else
        let leaseExpirationTime := updated + leaseDurationInMs this in
        now >? leaseExpirationTime
  end.

Definition acquired (this : Lock) : Lock := set_isAcquired true this.

(** Returns the updated object and the handle passed to [clearTimeout],
    if there was one. *)
Definition released (this : Lock) : Lock * option TimerId :=
  let this' := set_isAcquired false this in
  match timeoutHandler this' with
  | Some h => (set_timeoutHandler None this', Some h)
  | None => (this', None)
  end.

Definition attemptLocking (recordVersionNumber : string) (when : Z)
    (this : Lock) : Lock :=
  set_version_and_time (Some recordVersionNumber) (Some when) this.

Definition resetLockingAttempt (this : Lock) : Lock :=
  set_version_and_time None None this.

Definition attemptProlonging (timeoutHandler : TimerId) (this : Lock) : Lock :=
  set_timeoutHandler (Some timeoutHandler) this.

Definition prolonged (newRecordVersionNumber : string) (when : Z)
    (this : Lock) : Lock :=
  set_version_and_time (Some newRecordVersionNumber) (Some when) this.

End Lock.

(** ** The table descriptor ([src/model/lock-table-config.ts]) *)

(** Attribute names of a stored lock record ([ATTRS] in [data-layer.ts]). *)
Module ATTRS.
Definition recordVersionNumber : string := "recordVersionNumber".
Definition ownerName : string := "ownerName".
Definition lastUpdatedTimeInMs : string := "lastUpdatedTimeInMs".
Definition leaseDurationInMs : string := "leaseDurationInMs".
Definition additionalAttributes : string := "additionalAttributes".
End ATTRS.

(** [Object.values(ATTRS)] *)
Definition RESERVED_ATTRS : list string :=
  [ATTRS.recordVersionNumber; ATTRS.ownerName; ATTRS.lastUpdatedTimeInMs;
   ATTRS.leaseDurationInMs; ATTRS.additionalAttributes].

(** [Array.prototype.includes] on strings. *)
Definition includes (l : list string) (s : string) : bool :=
  existsb (String.eqb s) l.

Definition HOUR : Z := 60 * 60 * 1000.

Record LockTableConfigParam : Type := mkLockTableConfigParam {
  param_tableName : option string;
  param_partitionKey : option string;
  param_sortKey : option string;
  param_ttlKey : option string;
  param_ttlInMs : option Z
}.

Record LockTableConfig : Type := mkLockTableConfig {
  tableName : string;
  partitionKey : string;
  sortKey : string;
  ttlKey : option string;
  ttlInMs : Z
}.

Module LockTableConfig.

Definition new (tableName partitionKey sortKey ttlKey : option string)
    (ttlInMs : option Z) : LockTableConfig :=
  mkLockTableConfig
    (default "LockTable" tableName)
    (default "lockId" partitionKey)
    (default "lockGroup" sortKey)
    ttlKey
    (default HOUR ttlInMs).

Definition create (configParam : LockTableConfigParam)
    : Completion LockTableConfig :=
  let config :=
    new (param_tableName configParam) (param_partitionKey configParam)
      (param_sortKey configParam) (param_ttlKey configParam)
      (param_ttlInMs configParam) in
  if includes RESERVED_ATTRS (partitionKey config) then
    Thrown (LockTableConfigValidationError
      (dquote +:+ partitionKey config +:+ dquote
       +:+ " is a reserved word and cannot use as a partitionKey"))
  else if includes RESERVED_ATTRS (sortKey config) then
    Thrown (LockTableConfigValidationError
      (dquote +:+ partitionKey config +:+ dquote
       +:+ " is a reserved word and cannot use as a sortKey"))
  else if truthy_string (ttlKey config)
          && includes RESERVED_ATTRS (default EmptyString (ttlKey config)) then
    Thrown (LockTableConfigValidationError
      (dquote +:+ partitionKey config +:+ dquote
       +:+ " is a reserved word and cannot use as a ttlKey"))
  else Normal config.

End LockTableConfig.

(** ** Request shaping of the store adapter ([src/data-layer.ts]) *)

(** A stored lock record as [getLockByGroupAndId] hands it to the client
    ([Item as LockTableAttrs]); attributes a record may lack are optional. *)
Record LockTableAttrs : Type := mkLockTableAttrs {
  attr_recordVersionNumber : option string;
  attr_ownerName : string;
  attr_lastUpdatedTimeInMs : option Z;
  attr_leaseDurationInMs : option Z;
  attr_additionalAttributes : option Payload
}.

Record GetParams : Type := mkGetParams {
  get_TableName : string;
  get_Key : JsObject Value;
  get_ConsistentRead : bool
}.

Record PutParams : Type := mkPutParams {
  put_TableName : string;
  put_Item : JsObject Value;
  put_ConditionExpression : string;
  put_ExpressionAttributeNames : JsObject string
}.

Record UpdateParams : Type := mkUpdateParams {
  upd_TableName : string;
  upd_Key : JsObject Value;
  upd_ConditionExpression : string;
  upd_ExpressionAttributeNames : JsObject string;
  upd_ExpressionAttributeValues : JsObject Value;
  upd_UpdateExpression : string
}.

Record DeleteParams : Type := mkDeleteParams {
  del_TableName : string;
  del_Key : JsObject Value;
  del_ConditionExpression : string;
  del_ExpressionAttributeNames : JsObject string;
  del_ExpressionAttributeValues : JsObject Value
}.

(** A call on the [DynamoDB.DocumentClient]. *)
Inductive DocRequest : Type :=
| DocGet (params : GetParams)
| DocPut (params : PutParams)
| DocUpdate (params : UpdateParams)
| DocDelete (params : DeleteParams).

(** ** Client state and asynchronous computations *)

(** A reference to a [Lock] object. *)
Abbreviation loc := nat (only parsing).

Inductive LogSeverity : Type := SevError | SevWarn | SevInfo.

(** What the callback scheduled by [startProlongingLease] closes over:
    its two parameters and the local [lock] looked up when it was armed. *)
Record TimerClosure : Type := mkTimerClosure {
  tc_lockIdentifier : string;
  tc_lock : option loc;
  tc_prolongEveryMs : Z
}.

Record World : Type := mkWorld {
  heap : list Lock;                        (* the Lock objects *)
  acquiredLocks : JsObject loc;            (* LockClient.acquiredLocks *)
  client_ownerName : string;               (* LockClient.ownerName *)
  client_config : LockTableConfig;         (* DataLayer.config *)
  logCallback : bool;                      (* was a log callback supplied? *)
  logged : list (LogSeverity * string);    (* calls received by the callback *)
  timers : list (TimerId * TimerClosure);  (* timeouts armed and not yet fired *)
  nextTimer : TimerId;
  clock : Z;                               (* Date.now() *)
  uuidSource : nat -> string;              (* the values v4() will return *)
  uuidCount : nat
}.

Definition with_heap (h : list Lock) (w : World) : World :=
  mkWorld h (acquiredLocks w) (client_ownerName w) (client_config w)
    (logCallback w) (logged w) (timers w) (nextTimer w) (clock w)
    (uuidSource w) (uuidCount w).

Definition with_acquiredLocks (r : JsObject loc) (w : World) : World :=
  mkWorld (heap w) r (client_ownerName w) (client_config w)
    (logCallback w) (logged w) (timers w) (nextTimer w) (clock w)
    (uuidSource w) (uuidCount w).

Definition with_logged (l : list (LogSeverity * string)) (w : World) : World :=
  mkWorld (heap w) (acquiredLocks w) (client_ownerName w) (client_config w)
    (logCallback w) l (timers w) (nextTimer w) (clock w)
    (uuidSource w) (uuidCount w).

Definition with_timers (t : list (TimerId * TimerClosure)) (n : TimerId)
    (w : World) : World :=
  mkWorld (heap w) (acquiredLocks w) (client_ownerName w) (client_config w)
    (logCallback w) (logged w) t n (clock w) (uuidSource w) (uuidCount w).

Definition with_clock (t : Z) (w : World) : World :=
  mkWorld (heap w) (acquiredLocks w) (client_ownerName w) (client_config w)
    (logCallback w) (logged w) (timers w) (nextTimer w) t
    (uuidSource w) (uuidCount w).

Definition with_uuidCount (n : nat) (w : World) : World :=
  mkWorld (heap w) (acquiredLocks w) (client_ownerName w) (client_config w)
    (logCallback w) (logged w) (timers w) (nextTimer w) (clock w)
    (uuidSource w) n.

(** A method of the store adapter, with its arguments.  A lock that
    the client owns is passed by reference; the lock object built from a
    record just read is a local of [acquireLock] and is passed as it is. *)
Inductive DataLayerCall : Type :=
| GetLockByGroupAndId (lockGroup lockId : string)
| CreateNewLock (lockItem : loc)
| UpdateRecordVersionNumberAndTime (existingLock : loc)
    (newRecordVersionNumber : string) (when : Z)
| UpdateLockWithNewLockContent (existingLock : Lock) (newLock : loc)
| DeleteLock (lockItem : loc).

(** What an [await] waits for: a store-adapter method together with the
    call it places on the document client, or the timer of [waitMs]. *)
Inductive Request : Type :=
| Backend (call : DataLayerCall) (doc : DocRequest)
| WaitMs (ms : Z).

(** How the awaited promise settles.  Only a [get] looks at the value;
    a rejection carries the [code] of the error the backend raised, if it
    has one. *)
Inductive Reply : Type :=
| Resolves (item : option LockTableAttrs)
| Rejects (code : option string).

(** The state of the promise of an [async] call.  [Unsettled] stands for
    a call that is still retrying when the unfolding bound of
    [acquireLock] is used up (and for a call on a dangling reference,
    which no execution makes). *)
Inductive Settled (A : Type) : Type :=
| Resolved (a : A)
| Rejected (e : Error)
| Unsettled.
Arguments Resolved {A} a.
Arguments Rejected {A} e.
Arguments Unsettled {A}.

(** An [async] body run up to its next suspension point. *)
Inductive Run (A : Type) : Type :=
| Done (w : World) (result : Settled A)
| Await (w : World) (request : Request) (resume : Reply -> World -> Run A).
Arguments Done {A} w result.
Arguments Await {A} w request resume.

Definition Async (A : Type) : Type := World -> Run A.

Fixpoint bind_run {A B} (r : Run A) (f : A -> Async B) : Run B :=
  match r with
  | Done w (Resolved a) => f a w
  | Done w (Rejected e) => Done w (Rejected e)
  | Done w Unsettled => Done w Unsettled
  | Await w rq k => Await w rq (fun reply w' => bind_run (k reply w') f)
  end.

(** [try { r } catch (error) { h error }] *)
Fixpoint catch_run {A} (r : Run A) (h : Error -> Async A) : Run A :=
  match r with
  | Done w (Rejected e) => h e w
  | Done w s => Done w s
  | Await w rq k => Await w rq (fun reply w' => catch_run (k reply w') h)
  end.

Definition ret {A} (a : A) : Async A := fun w => Done w (Resolved a).
Definition bind {A B} (m : Async A) (f : A -> Async B) : Async B :=
  fun w => bind_run (m w) f.
Definition throw {A} (e : Error) : Async A := fun w => Done w (Rejected e).
Definition try_catch {A} (m : Async A) (h : Error -> Async A) : Async A :=
  fun w => catch_run (m w) h.
Definition stuck {A} : Async A := fun w => Done w Unsettled.
Definition gets {A} (f : World -> A) : Async A := fun w => Done w (Resolved (f w)).
Definition modify (f : World -> World) : Async unit :=
  fun w => Done (f w) (Resolved tt).
Definition await (rq : Request) : Async Reply :=
  fun w => Await w rq (fun reply w' => Done w' (Resolved reply)).

#[global] Instance Async_ret : MRet Async := @ret.
#[global] Instance Async_bind : MBind Async := fun A B f m => bind m f.

(** A synchronous call that may throw. *)
Definition lift {A} (c : Completion A) : Async A :=
  match c with
  | Normal a => ret a
  | Thrown e => throw e
  end.

(** [for (const x of l) { body x }] *)
Fixpoint for_of {A} (l : list A) (body : A -> Async unit) : Async unit :=
  match l with
  | [] => ret tt
  | x :: l' => body x ;; for_of l' body
  end.

(** Reading and updating a [Lock] object through its reference. *)
Definition deref (l : loc) : Async Lock :=
  fun w => match heap w !! l with
           | Some L => Done w (Resolved L)
           | None => Done w Unsettled
           end.

Definition update (l : loc) (f : Lock -> Lock) : Async unit :=
  modify (fun w => with_heap (alter f l (heap w)) w).

(** [new Lock(...)]: the object is stored at a fresh location. *)
Definition alloc (L : Lock) : Async loc :=
  fun w => Done (with_heap (heap w ++ [L]) w) (Resolved (length (heap w))).

(** [Date.now()], [new Date().getTime()] *)
Definition Date_now : Async Z := gets clock.

(** [setTimeout(callback, ms)] for the prolongation callback. *)
Definition setTimeout (callback : TimerClosure) : Async TimerId :=
  fun w => Done (with_timers (timers w ++ [(nextTimer w, callback)])
                   (S (nextTimer w)) w)
             (Resolved (nextTimer w)).

Definition timer_remove (h : TimerId) (t : list (TimerId * TimerClosure))
    : list (TimerId * TimerClosure) :=
  List.filter (fun entry => negb (Nat.eqb (fst entry) h)) t.

Definition timer_lookup (h : TimerId) (t : list (TimerId * TimerClosure))
    : option TimerClosure :=
  snd <$> find (fun entry => Nat.eqb (fst entry) h) t.

Definition clearTimeout (h : TimerId) : Async unit :=
  modify (fun w => with_timers (timer_remove h (timers w)) (nextTimer w) w).

(** [lock.released()] on the referenced object. *)
Definition Lock_released (l : loc) : Async unit :=
  this ← deref l;
  let '(this', cleared) := Lock.released this in
  update l (fun _ => this') ;;
  match cleared with
  | Some h => clearTimeout h
  | None => ret tt
  end.

(** [Array.prototype.join] *)
Fixpoint join (sep : string) (l : list string) : string :=
  match l with
  | [] => EmptyString
  | [s] => s
  | s :: l' => s +:+ sep +:+ join sep l'
  end.

(** An object literal: properties assigned from left to right. *)
Definition obj_literal {A} (props : list (string * A)) : JsObject A :=
  obj_spread [] props.

Module DataLayer.

Definition PK_PATH_EXPRESSION_VARIABLE : string := "#pk".
Definition SK_PATH_EXPRESSION_VARIABLE : string := "#sk".

Definition PATH_EXPRESSION (recordKey : string) : string := "#" +:+ recordKey.
Definition VALUE_EXPRESSION (recordKey : string) : string := ":" +:+ recordKey.
Definition UPDATE_VALUE_EXPRESSION (recordKey : string) : string :=
  ":new" +:+ recordKey.
Definition UPDATE_EXPRESSION (recordKeys : list string) : string :=
  "SET " +:+
  join ", "
    (map (fun recordKey =>
            PATH_EXPRESSION recordKey +:+ " = "
            +:+ UPDATE_VALUE_EXPRESSION recordKey)
         recordKeys).

Definition ACQUIRE_LOCK_THAT_DOESNT_EXIST_CONDITION : string :=
  "attribute_not_exists(" +:+ PK_PATH_EXPRESSION_VARIABLE
  +:+ ") AND attribute_not_exists(" +:+ SK_PATH_EXPRESSION_VARIABLE +:+ ")".

Definition LOCK_EXIST_CONDITION : string :=
  "attribute_exists(" +:+ PK_PATH_EXPRESSION_VARIABLE
  +:+ ") AND attribute_exists(" +:+ SK_PATH_EXPRESSION_VARIABLE +:+ ")".

Definition LOCK_EXIST_AND_RVN_SAME_CONDITION : string :=
  LOCK_EXIST_CONDITION +:+ " AND "
  +:+ PATH_EXPRESSION ATTRS.recordVersionNumber +:+ " = "
  +:+ VALUE_EXPRESSION ATTRS.recordVersionNumber.

Definition LOCK_EXIST_AND_RVN_AND_OWNER_NAME_SAME_CONDITION : string :=
  LOCK_EXIST_AND_RVN_SAME_CONDITION +:+ " AND "
  +:+ PATH_EXPRESSION ATTRS.ownerName +:+ " = "
  +:+ VALUE_EXPRESSION ATTRS.ownerName.

Section WithConfig.

Variable config : LockTableConfig.
(** The value of [Date.now()] when the request is built. *)
Variable now : Z.

(** [Math.round((Date.now() + this.config.ttlInMs) / 1000)];
    [Math.round] rounds halves up. *)
Definition calculateTTL : Z := (now + ttlInMs config + 500) / 1000.

Definition key (lockId lockGroup : string) : JsObject Value :=
  obj_literal [(partitionKey config, VString lockId);
               (sortKey config, VString lockGroup)].

Definition getParams (lockGroup lockId : string) : GetParams :=
  mkGetParams (tableName config) (key lockId lockGroup) true.

Definition createParams (lockItem : Lock) : PutParams :=
  let attrValues := obj_literal
    [(ATTRS.recordVersionNumber, of_opt_string (recordVersionNumber lockItem));
     (ATTRS.ownerName, VString (ownerName lockItem));
     (ATTRS.lastUpdatedTimeInMs, of_opt_number (lastUpdatedTimeInMs lockItem));
     (ATTRS.leaseDurationInMs, VNumber (leaseDurationInMs lockItem));
     (ATTRS.additionalAttributes, VObject (additionalAttributes lockItem))] in
  let params := mkPutParams
    (tableName config)
    (obj_spread attrValues
       [(partitionKey config, VString (lockId lockItem));
        (sortKey config, VString (lockGroup lockItem))])
    ACQUIRE_LOCK_THAT_DOESNT_EXIST_CONDITION
    (obj_literal [(PK_PATH_EXPRESSION_VARIABLE, partitionKey config);
                  (SK_PATH_EXPRESSION_VARIABLE, sortKey config)]) in
  if truthy_string (ttlKey config) then
    mkPutParams (put_TableName params)
      (obj_spread (put_Item params)
         [(default EmptyString (ttlKey config), VNumber calculateTTL)])
      (put_ConditionExpression params)
      (put_ExpressionAttributeNames params)
  else params.

Definition updateTTLIfEnabled (params : UpdateParams) : UpdateParams :=
  if negb (truthy_string (ttlKey config)) then params
  else
    let ttlKey := default EmptyString (ttlKey config) in
    let ttlPath := PATH_EXPRESSION ttlKey in
    let ttlUpdateExpression := UPDATE_VALUE_EXPRESSION ttlKey in
    mkUpdateParams (upd_TableName params) (upd_Key params)
      (upd_ConditionExpression params)
      (obj_spread (upd_ExpressionAttributeNames params) [(ttlPath, ttlKey)])
      (obj_spread (upd_ExpressionAttributeValues params)
         [(ttlUpdateExpression, VNumber calculateTTL)])
      (upd_UpdateExpression params +:+ ", " +:+ ttlPath +:+ " = "
       +:+ ttlUpdateExpression).

Definition renewParams (existingLock : Lock)
    (newRecordVersionNumber : string) (when : Z) : UpdateParams :=
  let params := mkUpdateParams
    (tableName config)
    (key (lockId existingLock) (lockGroup existingLock))
    LOCK_EXIST_AND_RVN_AND_OWNER_NAME_SAME_CONDITION
    (obj_literal
       [(PK_PATH_EXPRESSION_VARIABLE, partitionKey config);
        (SK_PATH_EXPRESSION_VARIABLE, sortKey config);
        (PATH_EXPRESSION ATTRS.recordVersionNumber, ATTRS.recordVersionNumber);
        (PATH_EXPRESSION ATTRS.ownerName, ATTRS.ownerName);
        (PATH_EXPRESSION ATTRS.lastUpdatedTimeInMs, ATTRS.lastUpdatedTimeInMs)])
    (obj_literal
       [(VALUE_EXPRESSION ATTRS.recordVersionNumber,
         of_opt_string (recordVersionNumber existingLock));
        (VALUE_EXPRESSION ATTRS.ownerName, VString (ownerName existingLock));
        (UPDATE_VALUE_EXPRESSION ATTRS.recordVersionNumber,
         VString newRecordVersionNumber);
        (UPDATE_VALUE_EXPRESSION ATTRS.lastUpdatedTimeInMs, VNumber when)])
    (UPDATE_EXPRESSION [ATTRS.recordVersionNumber; ATTRS.lastUpdatedTimeInMs]) in
  updateTTLIfEnabled params.

Definition stealParams (existingLock newLock : Lock) : UpdateParams :=
  let params := mkUpdateParams
    (tableName config)
    (key (lockId existingLock) (lockGroup existingLock))
    LOCK_EXIST_AND_RVN_SAME_CONDITION
    (obj_literal
       [(PK_PATH_EXPRESSION_VARIABLE, partitionKey config);
        (SK_PATH_EXPRESSION_VARIABLE, sortKey config);
        (PATH_EXPRESSION ATTRS.recordVersionNumber, ATTRS.recordVersionNumber);
        (PATH_EXPRESSION ATTRS.ownerName, ATTRS.ownerName);
        (PATH_EXPRESSION ATTRS.lastUpdatedTimeInMs, ATTRS.lastUpdatedTimeInMs);
        (PATH_EXPRESSION ATTRS.leaseDurationInMs, ATTRS.leaseDurationInMs);
        (PATH_EXPRESSION ATTRS.additionalAttributes, ATTRS.additionalAttributes)])
    (obj_literal
       [(VALUE_EXPRESSION ATTRS.recordVersionNumber,
         of_opt_string (recordVersionNumber existingLock));
        (UPDATE_VALUE_EXPRESSION ATTRS.recordVersionNumber,
         of_opt_string (recordVersionNumber newLock));
        (UPDATE_VALUE_EXPRESSION ATTRS.ownerName, VString (ownerName newLock));
        (UPDATE_VALUE_EXPRESSION ATTRS.lastUpdatedTimeInMs,
         of_opt_number (lastUpdatedTimeInMs newLock));
        (UPDATE_VALUE_EXPRESSION ATTRS.leaseDurationInMs,
         VNumber (leaseDurationInMs newLock));
        (UPDATE_VALUE_EXPRESSION ATTRS.additionalAttributes,
         VObject (additionalAttributes newLock))])
    (UPDATE_EXPRESSION
       [ATTRS.recordVersionNumber; ATTRS.ownerName; ATTRS.lastUpdatedTimeInMs;
        ATTRS.leaseDurationInMs; ATTRS.additionalAttributes]) in
  updateTTLIfEnabled params.

Definition deleteParams (lockItem : Lock) : DeleteParams :=
  mkDeleteParams
    (tableName config)
    (key (lockId lockItem) (lockGroup lockItem))
    LOCK_EXIST_AND_RVN_AND_OWNER_NAME_SAME_CONDITION
    (obj_literal
       [(PK_PATH_EXPRESSION_VARIABLE, partitionKey config);
        (SK_PATH_EXPRESSION_VARIABLE, sortKey config);
        (PATH_EXPRESSION ATTRS.recordVersionNumber, ATTRS.recordVersionNumber);
        (PATH_EXPRESSION ATTRS.ownerName, ATTRS.ownerName)])
    (obj_literal
       [(VALUE_EXPRESSION ATTRS.recordVersionNumber,
         of_opt_string (recordVersionNumber lockItem));
        (VALUE_EXPRESSION ATTRS.ownerName, VString (ownerName lockItem))]).

End WithConfig.

(** [await this.documentClient.<method>(params).promise()] *)
Definition send (call : DataLayerCall) (doc : DocRequest)
    : Async (option LockTableAttrs) :=
  reply ← await (Backend call doc);
  match reply with
  | Resolves item => ret item
  | Rejects code => throw (AWSError code)
  end.

Definition getLockByGroupAndId (lockGroup lockId : string)
    : Async (option LockTableAttrs) :=
  config ← gets client_config;
  send (GetLockByGroupAndId lockGroup lockId)
       (DocGet (getParams config lockGroup lockId)).

Definition createNewLock (lockItem : loc) : Async unit :=
  config ← gets client_config;
  now ← Date_now;
  item ← deref lockItem;
  send (CreateNewLock lockItem) (DocPut (createParams config now item)) ;;
  ret tt.

Definition updateRecordVersionNumberAndTime (existingLock : loc)
    (newRecordVersionNumber : string) (when : Z) : Async unit :=
  config ← gets client_config;
  now ← Date_now;
  existing ← deref existingLock;
  send (UpdateRecordVersionNumberAndTime existingLock newRecordVersionNumber when)
       (DocUpdate (renewParams config now existing newRecordVersionNumber when)) ;;
  ret tt.

Definition updateLockWithNewLockContent (existingLock : Lock) (newLock : loc)
    : Async unit :=
  config ← gets client_config;
  now ← Date_now;
  new ← deref newLock;
  send (UpdateLockWithNewLockContent existingLock newLock)
       (DocUpdate (stealParams config now existingLock new)) ;;
  ret tt.

Definition deleteLock (lockItem : loc) : Async unit :=
  config ← gets client_config;
  item ← deref lockItem;
  send (DeleteLock lockItem) (DocDelete (deleteParams config item)) ;;
  ret tt.

End DataLayer.

(** ** The lock coordinator ([src/lock-client.ts]) *)

Module LockClient.

(** [this.logCallback && this.logCallback(severity, message)] *)
Definition log (severity : LogSeverity) (message : string) : Async unit :=
  modify (fun w =>
    with_logged
      (if logCallback w then logged w ++ [(severity, message)] else logged w)
      w).

(** [LockClient.generateUUID()] *)
Definition generateUUID : Async string :=
  fun w => Done (with_uuidCount (S (uuidCount w)) w)
             (Resolved (uuidSource w (uuidCount w))).

(** [LockClient.waitMs(ms)] *)
Definition waitMs (ms : Z) : Async unit :=
  await (WaitMs ms) ;; ret tt.

Definition startProlongingLease (lockIdentifier : string) (prolongEveryMs : Z)
    : Async unit :=
  lock ← gets (fun w => obj_get lockIdentifier (acquiredLocks w));
  timeoutHandler ← setTimeout (mkTimerClosure lockIdentifier lock prolongEveryMs);
  match lock with
  | Some l => update l (Lock.attemptProlonging timeoutHandler)
  | None => ret tt
  end.

Definition prolongLease (lock : loc) : Async unit :=
  newRecordVersionNumber ← generateUUID;
  now ← Date_now;
  DataLayer.updateRecordVersionNumberAndTime lock newRecordVersionNumber now ;;
  update lock (Lock.prolonged newRecordVersionNumber now) ;;
  this ← deref lock;
  log SevInfo ("Lease prolonged/renewed for: "
               +:+ Lock.getUniqueLockIdentifier this).

(** The callback that [startProlongingLease] hands to [setTimeout]. *)
Definition onTimeout (c : TimerClosure) : Async unit :=
  match tc_lock c with
  | None => ret tt
  | Some lock =>
      this ← deref lock;
      if negb (isAcquired this) then ret tt
      else
        prolongLease lock ;;
        startProlongingLease (tc_lockIdentifier c) (tc_prolongEveryMs c)
  end.

Definition lockAcquired (lock : loc) : Async unit :=
  this ← deref lock;
  log SevInfo ("Lock: " +:+ Lock.getUniqueLockIdentifier this
               +:+ " is acquired") ;;
  update lock Lock.acquired ;;
  modify (fun w =>
    with_acquiredLocks
      (obj_set (Lock.getUniqueLockIdentifier this) lock (acquiredLocks w)) w) ;;
  if prolongLeaseEnabled this then
    log SevInfo ("Starting prolongLease for the lock "
                 +:+ Lock.getUniqueLockIdentifier this) ;;
    startProlongingLease (Lock.getUniqueLockIdentifier this)
      (prolongEveryMs this)
  else ret tt.

Section Acquire.

(** The recursive call [this.acquireLock(lock, retryCount)]. *)
Variable acquireLock : loc -> Z -> Async loc.

Definition acquireNewLock (lock : loc) (retryCount : Z) : Async unit :=
  let retryCount := retryCount + 1 in
  try_catch
    (uuid ← generateUUID;
     now ← Date_now;
     update lock (Lock.attemptLocking uuid now) ;;
     DataLayer.createNewLock lock ;;
     lockAcquired lock)
    (fun error =>
       if isConditionalCheckFailed error then
         this ← deref lock;
         log SevInfo ("Trying to acquire new lock but "
                      +:+ Lock.getUniqueLockIdentifier this
                      +:+ " is already exist") ;;
         update lock Lock.resetLockingAttempt ;;
         acquireLock lock retryCount ;;
         ret tt
       else throw error).

Definition stealExistingLock (newLock : loc) (existingLock : Lock)
    (retryCount : Z) : Async unit :=
  try_catch
    (uuid ← generateUUID;
     now ← Date_now;
     update newLock (Lock.attemptLocking uuid now) ;;
     DataLayer.updateLockWithNewLockContent existingLock newLock ;;
     lockAcquired newLock ;;
     this ← deref newLock;
     log SevInfo ("Existing " +:+ Lock.getUniqueLockIdentifier this
                  +:+ " successfully replaced (stolen) with the requested lock"))
    (fun error =>
       if isConditionalCheckFailed error then
         this ← deref newLock;
         log SevInfo ("Trying to acquire "
                      +:+ Lock.getUniqueLockIdentifier this
                      +:+ " but its lease renewed") ;;
         update newLock Lock.resetLockingAttempt ;;
         acquireLock newLock retryCount ;;
         ret tt
       else throw error).

Definition tryStealingExistingLock (newLock : loc) (existingLock : Lock)
    (retryCount : Z) : Async unit :=
  this ← deref newLock;
  if trustLocalTime this then
    let waitDuration := default 0 (waitDurationInMs this) in
    waitMs waitDuration ;;
    log SevInfo ("trustLocalTime enabled, waiting for "
                 +:+ pretty waitDuration
                 +:+ "ms to check again not expired lock: "
                 +:+ Lock.getUniqueLockIdentifier this) ;;
    acquireLock newLock retryCount ;;
    ret tt
  else
    log SevInfo ("Waiting for a lease duration make sure existing lock does not renewed: "
                 +:+ Lock.getUniqueLockIdentifier this) ;;
    waitMs (leaseDurationInMs existingLock) ;;
    stealExistingLock newLock existingLock retryCount.

(** The body of [acquireLock]. *)
Definition acquireLock_body (lock : loc) (retryCount : Z) : Async loc :=
  this ← deref lock;
  if isAcquired this then
    throw (LockNotGrantedError
             ("Lock is already acquired: "
              +:+ Lock.getUniqueLockIdentifier this))
  else if match maxRetryCount this with
          | Some m => retryCount >? m
          | None => false
          end
  then
    throw (LockNotGrantedError
             (Lock.getUniqueLockIdentifier this
              +:+ " could not be acquired after retrying for "
              +:+ pretty (default 0 (maxRetryCount this)) +:+ " times."))
  else
    let retryCount := retryCount + 1 in
    existingLockAttrs ← DataLayer.getLockByGroupAndId (lockGroup this) (lockId this);
    match existingLockAttrs with
    | Some attrs =>
        existingLock ← lift
          (Lock.create (lockGroup this) (lockId this)
             (attr_ownerName attrs)
             (attr_recordVersionNumber attrs)
             (attr_lastUpdatedTimeInMs attrs)
             (Some true)
             (mkLockOptions (attr_leaseDurationInMs attrs) None None None
                None None (attr_additionalAttributes attrs)));
        log SevInfo (Lock.getUniqueLockIdentifier this
                     +:+ " is already exist") ;;
        this ← deref lock;
        now ← Date_now;
        if trustLocalTime this
           && Lock.leaseExpirationTimePassed existingLock now
        then
          log SevInfo ("trustLocalTime enabled, not waiting to acquire already expired lock: "
                       +:+ Lock.getUniqueLockIdentifier existingLock) ;;
          stealExistingLock lock existingLock retryCount
        else
          tryStealingExistingLock lock existingLock retryCount
    | None =>
        log SevInfo (Lock.getUniqueLockIdentifier this
                     +:+ " is not exist, trying to acquire a new lock") ;;
        acquireNewLock lock retryCount
    end ;;
    ret lock.

End Acquire.

(** [acquireLock] unfolded at most [fuel] times; a call that would
    recurse deeper stays [Unsettled]. *)
Fixpoint acquireLock (fuel : nat) (lock : loc) (retryCount : Z) : Async loc :=
  match fuel with
  | O => stuck
  | S fuel' => acquireLock_body (acquireLock fuel') lock retryCount
  end.

Definition lock (fuel : nat) (lockGroup lockId : string)
    (lockOptions : LockOptions) : Async loc :=
  ownerName ← gets client_ownerName;
  created ← lift (Lock.create lockGroup lockId ownerName None None
                    (Some false) lockOptions);
  lock ← alloc created;
  log SevInfo ("Trying to acquire lock for: "
               +:+ Lock.getUniqueLockIdentifier created) ;;
  acquireLock fuel lock 0 ;;
  ret lock.

Definition releaseLock (lock : loc) : Async unit :=
  Lock_released lock ;;
  this ← deref lock;
  modify (fun w =>
    with_acquiredLocks
      (obj_delete (Lock.getUniqueLockIdentifier this) (acquiredLocks w)) w) ;;
  try_catch
    (DataLayer.deleteLock lock ;;
     log SevInfo ("Lock: " +:+ Lock.getUniqueLockIdentifier this
                  +:+ " is released."))
    (fun error =>
       if isConditionalCheckFailed error then
         log SevWarn ("Tried to remove the lock but it is already released: "
                      +:+ Lock.getUniqueLockIdentifier this)
       else throw error).

(** [releaseLockPromises] collects the lock objects themselves, so
    [Promise.all] has nothing to wait for. *)
Definition releaseAllLocks : Async unit :=
  toBeRemovedLocks ← gets acquiredLocks;
  modify (with_acquiredLocks []) ;;
  for_of (obj_values toBeRemovedLocks) Lock_released ;;
  ret tt.

End LockClient.

(** ** Running one call on its own *)

(** One [await] of a run: the client state when the request was made,
    the request, and how the awaited promise settled. *)
Record Exchange : Type := mkExchange {
  stateAtRequest : World;
  request : Request;
  answer : Reply
}.

(** How the outside world answers an [await]: the way the promise
    settles and what the clock shows when the call is resumed. *)
Record Answer : Type := mkAnswer {
  reply : Reply;
  resumedAt : Z
}.

(** The outside world seen from a call that runs with nothing else
    going on in the client: an answer for each request, which may depend
    on everything that happened before. *)
Definition Environment : Type := list Exchange -> Request -> Answer.

Record Outcome (A : Type) : Type := mkOutcome {
  final : World;
  result : Settled A;
  exchanges : list Exchange
}.
Arguments mkOutcome {A} final result exchanges.
Arguments final {A} o.
Arguments result {A} o.
Arguments exchanges {A} o.

Fixpoint run_from {A} (env : Environment) (history : list Exchange)
    (r : Run A) : Outcome A :=
  match r with
  | Done w s => mkOutcome w s history
  | Await w rq k =>
      let a := env history rq in
      run_from env (history ++ [mkExchange w rq (reply a)])
        (k (reply a) (with_clock (resumedAt a) w))
  end.

Definition run {A} (env : Environment) (m : Async A) (w : World) : Outcome A :=
  run_from env [] (m w).

(** The store-adapter calls among the exchanges. *)
Definition backendCalls (tr : list Exchange) : list DataLayerCall :=
  omap (fun x => match request x with
                 | Backend call _ => Some call
                 | WaitMs _ => None
                 end) tr.

Definition isRead (call : DataLayerCall) : bool :=
  match call with GetLockByGroupAndId _ _ => true | _ => false end.

Definition isDeleteLock (call : DataLayerCall) : bool :=
  match call with DeleteLock _ => true | _ => false end.

(** A create or steal write for the lock object [l] that succeeded. *)
Definition isCommit (l : loc) (x : Exchange) : bool :=
  match request x, answer x with
  | Backend (CreateNewLock l') _, Resolves _ => Nat.eqb l' l
  | Backend (UpdateLockWithNewLockContent _ l') _, Resolves _ => Nat.eqb l' l
  | _, _ => false
  end.

(** ** Calls, timers and replies interleaved *)

(** Where a suspended computation came from.  A [lock] call is tagged
    with the reference of the lock object it creates. *)
Inductive Origin : Type :=
| FromLock (handle : loc)
| FromReleaseLock (handle : loc)
| FromReleaseAllLocks
| FromTimeout.

Record Suspended : Type := mkSuspended {
  origin : Origin;
  awaiting : Request;
  resume : Reply -> World -> Run unit
}.

Record Config : Type := mkConfig {
  world : World;
  pool : list Suspended
}.

Inductive Action : Type :=
| CallLock (fuel : nat) (lockGroup lockId : string) (lockOptions : LockOptions)
| CallReleaseLock (handle : loc)
| CallReleaseAllLocks
| Settle (n : nat) (reply : Reply)   (* the promise awaited by [pool !! n] settles *)
| Fire (h : TimerId)                 (* the timeout [h] expires *)
| Tick (now : Z).                    (* time passes *)

Inductive Event : Type :=
| Called (a : Action)
| Requested (o : Origin) (rq : Request)
| Finished (o : Origin) (ok : bool).

Definition forget {A} (r : Run A) : Run unit := bind_run r (fun _ => ret tt).

Definition isResolved {A} (s : Settled A) : bool :=
  match s with Resolved _ => true | _ => false end.

(** Take the state a computation has left and park it if it awaits. *)
Definition park (o : Origin) (r : Run unit) (others : list Suspended)
    : Config * list Event :=
  match r with
  | Done w s => (mkConfig w others, [Finished o (isResolved s)])
  | Await w rq k =>
      (mkConfig w (others ++ [mkSuspended o rq k]), [Requested o rq])
  end.

Definition ownedBy (handle : loc) (t : Suspended) : bool :=
  match origin t with
  | FromLock l => Nat.eqb l handle
  | _ => false
  end.

(** A lock object reaches the caller only when its [lock] call has
    returned, so [releaseLock] is never called on a lock that a [lock]
    call still in flight is working on. *)
Definition releasable (handle : loc) (c : Config) : bool :=
  Nat.ltb handle (length (heap (world c)))
  && negb (existsb (ownedBy handle) (pool c)).

Definition called (a : Action) (x : Config * list Event)
    : option (Config * list Event) :=
  Some (fst x, Called a :: snd x).

Definition step (a : Action) (c : Config) : option (Config * list Event) :=
  match a with
  | CallLock fuel lockGroup lockId lockOptions =>
      called a
        (park (FromLock (length (heap (world c))))
           (forget (LockClient.lock fuel lockGroup lockId lockOptions (world c)))
           (pool c))
  | CallReleaseLock handle =>
      if releasable handle c then
        called a
          (park (FromReleaseLock handle)
             (LockClient.releaseLock handle (world c)) (pool c))
      else None
  | CallReleaseAllLocks =>
      called a
        (park FromReleaseAllLocks (LockClient.releaseAllLocks (world c)) (pool c))
  | Settle n reply =>
      match pool c !! n with
      | Some t => Some (park (origin t) (resume t reply (world c))
                          (delete n (pool c)))
      | None => None
      end
  | Fire h =>
      match timer_lookup h (timers (world c)) with
      | Some callback =>
          let w := with_timers (timer_remove h (timers (world c)))
                     (nextTimer (world c)) (world c) in
          Some (park FromTimeout (LockClient.onTimeout callback w) (pool c))
      | None => None
      end
  | Tick now => Some (mkConfig (with_clock now (world c)) (pool c), [])
  end.

Fixpoint execute (actions : list Action) (c : Config)
    : option (Config * list Event) :=
  match actions with
  | [] => Some (c, [])
  | a :: rest =>
      match step a c with
      | Some (c', evs) =>
          match execute rest c' with
          | Some (c'', evs') => Some (c'', evs ++ evs')
          | None => None
          end
      | None => None
      end
  end.

(** A freshly constructed client: no lock object, nothing registered,
    nothing scheduled, no call in flight. *)
Definition newClient (ownerName : string) (config : LockTableConfig)
    (logCallback : bool) (uuids : nat -> string) (now : Z) : Config :=
  mkConfig (mkWorld [] [] ownerName config logCallback [] [] O now uuids O) [].

(** A renewal write for the lock object [handle]. *)
Definition renewalRequest (handle : loc) (rq : Request) : bool :=
  match rq with
  | Backend (UpdateRecordVersionNumberAndTime l _ _) _ => Nat.eqb l handle
  | _ => false
  end.

Definition isRenewalOf (handle : loc) (e : Event) : bool :=
  match e with
  | Requested _ rq => renewalRequest handle rq
  | _ => false
  end.

(** ** Specifying a call that runs alone *)

(** [wp I r history Q]: however the awaited promises settle and whatever
    the clock shows at each resumption, the run of [r] that starts after
    [history] makes each of its requests in a state that satisfies [I]
    together with the request, and ends with exchanges, state and result
    satisfying [Q]. *)
Fixpoint wp {A} (I : World -> Request -> Prop) (r : Run A)
    (history : list Exchange)
    (Q : list Exchange -> World -> Settled A -> Prop) : Prop :=
  match r with
  | Done w s => Q history w s
  | Await w rq k =>
      I w rq /\
      forall rp t,
        wp I (k rp (with_clock t w)) (history ++ [mkExchange w rq rp]) Q
  end.

(** The registry and the armed timeouts are those of [w0]. *)
Definition quiet (w0 w : World) : Prop :=
  acquiredLocks w = acquiredLocks w0
  /\ timers w = timers w0
  /\ nextTimer w = nextTimer w0.

(** While [lock] is still trying: nothing registered or scheduled, and
    the lock object differs from the one created, [L0], in its tentative
    version and time at most. *)
Definition pendingAt (l : loc) (L0 : Lock) (w0 w : World) : Prop :=
  quiet w0 w
  /\ exists rvn t, heap w !! l = Some (set_version_and_time rvn t L0).

(** After [lockAcquired]: the lock object is registered under its
    identifier and marked acquired, and a timeout is armed for it exactly
    when prolongation is enabled. *)
Definition committedAt (l : loc) (L0 : Lock) (w0 w : World) : Prop :=
  acquiredLocks w
    = obj_set (Lock.getUniqueLockIdentifier L0) l (acquiredLocks w0)
  /\ (exists L, heap w !! l = Some L /\ isAcquired L = true
        /\ timeoutHandler L
           = if prolongLeaseEnabled L0 then Some (nextTimer w0) else None)
  /\ timers w
     = if prolongLeaseEnabled L0
       then timers w0 ++ [(nextTimer w0,
              mkTimerClosure (Lock.getUniqueLockIdentifier L0) (Some l)
                (prolongEveryMs L0))]
       else timers w0.

(** No create or steal write for the lock object [l] has succeeded. *)
Definition uncommitted (l : loc) (tr : list Exchange) : Prop :=
  Forall (fun x => isCommit l x = false) tr.

Definition acquirePost {A} (l : loc) (L0 : Lock) (w0 : World)
    (h : list Exchange) (w : World) (s : Settled A) : Prop :=
  match s with
  | Resolved _ =>
      committedAt l L0 w0 w
      /\ exists earlier x,
           h = earlier ++ [x] /\ isCommit l x = true /\ uncommitted l earlier
  | Rejected e =>
      pendingAt l L0 w0 w /\ uncommitted l h
      /\ ((exists m, e = LockNotGrantedError m) \/ (exists c, e = AWSError c))
  | Unsettled => pendingAt l L0 w0 w /\ uncommitted l h
  end.

Definition lockPost (w0 : World) (lockGroup lockId : string)
    (lockOptions : LockOptions) (h0 h : list Exchange) (w : World)
    (s : Settled loc) : Prop :=
  match Lock.create lockGroup lockId (client_ownerName w0) None None
          (Some false) lockOptions with
  | Thrown e => s = Rejected e /\ w = w0 /\ h = h0
  | Normal created =>
      let handle := length (heap w0) in
      match s with
      | Resolved l => l = handle /\ acquirePost handle created w0 h w s
      | _ => acquirePost handle created w0 h w s
      end
  end.

(** The state [releaseLock] has reached when it turns to the backend:
    the lock object is marked released and has no timeout, the timeout it
    had is no longer armed, and its identifier is not in the registry. *)
Definition releasedAt (l : loc) (L : Lock) (w : World) : Prop :=
  (exists L1, heap w !! l = Some L1
              /\ isAcquired L1 = false /\ timeoutHandler L1 = None)
  /\ obj_get (Lock.getUniqueLockIdentifier L) (acquiredLocks w) = None
  /\ (forall h, timeoutHandler L = Some h -> timer_lookup h (timers w) = None).

(** The delete succeeded or failed its condition. *)
Definition swallowed (rp : Reply) : bool :=
  match rp with
  | Resolves _ => true
  | Rejects code => isConditionalCheckFailed (AWSError code)
  end.

(** What a [releaseLock] call on lock object [l], which held [L], has
    done once its one exchange [x] is over, ending in state [w'] with
    result [s]. *)
Definition releaseResult (l : loc) (L : Lock) (x : Exchange) (w' : World)
    (s : Settled unit) : Prop :=
  (exists doc, request x = Backend (DeleteLock l) doc)
  /\ releasedAt l L (stateAtRequest x)
  /\ releasedAt l L w'
  /\ match answer x with
     | Resolves _ => s = Resolved tt
     | Rejects code =>
         if isConditionalCheckFailed (AWSError code) then
           s = Resolved tt
           /\ logged w'
              = if logCallback w'
                then logged (stateAtRequest x)
                     ++ [(SevWarn,
                          "Tried to remove the lock but it is already released: "
                          +:+ Lock.getUniqueLockIdentifier L)]
                else logged (stateAtRequest x)
         else
           s = Rejected (AWSError code)
           /\ logged w' = logged (stateAtRequest x)
     end.

Definition releaseOutcome (l : loc) (L : Lock) (o : Outcome unit) : Prop :=
  exists x, exchanges o = [x] /\ releaseResult l L x (final o) (result o).

(** What a run of the prolongation callback on the acquired lock object
    [l] has done once its one exchange [x] is over: started in [w], ended
    in [w'] with result [s]. *)
Definition renewalResult (c : TimerClosure) (l : loc) (w : World)
    (x : Exchange) (w' : World) (s : Settled unit) : Prop :=
  (exists rvn when doc,
      request x = Backend (UpdateRecordVersionNumberAndTime l rvn when) doc)
  /\ match answer x with
     | Resolves _ =>
         s = Resolved tt
         /\ timers w'
            = timers w
              ++ [(nextTimer w,
                   mkTimerClosure (tc_lockIdentifier c)
                     (obj_get (tc_lockIdentifier c) (acquiredLocks w))
                     (tc_prolongEveryMs c))]
     | Rejects code =>
         s = Rejected (AWSError code)
         /\ logged w' = logged w
         /\ timers w' = timers w
         /\ nextTimer w' = nextTimer w
     end.

(** ** Invariants of interleaved executions *)

(** The lock object at [H] exists and is not marked acquired. *)
Definition unacquired (H : loc) (w : World) : Prop :=
  exists L, heap w !! H = Some L /\ isAcquired L = false.

Definition stateOf {A} (r : Run A) : World :=
  match r with
  | Done w _ => w
  | Await w _ _ => w
  end.

(** [r] is what a stretch of synchronous code started in [w] has led to:
    if [H] was unacquired in [w] it still is, and the request the code
    stopped at, if any, is no renewal for [H]. *)
Definition calm {A} (H : loc) (w : World) (r : Run A) : Prop :=
  unacquired H w ->
  unacquired H (stateOf r)
  /\ match r with
     | Await _ rq _ => renewalRequest H rq = false
     | Done _ _ => True
     end.

(** Every later stretch of [r] is calm, in whatever state it is resumed. *)
Fixpoint harmless {A} (H : loc) (r : Run A) : Prop :=
  match r with
  | Done _ _ => True
  | Await _ _ k => forall rp w', harmless H (k rp w') /\ calm H w' (k rp w')
  end.

Definition harmlessly {A} (H : loc) (m : Async A) : Prop :=
  forall w, harmless H (m w).

Definition tame {A} (H : loc) (m : Async A) : Prop :=
  forall w, harmless H (m w) /\ calm H w (m w).

(** Synchronous code: it never awaits. *)
Definition synchronous {A} (m : Async A) : Prop :=
  forall w, exists w' s, m w = Done w' s.

(** A suspended computation that, once [H] is unacquired, leaves it so
    and sends no renewal for it. *)
Definition taskSafe (H : loc) (t : Suspended) : Prop :=
  forall rp w, harmless H (resume t rp w) /\ calm H w (resume t rp w).

Definition safeFor (H : loc) (c : Config) : Prop :=
  unacquired H (world c) /\ Forall (taskSafe H) (pool c).

(** Every suspended computation is safe for every lock object except
    the one its own [lock] call is still acquiring. *)
Definition wellFormed (c : Config) : Prop :=
  Forall (fun t => forall H, ownedBy H t = false -> taskSafe H t) (pool c).

(** ** Scenarios *)

Definition exampleConfig : LockTableConfig :=
  LockTableConfig.new None None None None None.

Definition exampleUuids (n : nat) : string := "uuid-" +:+ pretty n.

(** A client with a log callback, constructed at time 1000. *)
Definition exampleClient : Config :=
  newClient "owner-1" exampleConfig true exampleUuids 1000.

Definition conditionalCheckFailed : Reply :=
  Rejects (Some "ConditionalCheckFailedException").

(** A backend on which every read finds nothing and every write succeeds. *)
Definition emptyTable : Environment :=
  fun _ _ => mkAnswer (Resolves None) 1000.

(** A backend on which every read finds nothing and every write fails its
    condition: at each attempt another client creates the record first
    and has released it again by the next read. *)
Definition lostRace : Environment :=
  fun _ rq =>
    match rq with
    | Backend (GetLockByGroupAndId _ _) _ => mkAnswer (Resolves None) 1000
    | Backend _ _ => mkAnswer conditionalCheckFailed 1000
    | WaitMs _ => mkAnswer (Resolves None) 1000
    end.

(** A backend on which every read finds a record held by another owner
    who keeps renewing it, so that every steal fails its condition. *)
Definition heldByOther : Environment :=
  fun _ rq =>
    match rq with
    | Backend (GetLockByGroupAndId _ _) _ =>
        mkAnswer
          (Resolves (Some (mkLockTableAttrs (Some "their-version") "owner-2"
                             (Some 900) (Some 15000) None)))
          1000
    | Backend _ _ => mkAnswer conditionalCheckFailed 1000
    | WaitMs _ => mkAnswer (Resolves None) 1000
    end.

(** A backend whose table does not exist: every request is rejected. *)
Definition tableMissing : Environment :=
  fun _ rq =>
    match rq with
    | Backend _ _ => mkAnswer (Rejects (Some "ResourceNotFoundException")) 1000
    | WaitMs _ => mkAnswer (Resolves None) 1000
    end.

(** [{leaseDurationInMs: 10000, prolongEveryMs: 5000}] *)
Definition halfLease : LockOptions :=
  mkLockOptions (Some 10000) None (Some 5000) None None None None.

(** The record of the lock held in [oneLockHeld] once its first renewal,
    sent at time 6000, has reached the table. *)
Definition renewedRecord : LockTableAttrs :=
  mkLockTableAttrs (Some "uuid-1") "owner-1" (Some 6000) (Some 20000) None.

(** A lock is acquired and its timeout fires at time 6000; the reply to
    the renewal is late.  Meanwhile the same group and id is locked again:
    the read finds the renewed record, the lease is waited out and the
    steal succeeds.  Then the reply to the renewal arrives, and the
    second handle is released. *)
Definition lateRenewal : list Action :=
  [CallLock 3 "group" "id" noOptions;
   Settle 0 (Resolves None); Settle 0 (Resolves None);
   Tick 6000; Fire 0;
   CallLock 3 "group" "id" noOptions;
   Settle 1 (Resolves (Some renewedRecord));
   Tick 26000; Settle 1 (Resolves None);
   Settle 1 (Resolves None);
   Settle 0 (Resolves None);
   CallReleaseLock 1;
   Settle 0 (Resolves None)].

(** The lock object held in [oneLockHeld] below. *)
Definition heldLock : Lock :=
  mkLock "id" "group" "owner-1" (Some "uuid-0") (Some 1000) true 20000 []
    true 5000 None false None (Some 0%nat).

(** The client after [lock("group", "id")] on an empty table. *)
Definition oneLockHeld : World :=
  final (run emptyTable (LockClient.lock 3 "group" "id" noOptions)
           (world exampleClient)).

(** The client after [lock("group", "id")] and [lock("group2", "id2")]. *)
Definition twoLocksHeld : World :=
  final (run emptyTable
           (LockClient.lock 3 "group" "id" noOptions ;;
            LockClient.lock 3 "group2" "id2" noOptions)
           (world exampleClient)).

(** [{maxRetryCount: 1, prolongLeaseEnabled: false}] *)
Definition oneRetry : LockOptions :=
  mkLockOptions None (Some false) None None None (Some 1) None.

(** The number of strong reads among the exchanges. *)
Definition reads (tr : list Exchange) : nat :=
  length (List.filter isRead (backendCalls tr)).

Definition isCreate (call : DataLayerCall) : bool :=
  match call with CreateNewLock _ => true | _ => false end.

(** The number of conditional creates among the exchanges. *)
Definition creates (tr : list Exchange) : nat :=
  length (List.filter isCreate (backendCalls tr)).

(** What [retryCount] has reached after the exchanges [tr] of a [lock]
    call: one for each read and one more for each create. *)
Definition retryCounter (tr : list Exchange) : Z :=
  Z.of_nat (reads tr) + Z.of_nat (creates tr).

(** The counter passed the check [retryCount > maxRetryCount] before its
    last increments. *)
Definition withinRetries (m : Z) (tr : list Exchange) : Prop :=
  retryCounter tr <= m + 1
  \/ (retryCounter tr = m + 2 /\ (0 < creates tr)%nat).

Definition countPost {A} (m : Z) (atLeast : Z) (h : list Exchange)
    (w : World) (s : Settled A) : Prop :=
  withinRetries m h
  /\ match s with
     | Rejected (LockNotGrantedError _) => m < retryCounter h
     | Unsettled => atLeast <= retryCounter h
     | _ => True
     end.

Definition isWarning (entry : LogSeverity * string) : bool :=
  match fst entry with SevWarn => true | _ => false end.

(** [{ttlKey: "expiresAt"}] *)
Definition ttlParam : LockTableConfigParam :=
  mkLockTableConfigParam None None None (Some "expiresAt") None.

Definition ttlConfig : LockTableConfig :=
  LockTableConfig.new None None None (Some "expiresAt") None.

(** Stands for an exchange that is not there. *)
Definition noExchange : Exchange :=
  mkExchange (world exampleClient) (WaitMs 0) (Resolves None).

(** The record that [heldByOther] answers every read with. *)
Definition theirLock : Lock :=
  Lock.new "id" "group" "owner-2" (Some "their-version") (Some 900) (Some true)
    (Some 15000) None None None None None None.

(** [lock] with one retry against a record that another owner keeps
    renewing: read, wait, steal, twice over. *)
Abbreviation contended :=
  (run heldByOther (LockClient.lock 10 "group" "id" oneRetry)
     (world exampleClient)).

(** The client once [lateRenewal] is over. *)
Definition afterLateRenewal : Config :=
  match execute lateRenewal exampleClient with
  | Some (c, _) => c
  | None => exampleClient
  end.

(** The second handle of [lateRenewal], released. *)
Definition releasedLock : Lock :=
  mkLock "id" "group" "owner-1" (Some "uuid-2") (Some 26000) false 20000 []
    true 5000 None false None None.

(** ** Further notions used in the verification *)

(** The attributes a write sets besides the ones it names itself: the
    TTL attribute, when the table has one. *)
Definition ttlAttribute (config : LockTableConfig) : list string :=
  if truthy_string (ttlKey config)
  then [default EmptyString (ttlKey config)]
  else [].

(** ** The rounds of a [lock] call *)

(** Where a [lock] call stands between two exchanges. *)
Inductive Phase : Type :=
| Reading                        (* at the top of [acquireLock] *)
| Missing                        (* the read found no record *)
| Found (existingLock : Lock)    (* the read found a record *)
| Waited (existingLock : Lock)   (* ... and its lease duration was waited *)
| Committed                      (* a create or steal write succeeded *)
| Failed (code : option string). (* the backend raised an error that ends the call *)

Definition afterWrite (rp : Reply) : Phase :=
  match rp with
  | Resolves _ => Committed
  | Rejects code =>
      if isConditionalCheckFailed (AWSError code) then Reading else Failed code
  end.

(** The lock object [l], created as [L0], as a write attempt sends it:
    stamped with the value [v4()] returned last and with the local time. *)
Definition attempting (L0 : Lock) (l : loc) (w : World) (L : Lock) : Prop :=
  heap w !! l = Some L
  /\ exists n, uuidCount w = S n
               /\ L = Lock.attemptLocking (uuidSource w n) (clock w) L0.

(** One exchange of a [lock] call for the lock object [l] created as
    [L0], and the phases before and after it. *)
Inductive round (L0 : Lock) (l : loc) : Phase -> Exchange -> Phase -> Prop :=
| round_read_found w attrs existingLock :
    Lock.create (lockGroup L0) (lockId L0) (attr_ownerName attrs)
      (attr_recordVersionNumber attrs) (attr_lastUpdatedTimeInMs attrs)
      (Some true)
      (mkLockOptions (attr_leaseDurationInMs attrs) None None None None None
         (attr_additionalAttributes attrs))
    = Normal existingLock ->
    round L0 l Reading
      (mkExchange w
         (Backend (GetLockByGroupAndId (lockGroup L0) (lockId L0))
            (DocGet (DataLayer.getParams (client_config w)
                       (lockGroup L0) (lockId L0))))
         (Resolves (Some attrs)))
      (Found existingLock)
| round_read_missing w :
    round L0 l Reading
      (mkExchange w
         (Backend (GetLockByGroupAndId (lockGroup L0) (lockId L0))
            (DocGet (DataLayer.getParams (client_config w)
                       (lockGroup L0) (lockId L0))))
         (Resolves None))
      Missing
| round_read_failed w code :
    round L0 l Reading
      (mkExchange w
         (Backend (GetLockByGroupAndId (lockGroup L0) (lockId L0))
            (DocGet (DataLayer.getParams (client_config w)
                       (lockGroup L0) (lockId L0))))
         (Rejects code))
      (Failed code)
| round_create w L rp :
    attempting L0 l w L ->
    round L0 l Missing
      (mkExchange w
         (Backend (CreateNewLock l)
            (DocPut (DataLayer.createParams (client_config w) (clock w) L)))
         rp)
      (afterWrite rp)
| round_wait_lease w existingLock rp :
    trustLocalTime L0 = false ->
    round L0 l (Found existingLock)
      (mkExchange w (WaitMs (leaseDurationInMs existingLock)) rp)
      (Waited existingLock)
| round_wait_retry w existingLock rp :
    trustLocalTime L0 = true ->
    Lock.leaseExpirationTimePassed existingLock (clock w) = false ->
    round L0 l (Found existingLock)
      (mkExchange w (WaitMs (default 0 (waitDurationInMs L0))) rp)
      Reading
| round_steal_expired w existingLock L rp :
    trustLocalTime L0 = true ->
    Lock.leaseExpirationTimePassed existingLock (clock w) = true ->
    attempting L0 l w L ->
    round L0 l (Found existingLock)
      (mkExchange w
         (Backend (UpdateLockWithNewLockContent existingLock l)
            (DocUpdate (DataLayer.stealParams (client_config w) (clock w)
                          existingLock L)))
         rp)
      (afterWrite rp)
| round_steal_waited w existingLock L rp :
    attempting L0 l w L ->
    round L0 l (Waited existingLock)
      (mkExchange w
         (Backend (UpdateLockWithNewLockContent existingLock l)
            (DocUpdate (DataLayer.stealParams (client_config w) (clock w)
                          existingLock L)))
         rp)
      (afterWrite rp).

(** The exchanges of a call, from the first one on. *)
Inductive rounds (L0 : Lock) (l : loc) : list Exchange -> Phase -> Prop :=
| rounds_nil : rounds L0 l [] Reading
| rounds_snoc h q x q' :
    rounds L0 l h q -> round L0 l q x q' -> rounds L0 l (h ++ [x]) q'.

(** The phase in which a call ends with result [s]. *)
Definition endsIn {A} (L0 : Lock) (q : Phase) (s : Settled A) : Prop :=
  match s with
  | Resolved _ => q = Committed
  | Rejected (AWSError code) => q = Failed code
  | Rejected (LockNotGrantedError _) =>
      q = Reading /\ is_Some (maxRetryCount L0)
  | Rejected _ => False
  | Unsettled => q = Reading
  end.

(** The lock object once [lockAcquired] is through with it. *)
Definition granted (w0 : World) (L : Lock) : Lock :=
  if prolongLeaseEnabled L
  then Lock.attemptProlonging (nextTimer w0) (Lock.acquired L)
  else Lock.acquired L.

Definition protocolPost {A} (l : loc) (L0 : Lock) (w0 : World)
    (h : list Exchange) (w : World) (s : Settled A) : Prop :=
  exists q,
    rounds L0 l h q /\ endsIn L0 q s
    /\ match s with
       | Resolved _ =>
           exists earlier x L,
             h = earlier ++ [x]
             /\ heap (stateAtRequest x) !! l = Some L
             /\ heap w !! l = Some (granted w0 L)
       | _ => True
       end.

(** The lock object that [lock] creates. *)
Definition requested (w : World) (lockGroup lockId : string)
    (lockOptions : LockOptions) : Lock :=
  Lock.new lockId lockGroup (client_ownerName w) None None (Some false)
    (opt_leaseDurationInMs lockOptions)
    (opt_additionalAttributes lockOptions)
    (opt_prolongLeaseEnabled lockOptions) (opt_prolongEveryMs lockOptions)
    (opt_maxRetryCount lockOptions) (opt_trustLocalTime lockOptions)
    (opt_waitDurationInMs lockOptions).

(** * Verification *)

(** ** The lock entity *)

Lemma prolongTooLong_spec (lockItem : Lock) :
  Lock.prolongTooLong lockItem = true <->
  leaseDurationInMs lockItem <= 2 * prolongEveryMs lockItem.
Proof.
  unfold Lock.prolongTooLong, Qle_bool; simpl.
  rewrite Z.leb_le. lia.
Qed.

Lemma prolongTooLong_Q (lockItem : Lock) :
  Lock.prolongTooLong lockItem = true <->
  (leaseDurationInMs lockItem # 2 <= inject_Z (prolongEveryMs lockItem))%Q.
Proof. unfold Lock.prolongTooLong. apply Qle_bool_iff. Qed.

Lemma validate_throws_iff (lockItem : Lock) :
  (exists e, Lock.validate lockItem = Thrown e) <->
  isAcquired lockItem = false /\ prolongLeaseEnabled lockItem = true
  /\ leaseDurationInMs lockItem <= 2 * prolongEveryMs lockItem.
Proof.
  rewrite <- prolongTooLong_spec. unfold Lock.validate.
  destruct (isAcquired lockItem), (prolongLeaseEnabled lockItem),
    (Lock.prolongTooLong lockItem); simpl; split;
    try (intros [e He]; discriminate); try (intros (? & ? & ?); discriminate);
    eauto.
Qed.

Lemma leaseExpirationTimePassed_unset (this : Lock) (now : Z) :
  lastUpdatedTimeInMs this = None ->
  Lock.leaseExpirationTimePassed this now = false.
Proof. unfold Lock.leaseExpirationTimePassed. now intros ->. Qed.

Lemma leaseExpirationTimePassed_nonzero (this : Lock) (now updated : Z) :
  lastUpdatedTimeInMs this = Some updated -> updated <> 0 ->
  Lock.leaseExpirationTimePassed this now = true <->
  now > updated + leaseDurationInMs this.
Proof.
  unfold Lock.leaseExpirationTimePassed. intros -> Hz.
  destruct (Z.eqb_spec updated 0) as [|_]; [contradiction|].
  rewrite Z.gtb_ltb, Z.ltb_lt. lia.
Qed.

(** C7 (the code departs from the claim).  A lock last updated at
    timestamp 0 with a lease of 1000 ms is asked at time 5000: the lease
    expired long ago ([5000 > 0 + 1000]), yet [leaseExpirationTimePassed]
    answers [false], because its guard takes the timestamp 0 for an unset
    one. *)
Example leaseExpirationTimePassed_zero_timestamp :
  let this :=
    Lock.new "id" "group" "owner" (Some "rvn") (Some 0) (Some true)
      (Some 1000) None None None None None None in
  lastUpdatedTimeInMs this = Some 0
  /\ 5000 > 0 + leaseDurationInMs this
  /\ Lock.leaseExpirationTimePassed this 5000 = false.
Proof. simpl. repeat split; reflexivity. Qed.

(** C8, counterexample.  [Lock.create] is given an empty group, an empty
    id, an empty owner and numeric options that are zero or negative, and
    builds the handle all the same. *)
Example create_accepts_empty_names_and_nonpositive_options :
  Lock.create EmptyString EmptyString EmptyString None None None
    (mkLockOptions (Some 0) (Some false) (Some (-5)) None (Some 0) (Some (-1)) None)
  = Normal (mkLock EmptyString EmptyString EmptyString None None false 0 []
              false (-5) (Some (-1)) false (Some 0) None).
Proof. reflexivity. Qed.

(** C8, amended.  [Lock.create] fails exactly when the handle is created
    not yet acquired, with prolongation enabled and
    [prolongEveryMs >= leaseDurationInMs / 2] (defaults 5000 and 20000
    filled in); in every other case it builds the handle from its
    arguments, whatever the strings and the signs of the numbers. *)
Theorem create_fails_iff (lockGroup lockId ownerName : string)
    (recordVersionNumber : option string) (lastUpdatedTimeInMs : option Z)
    (isAcquired : option bool) (lockOptions : LockOptions) :
  let rejected :=
    default false isAcquired = false
    /\ default true (opt_prolongLeaseEnabled lockOptions) = true
    /\ default 20000 (opt_leaseDurationInMs lockOptions)
       <= 2 * default 5000 (opt_prolongEveryMs lockOptions) in
  let built :=
    Lock.new lockId lockGroup ownerName recordVersionNumber lastUpdatedTimeInMs
      isAcquired (opt_leaseDurationInMs lockOptions)
      (opt_additionalAttributes lockOptions)
      (opt_prolongLeaseEnabled lockOptions) (opt_prolongEveryMs lockOptions)
      (opt_maxRetryCount lockOptions) (opt_trustLocalTime lockOptions)
      (opt_waitDurationInMs lockOptions) in
  let created :=
    Lock.create lockGroup lockId ownerName recordVersionNumber
      lastUpdatedTimeInMs isAcquired lockOptions in
  ((exists message, created = Thrown (LockOptionsValidationError message))
   <-> rejected)
  /\ (~ rejected <-> created = Normal built).
Proof.
  intros rejected built created.
  assert (Hv : (exists e, Lock.validate built = Thrown e) <-> rejected)
    by apply validate_throws_iff.
  subst created. unfold Lock.create. fold built.
  unfold Lock.validate in *.
  destruct (negb _ && _ && _).
  - assert (Hr : rejected) by (apply Hv; eauto).
    split; split; intros H; eauto; try contradiction; discriminate.
  - assert (Hr : ~ rejected) by (intros Hr; apply Hv in Hr as [e He]; discriminate).
    split; split; intros H; try contradiction; try reflexivity; auto.
    destruct H as [m Hm]; discriminate.
Qed.

(** ** The store adapter *)

Lemma obj_get_set {A} (k k' : string) (v : A) (o : JsObject A) :
  obj_get k (obj_set k' v o) = if String.eqb k' k then Some v else obj_get k o.
Proof.
  induction o as [|[k0 v0] o IH]; simpl.
  - reflexivity.
  - destruct (String.eqb_spec k0 k') as [->|Hne]; simpl.
    + destruct (String.eqb_spec k' k); reflexivity.
    + rewrite IH. destruct (String.eqb_spec k0 k) as [->|]; [|reflexivity].
      destruct (String.eqb_spec k' k) as [->|]; [contradiction|reflexivity].
Qed.

Lemma obj_get_delete {A} (k : string) (o : JsObject A) :
  obj_get k (obj_delete k o) = None.
Proof.
  induction o as [|[k0 v0] o IH]; simpl; [reflexivity|].
  destruct (String.eqb k0 k) eqn:Hk; simpl; [exact IH|].
  rewrite Hk. exact IH.
Qed.

Lemma timer_lookup_remove (h : TimerId) (t : list (TimerId * TimerClosure)) :
  timer_lookup h (timer_remove h t) = None.
Proof.
  unfold timer_lookup, timer_remove.
  induction t as [|[h0 c0] t IH]; simpl; [reflexivity|].
  destruct (Nat.eqb h0 h) eqn:Hh; simpl; [exact IH|].
  rewrite Hh. exact IH.
Qed.





(** ** Calls that run alone *)

Lemma wp_mono {A} (I : World -> Request -> Prop) (r : Run A) history
    (Q Q' : list Exchange -> World -> Settled A -> Prop) :
  (forall h w s, Q h w s -> Q' h w s) -> wp I r history Q -> wp I r history Q'.
Proof.
  intros HQ. revert history.
  induction r as [w s|w rq k IH]; simpl; intros history H; [auto|].
  destruct H as [Hi H]. split; [exact Hi|]. intros rp t. apply IH, H.
Qed.

(** Soundness of [wp] for [run_from]: the requests of the run are made in
    states satisfying [I], and the outcome satisfies [Q]. *)
Lemma wp_run_from {A} (env : Environment) (I : World -> Request -> Prop)
    (r : Run A)
    history (Q : list Exchange -> World -> Settled A -> Prop) :
  wp I r history Q ->
  let o := run_from env history r in
  Q (exchanges o) (final o) (result o)
  /\ exists added, exchanges o = history ++ added
                   /\ Forall (fun x => I (stateAtRequest x) (request x)) added.
Proof.
  revert history.
  induction r as [w s|w rq k IH]; simpl; intros history H.
  - split; [exact H|]. exists []. rewrite app_nil_r. split; constructor.
  - destruct H as [Hi H].
    specialize (IH _ _ _ (H (reply (env history rq)) (resumedAt (env history rq)))).
    destruct IH as [HQ (added & Heq & Hall)]. split; [exact HQ|].
    eexists (_ :: added). rewrite Heq, <- app_assoc. split; [reflexivity|].
    constructor; [exact Hi|exact Hall].
Qed.

Lemma wp_run {A} (env : Environment) (I : World -> Request -> Prop)
    (m : Async A) (w : World) (Q : list Exchange -> World -> Settled A -> Prop) :
  wp I (m w) [] Q ->
  let o := run env m w in
  Q (exchanges o) (final o) (result o)
  /\ Forall (fun x => I (stateAtRequest x) (request x)) (exchanges o).
Proof.
  intros H. destruct (wp_run_from env I (m w) [] Q H) as [HQ (added & Heq & Hall)].
  split; [exact HQ|]. unfold run. rewrite Heq. exact Hall.
Qed.

Section Rules.
Context {A : Type} (I : World -> Request -> Prop).
Implicit Types (w : World) (h : list Exchange).
Implicit Type Q : list Exchange -> World -> Settled A -> Prop.

Lemma wp_bind_run {B} (r : Run B) (f : B -> Async A) h Q :
  wp I r h (fun h' w' s =>
    match s with
    | Resolved a => wp I (f a w') h' Q
    | Rejected e => Q h' w' (Rejected e)
    | Unsettled => Q h' w' Unsettled
    end) ->
  wp I (bind_run r f) h Q.
Proof.
  revert h.
  induction r as [w s|w rq k IH]; simpl; intros h H.
  - destruct s; exact H.
  - destruct H as [Hi H]. split; [exact Hi|]. intros rp t. apply IH, H.
Qed.

Lemma wp_catch_run (r : Run A) (handler : Error -> Async A) h Q :
  wp I r h (fun h' w' s =>
    match s with
    | Rejected e => wp I (handler e w') h' Q
    | _ => Q h' w' s
    end) ->
  wp I (catch_run r handler) h Q.
Proof.
  revert h.
  induction r as [w s|w rq k IH]; simpl; intros h H.
  - destruct s; exact H.
  - destruct H as [Hi H]. split; [exact Hi|]. intros rp t. apply IH, H.
Qed.

Lemma wp_bind {B} (m : Async B) (f : B -> Async A) w h Q :
  wp I (m w) h (fun h' w' s =>
    match s with
    | Resolved a => wp I (f a w') h' Q
    | Rejected e => Q h' w' (Rejected e)
    | Unsettled => Q h' w' Unsettled
    end) ->
  wp I ((m ≫= f) w) h Q.
Proof. apply wp_bind_run. Qed.

Lemma wp_try_catch (m : Async A) (handler : Error -> Async A) w h Q :
  wp I (m w) h (fun h' w' s =>
    match s with
    | Rejected e => wp I (handler e w') h' Q
    | _ => Q h' w' s
    end) ->
  wp I (try_catch m handler w) h Q.
Proof. apply wp_catch_run. Qed.

Lemma wp_ret (a : A) w h Q : Q h w (Resolved a) -> wp I (ret a w) h Q.
Proof. exact id. Qed.

Lemma wp_throw (e : Error) w h Q : Q h w (Rejected e) -> wp I (throw e w) h Q.
Proof. exact id. Qed.

Lemma wp_stuck w h Q : Q h w Unsettled -> wp I (stuck w) h Q.
Proof. exact id. Qed.

Lemma wp_gets (g : World -> A) w h Q :
  Q h w (Resolved (g w)) -> wp I (gets g w) h Q.
Proof. exact id. Qed.

End Rules.

Section PrimitiveRules.
Context (I : World -> Request -> Prop).
Implicit Types (w : World) (h : list Exchange).

Lemma wp_modify (g : World -> World) w h Q :
  Q h (g w) (Resolved tt) -> wp I (modify g w) h Q.
Proof. exact id. Qed.

Lemma wp_await (rq : Request) w h Q :
  I w rq ->
  (forall rp t, Q (h ++ [mkExchange w rq rp]) (with_clock t w) (Resolved rp)) ->
  wp I (await rq w) h Q.
Proof. intros Hi H. split; [exact Hi|exact H]. Qed.

Lemma wp_deref (l : loc) (L : Lock) w h Q :
  heap w !! l = Some L -> Q h w (Resolved L) -> wp I (deref l w) h Q.
Proof. intros Hl H. unfold deref. rewrite Hl. exact H. Qed.

Lemma wp_generateUUID w h Q :
  Q h (with_uuidCount (S (uuidCount w)) w)
    (Resolved (uuidSource w (uuidCount w))) ->
  wp I (LockClient.generateUUID w) h Q.
Proof. exact id. Qed.

Lemma wp_setTimeout (c : TimerClosure) w h Q :
  Q h (with_timers (timers w ++ [(nextTimer w, c)]) (S (nextTimer w)) w)
    (Resolved (nextTimer w)) ->
  wp I (setTimeout c w) h Q.
Proof. exact id. Qed.

Lemma wp_alloc (L : Lock) w h Q :
  Q h (with_heap (heap w ++ [L]) w) (Resolved (length (heap w))) ->
  wp I (alloc L w) h Q.
Proof. exact id. Qed.

End PrimitiveRules.

Ltac world_simpl :=
  cbn [heap acquiredLocks client_ownerName client_config logCallback logged
       timers nextTimer clock uuidSource uuidCount
       with_heap with_acquiredLocks with_logged with_timers with_clock
       with_uuidCount].

Ltac solve_quiet :=
  unfold quiet; world_simpl; repeat split; assumption.

(** One step of symbolic execution of an [Async] body. *)
Ltac wp_step :=
  lazymatch goal with
  | |- wp _ ((_ ≫= _) _) _ _ => apply wp_bind
  | |- wp _ (try_catch _ _ _) _ _ => apply wp_try_catch
  | |- wp _ (ret _ _) _ _ => apply wp_ret
  | |- wp _ (throw _ _) _ _ => apply wp_throw
  | |- wp _ (stuck _) _ _ => apply wp_stuck
  | |- wp _ (gets _ _) _ _ => apply wp_gets
  | |- wp _ (modify _ _) _ _ => apply wp_modify
  | |- wp _ (await _ _) _ _ =>
      apply wp_await; [try solve [solve_quiet | exact I]|intros ? ?]
  | |- wp _ (LockClient.generateUUID _) _ _ => apply wp_generateUUID
  | |- wp _ (setTimeout _ _) _ _ => apply wp_setTimeout
  | |- wp _ (alloc _ _) _ _ => apply wp_alloc
  | |- wp _ (LockClient.log _ _ _) _ _ => unfold LockClient.log
  | |- wp _ (update _ _ _) _ _ => unfold update
  | |- wp _ (Date_now _) _ _ => unfold Date_now
  | |- wp _ (clearTimeout _ _) _ _ => unfold clearTimeout
  | |- wp _ (LockClient.waitMs _ _) _ _ => unfold LockClient.waitMs
  | |- wp _ (DataLayer.send _ _ _) _ _ => unfold DataLayer.send
  | |- wp _ (lift (Normal _) _) _ _ => apply wp_ret
  | |- wp _ (lift (Thrown _) _) _ _ => apply wp_throw
  end; cbn beta iota; world_simpl.

Ltac wp_steps := repeat wp_step.

(** Execute up to a [deref] and through it, given the object stored. *)
Ltac deref_with Hl :=
  wp_steps;
  eapply wp_deref;
  [world_simpl; rewrite ?list_lookup_alter_eq, Hl; reflexivity|];
  cbn beta iota.

Lemma create_acquired lockGroup lockId ownerName rvn updated lockOptions :
  Lock.create lockGroup lockId ownerName rvn updated (Some true) lockOptions
  = Normal (Lock.new lockId lockGroup ownerName rvn updated (Some true)
              (opt_leaseDurationInMs lockOptions)
              (opt_additionalAttributes lockOptions)
              (opt_prolongLeaseEnabled lockOptions)
              (opt_prolongEveryMs lockOptions)
              (opt_maxRetryCount lockOptions)
              (opt_trustLocalTime lockOptions)
              (opt_waitDurationInMs lockOptions)).
Proof. reflexivity. Qed.

Lemma create_Normal lockGroup lockId ownerName rvn updated acquired
    lockOptions created :
  Lock.create lockGroup lockId ownerName rvn updated acquired lockOptions
  = Normal created ->
  created = Lock.new lockId lockGroup ownerName rvn updated acquired
              (opt_leaseDurationInMs lockOptions)
              (opt_additionalAttributes lockOptions)
              (opt_prolongLeaseEnabled lockOptions)
              (opt_prolongEveryMs lockOptions)
              (opt_maxRetryCount lockOptions)
              (opt_trustLocalTime lockOptions)
              (opt_waitDurationInMs lockOptions).
Proof.
  unfold Lock.create. destruct (Lock.validate _); congruence.
Qed.

(** *** The acquisition loop *)

Lemma uncommitted_nil (l : loc) : uncommitted l [].
Proof. constructor. Qed.

Lemma uncommitted_snoc (l : loc) (h : list Exchange) (x : Exchange) :
  uncommitted l h -> isCommit l x = false -> uncommitted l (h ++ [x]).
Proof.
  intros Hh Hx. apply Forall_app. split; [exact Hh|]. constructor; auto.
Qed.

Section AcquireSpec.
Variables (l : loc) (L0 : Lock) (w0 : World).
Hypothesis Hacq : isAcquired L0 = false.
Hypothesis Hto : timeoutHandler L0 = None.

Lemma lockAcquired_spec I w h :
  pendingAt l L0 w0 w ->
  wp I (LockClient.lockAcquired l w) h (fun h' w' s =>
    s = Resolved tt /\ h' = h /\ committedAt l L0 w0 w').
Proof.
  intros ((HR & HT & HN) & rvn & t & Hl).
  unfold LockClient.lockAcquired, committedAt. deref_with Hl.
  cbn [prolongLeaseEnabled set_version_and_time prolongEveryMs]. wp_steps.
  change (Lock.getUniqueLockIdentifier (set_version_and_time rvn t L0))
    with (Lock.getUniqueLockIdentifier L0).
  destruct (prolongLeaseEnabled L0) eqn:Hp; wp_steps.
  - unfold LockClient.startProlongingLease. wp_steps.
    rewrite obj_get_set, String.eqb_refl. wp_steps.
    rewrite HR, HT, HN, !list_lookup_alter_eq, Hl. cbn.
    repeat (split; [reflexivity|]). split; [|reflexivity].
    eexists; split; [reflexivity|split; reflexivity].
  - rewrite HR, HT, !list_lookup_alter_eq, Hl. cbn.
    repeat (split; [reflexivity|]). split; [|reflexivity].
    eexists; split; [reflexivity|split; [reflexivity|exact Hto]].
Qed.

(** The recursive call and what is assumed of it. *)
Variable self : loc -> Z -> Async loc.
Hypothesis IH : forall rc w h,
  pendingAt l L0 w0 w -> uncommitted l h ->
  wp (fun w _ => quiet w0 w) (self l rc w) h (acquirePost l L0 w0).

Ltac solve_pending HR HT HN Hl :=
  unfold pendingAt, quiet; world_simpl;
  rewrite ?list_lookup_alter_eq, ?Hl;
  split; [split; [exact HR|split; [exact HT|exact HN]]|];
  eexists _, _; reflexivity.

Ltac solve_uncommitted Hh :=
  first [ exact Hh | apply uncommitted_snoc; [exact Hh|reflexivity] ].

Ltac solve_post HR HT HN Hl Hh :=
  cbn [acquirePost];
  split; [solve_pending HR HT HN Hl|];
  first [ solve_uncommitted Hh | split; [solve_uncommitted Hh|eauto] ].

Ltac passed_on :=
  intros h' w' [l'| |]; cbn beta iota; wp_steps; auto.

Ltac recurse HR HT HN Hl Hh :=
  eapply wp_mono;
    [|apply IH; [solve_pending HR HT HN Hl|solve_uncommitted Hh]];
  passed_on.

Lemma acquireNewLock_spec rc w h :
  pendingAt l L0 w0 w -> uncommitted l h ->
  wp (fun w _ => quiet w0 w) (LockClient.acquireNewLock self l rc w) h
    (acquirePost l L0 w0).
Proof.
  intros ((HR & HT & HN) & rvn & t & Hl) Hh.
  unfold LockClient.acquireNewLock. wp_steps.
  unfold DataLayer.createNewLock. deref_with Hl. wp_steps.
  destruct rp as [item|code]; wp_steps.
  - eapply wp_mono; [|apply lockAcquired_spec; solve_pending HR HT HN Hl].
    intros h' w' s (-> & -> & Hc). split; [exact Hc|].
    eexists _, _. split; [reflexivity|]. split; [|exact Hh].
    cbn. apply Nat.eqb_refl.
  - destruct (isConditionalCheckFailed (AWSError code)).
    + deref_with Hl. wp_steps. recurse HR HT HN Hl Hh.
    + wp_steps. solve_post HR HT HN Hl Hh.
Qed.

Lemma stealExistingLock_spec existing rc w h :
  pendingAt l L0 w0 w -> uncommitted l h ->
  wp (fun w _ => quiet w0 w) (LockClient.stealExistingLock self l existing rc w) h
    (acquirePost l L0 w0).
Proof.
  intros ((HR & HT & HN) & rvn & t & Hl) Hh.
  unfold LockClient.stealExistingLock. wp_steps.
  unfold DataLayer.updateLockWithNewLockContent. deref_with Hl. wp_steps.
  destruct rp as [item|code]; wp_steps.
  - eapply wp_mono; [|apply lockAcquired_spec; solve_pending HR HT HN Hl].
    intros h' w' s (-> & -> & Hc). cbn beta iota.
    destruct Hc as (HR' & (L & HL & HLa & HLt) & HT').
    deref_with HL. wp_steps.
    split.
    + split; [exact HR'|]. split; [|exact HT']. exists L. auto.
    + eexists _, _. split; [reflexivity|]. split; [|exact Hh].
      cbn. apply Nat.eqb_refl.
  - destruct (isConditionalCheckFailed (AWSError code)).
    + deref_with Hl. wp_steps. recurse HR HT HN Hl Hh.
    + wp_steps. solve_post HR HT HN Hl Hh.
Qed.

Lemma tryStealingExistingLock_spec existing rc w h :
  pendingAt l L0 w0 w -> uncommitted l h ->
  wp (fun w _ => quiet w0 w) (LockClient.tryStealingExistingLock self l existing rc w) h
    (acquirePost l L0 w0).
Proof.
  intros ((HR & HT & HN) & rvn & t & Hl) Hh.
  unfold LockClient.tryStealingExistingLock. deref_with Hl.
  cbn [trustLocalTime set_version_and_time waitDurationInMs].
  destruct (trustLocalTime L0); wp_steps.
  - recurse HR HT HN Hl Hh.
  - apply stealExistingLock_spec;
      [solve_pending HR HT HN Hl|solve_uncommitted Hh].
Qed.

Lemma acquireLock_body_spec rc w h :
  pendingAt l L0 w0 w -> uncommitted l h ->
  wp (fun w _ => quiet w0 w) (LockClient.acquireLock_body self l rc w) h
    (acquirePost l L0 w0).
Proof.
  intros ((HR & HT & HN) & rvn & t & Hl) Hh.
  unfold LockClient.acquireLock_body. deref_with Hl.
  cbn [isAcquired set_version_and_time maxRetryCount lockGroup lockId].
  rewrite Hacq.
  destruct (match maxRetryCount L0 with Some m => rc >? m | None => false end).
  { wp_steps. solve_post HR HT HN Hl Hh. }
  unfold DataLayer.getLockByGroupAndId. wp_steps.
  destruct rp as [[attrs|]|code]; wp_steps.
  - rewrite create_acquired. wp_steps. deref_with Hl.
    cbn [trustLocalTime set_version_and_time]. wp_steps.
    destruct (trustLocalTime L0 && Lock.leaseExpirationTimePassed _ _); wp_steps.
    + eapply wp_mono; [|apply stealExistingLock_spec;
        [solve_pending HR HT HN Hl|solve_uncommitted Hh]].
      passed_on.
    + eapply wp_mono; [|apply tryStealingExistingLock_spec;
        [solve_pending HR HT HN Hl|solve_uncommitted Hh]].
      passed_on.
  - eapply wp_mono; [|apply acquireNewLock_spec;
        [solve_pending HR HT HN Hl|solve_uncommitted Hh]].
    passed_on.
  - solve_post HR HT HN Hl Hh.
Qed.

End AcquireSpec.

Lemma acquireLock_spec (l : loc) (L0 : Lock) (w0 : World) :
  isAcquired L0 = false -> timeoutHandler L0 = None ->
  forall fuel rc w h,
    pendingAt l L0 w0 w -> uncommitted l h ->
    wp (fun w _ => quiet w0 w) (LockClient.acquireLock fuel l rc w) h (acquirePost l L0 w0).
Proof.
  intros Hacq Hto. induction fuel as [|fuel IH]; intros rc w h Hw Hh.
  - split; [exact Hw|exact Hh].
  - apply acquireLock_body_spec; auto.
Qed.

Lemma lock_spec fuel lockGroup lockId lockOptions w h :
  uncommitted (length (heap w)) h ->
  wp (fun w' _ => quiet w w') (LockClient.lock fuel lockGroup lockId lockOptions w) h
    (lockPost w lockGroup lockId lockOptions h).
Proof.
  intros Hh. unfold LockClient.lock, lockPost. wp_steps.
  destruct (Lock.create _ _ _ _ _ _ _) as [created|e] eqn:Hc; wp_steps.
  2: { auto. }
  apply create_Normal in Hc.
  eapply wp_mono;
    [|apply acquireLock_spec with (L0 := created) (w0 := w)].
  - intros h' w' [l| |] Hp; cbn beta iota; wp_steps; auto.
  - subst created. reflexivity.
  - subst created. reflexivity.
  - unfold pendingAt, quiet. world_simpl. split; [auto|].
    exists None, None. rewrite list_lookup_middle by reflexivity.
    subst created. reflexivity.
  - exact Hh.
Qed.

(** *** [lock]: validation and failure *)

Lemma create_rejects_iff lockGroup lockId ownerName lockOptions :
  (exists message,
      Lock.create lockGroup lockId ownerName None None (Some false) lockOptions
      = Thrown (LockOptionsValidationError message))
  <-> default true (opt_prolongLeaseEnabled lockOptions) = true
      /\ (default 20000%Z (opt_leaseDurationInMs lockOptions) # 2
          <= inject_Z (default 5000%Z (opt_prolongEveryMs lockOptions)))%Q.
Proof.
  rewrite <- (prolongTooLong_Q
    (Lock.new lockId lockGroup ownerName None None (Some false)
       (opt_leaseDurationInMs lockOptions) (opt_additionalAttributes lockOptions)
       (opt_prolongLeaseEnabled lockOptions) (opt_prolongEveryMs lockOptions)
       (opt_maxRetryCount lockOptions) (opt_trustLocalTime lockOptions)
       (opt_waitDurationInMs lockOptions))).
  unfold Lock.create, Lock.validate. cbn [isAcquired Lock.new default negb andb
    prolongLeaseEnabled].
  destruct (default true (opt_prolongLeaseEnabled lockOptions)); cbn [andb].
  - destruct (Lock.prolongTooLong _); split.
    + auto.
    + eauto.
    + intros [m Hm]. discriminate.
    + intros [_ H]. discriminate.
  - split; [intros [m Hm]; discriminate|intros [H _]; discriminate].
Qed.

Lemma create_throws_validation_only lockGroup lockId ownerName rvn updated
    acquired lockOptions e :
  Lock.create lockGroup lockId ownerName rvn updated acquired lockOptions
  = Thrown e ->
  exists message, e = LockOptionsValidationError message.
Proof.
  unfold Lock.create, Lock.validate.
  destruct (negb _ && _ && _); intros H; [|discriminate].
  injection H as <-. eauto.
Qed.

(** When [lock] is rejected by the validation, and only then, its result
    is a [LockOptionsValidationError]; nothing has happened by then. *)
Lemma lock_validation (env : Environment) fuel lockGroup lockId lockOptions w :
  let o := run env (LockClient.lock fuel lockGroup lockId lockOptions) w in
  ((exists message, result o = Rejected (LockOptionsValidationError message))
   <-> default true (opt_prolongLeaseEnabled lockOptions) = true
       /\ (default 20000%Z (opt_leaseDurationInMs lockOptions) # 2
           <= inject_Z (default 5000%Z (opt_prolongEveryMs lockOptions)))%Q)
  /\ ((exists message, result o = Rejected (LockOptionsValidationError message))
      -> exchanges o = [] /\ final o = w).
Proof.
  intros o.
  destruct (wp_run env _ _ w _ (lock_spec fuel lockGroup lockId lockOptions w [] (uncommitted_nil _)))
    as [HQ _].
  fold o in HQ. unfold lockPost in HQ.
  rewrite <- (create_rejects_iff lockGroup lockId (client_ownerName w)).
  destruct (Lock.create _ _ _ _ _ _ _) as [created|e] eqn:Hc.
  - assert (Hno : ~ exists message,
               result o = Rejected (LockOptionsValidationError message)).
    { intros [m Hm]. rewrite Hm in HQ. cbn in HQ.
      destruct HQ as (_ & _ & [[m' H]|[c H]]); discriminate. }
    split; [split|]; intros H; try contradiction.
    destruct H as [m Hm]. discriminate.
  - destruct HQ as (Hres & Hw & Hh).
    destruct (create_throws_validation_only _ _ _ _ _ _ _ _ Hc) as [m ->].
    split; [split; eauto|]. intros _. auto.
Qed.

(** C5.  A [lock] call that asks for prolongation (explicitly or by
    default; the handle it creates is not yet acquired) is rejected with
    [LockOptionsValidationError] exactly when
    [prolongEveryMs >= leaseDurationInMs / 2]; the rejection comes before
    any request to the backend and leaves the client as it was.  In
    particular [prolongEveryMs = leaseDurationInMs / 2] is rejected and
    [prolongEveryMs = leaseDurationInMs / 2 - 1] is not. *)
Theorem lock_rejects_iff_prolong_too_long (env : Environment) (fuel : nat)
    (lockGroup lockId : string) (lockOptions : LockOptions) (w : World) :
  default true (opt_prolongLeaseEnabled lockOptions) = true ->
  let prolongEveryMs := default 5000 (opt_prolongEveryMs lockOptions) in
  let leaseDurationInMs := default 20000 (opt_leaseDurationInMs lockOptions) in
  let o := run env (LockClient.lock fuel lockGroup lockId lockOptions) w in
  let rejected :=
    exists message, result o = Rejected (LockOptionsValidationError message) in
  (rejected <-> (leaseDurationInMs # 2 <= inject_Z prolongEveryMs)%Q)
  /\ (rejected -> exchanges o = [] /\ final o = w)
  /\ (2 * prolongEveryMs = leaseDurationInMs -> rejected)
  /\ (2 * (prolongEveryMs + 1) = leaseDurationInMs -> ~ rejected).
Proof.
  intros Hen p d o rejected.
  destruct (lock_validation env fuel lockGroup lockId lockOptions w)
    as [Hiff Hbefore].
  fold o in Hiff, Hbefore. fold p d in Hiff. fold rejected in Hiff, Hbefore.
  assert (Hq : rejected <-> (d # 2 <= inject_Z p)%Q) by (rewrite Hiff; tauto).
  assert (Hz : (d # 2 <= inject_Z p)%Q <-> d <= 2 * p).
  { unfold Qle; simpl. lia. }
  repeat split; try tauto.
  - intros H2. apply Hq, Hz. lia.
  - intros H2 Hr. apply Hq, Hz in Hr. lia.
Qed.

(** C10.  Every request a [lock] call makes is made with the registry
    and the armed timeouts it found.  If the call does not return a
    handle (it throws, whichever the error), none of its create or steal
    writes has succeeded, the registry and the timeouts are still those
    of before the call and the lock object it created is neither
    acquired nor has a timeout.  If it returns the handle, its last
    exchange with the backend is a create or steal write for that handle
    that succeeded, the only one to succeed, and the handle is
    registered under its identifier. *)
Theorem failed_lock_changes_neither_registry_nor_timers (env : Environment)
    (fuel : nat) (lockGroup lockId : string) (lockOptions : LockOptions)
    (w : World) :
  let o := run env (LockClient.lock fuel lockGroup lockId lockOptions) w in
  let handle := length (heap w) in
  Forall (fun x => acquiredLocks (stateAtRequest x) = acquiredLocks w
                   /\ timers (stateAtRequest x) = timers w) (exchanges o)
  /\ match result o with
     | Resolved l =>
         l = handle
         /\ (exists earlier x,
               exchanges o = earlier ++ [x] /\ isCommit handle x = true
               /\ uncommitted handle earlier)
         /\ acquiredLocks (final o)
            = obj_set (lockGroup +:+ "|" +:+ lockId) handle (acquiredLocks w)
     | _ =>
         uncommitted handle (exchanges o)
         /\ acquiredLocks (final o) = acquiredLocks w
         /\ timers (final o) = timers w
         /\ (forall L, heap (final o) !! handle = Some L ->
               isAcquired L = false /\ timeoutHandler L = None)
     end.
Proof.
  intros o handle.
  destruct (wp_run env _ _ w _ (lock_spec fuel lockGroup lockId lockOptions w [] (uncommitted_nil _)))
    as [HQ Hall].
  fold o in HQ, Hall. split.
  { eapply Forall_impl; [exact Hall|]. intros x (HR & HT & _). auto. }
  unfold lockPost in HQ.
  destruct (Lock.create _ _ _ _ _ _ _) as [created|e] eqn:Hc.
  - apply create_Normal in Hc.
    assert (Hpending : forall w', pendingAt handle created w w' ->
              acquiredLocks w' = acquiredLocks w /\ timers w' = timers w
              /\ (forall L, heap w' !! handle = Some L ->
                    isAcquired L = false /\ timeoutHandler L = None)).
    { intros w' ((HR & HT & _) & rvn & t & Hl).
      split; [exact HR|]. split; [exact HT|].
      intros held Hheld. rewrite Hl in Hheld. injection Hheld as <-.
      subst created. split; reflexivity. }
    destruct (result o) as [l|e|]; cbn in HQ.
    + destruct HQ as (-> & (HR & _) & Hlast). repeat split; auto.
      rewrite HR. subst created. reflexivity.
    + destruct HQ as (Hp & Hh & _). split; [exact Hh|]. apply Hpending, Hp.
    + destruct HQ as (Hp & Hh). split; [exact Hh|]. apply Hpending, Hp.
  - destruct HQ as (-> & -> & ->).
    split; [constructor|]. split; [reflexivity|]. split; [reflexivity|].
    intros held Hheld. apply lookup_lt_Some in Hheld. unfold handle in Hheld. lia.
Qed.

(** The three ways [lock] fails, on a client that holds another lock
    and has its timeout armed: refused by the validation, given up after
    the retries, and stopped by a backend error. *)
Example failed_lock_scenarios :
  let attempt env opts :=
    run env (LockClient.lock 10 "group2" "id2" opts) oneLockHeld in
  let unchanged (o : Outcome loc) :=
    acquiredLocks (final o) = [("group|id", 0%nat)]
    /\ List.map fst (timers (final o)) = [0%nat] in
  let invalid := attempt emptyTable halfLease in
  let givenUp := attempt heldByOther oneRetry in
  let stopped := attempt tableMissing noOptions in
  unchanged (mkOutcome oneLockHeld (Resolved 0%nat) [])
  /\ (result invalid
      = Rejected (LockOptionsValidationError
          "prolongEveryMs(5000) can not be longer than leaseDurationInMs/2(10000)")
      /\ unchanged invalid)
  /\ (result givenUp
      = Rejected (LockNotGrantedError
          "group2|id2 could not be acquired after retrying for 1 times.")
      /\ unchanged givenUp)
  /\ (result stopped = Rejected (AWSError (Some "ResourceNotFoundException"))
      /\ unchanged stopped).
Proof. vm_compute. repeat split; reflexivity. Qed.

(** *** [releaseLock] *)

Lemma releaseLock_spec l L w h :
  heap w !! l = Some L ->
  wp (fun w1 rq => releasedAt l L w1
                   /\ exists doc, rq = Backend (DeleteLock l) doc)
    (LockClient.releaseLock l w) h
    (fun h' w' s => exists x, h' = h ++ [x] /\ releaseResult l L x w' s).
Proof.
  intros Hl. unfold LockClient.releaseLock, Lock_released, releaseResult.
  deref_with Hl. unfold Lock.released.
  cbn [timeoutHandler set_isAcquired].
  assert (Huid : forall b o, Lock.getUniqueLockIdentifier
            (set_timeoutHandler o (set_isAcquired b L))
            = Lock.getUniqueLockIdentifier L) by reflexivity.
  assert (Huid' : forall b, Lock.getUniqueLockIdentifier (set_isAcquired b L)
            = Lock.getUniqueLockIdentifier L) by reflexivity.
  assert (Hrel : forall w1,
            heap w1 = alter (fun _ => fst (Lock.released L)) l (heap w) ->
            acquiredLocks w1
              = obj_delete (Lock.getUniqueLockIdentifier L) (acquiredLocks w) ->
            timers w1
              = match timeoutHandler L with
                | Some th => timer_remove th (timers w)
                | None => timers w
                end ->
            releasedAt l L w1).
  { intros w1 Hh Hr Ht. unfold releasedAt. rewrite Hh, Hr, Ht.
    rewrite list_lookup_alter_eq, Hl. split; [|split].
    - eexists. split; [reflexivity|]. unfold Lock.released.
      cbn [timeoutHandler set_isAcquired].
      destruct (timeoutHandler L) eqn:Hth; cbn; auto.
    - apply obj_get_delete.
    - intros h0 Hh0. rewrite Hh0. apply timer_lookup_remove. }
  unfold Lock.released in Hrel. cbn [timeoutHandler set_isAcquired] in Hrel.
  destruct (timeoutHandler L) as [th|] eqn:Hth; cbn [fst] in Hrel; wp_steps.
  - deref_with Hl. rewrite Huid. unfold DataLayer.deleteLock. deref_with Hl.
    wp_steps.
    { split; [apply Hrel; reflexivity|eexists; reflexivity]. }
    destruct rp as [item|code]; wp_steps.
    + eexists. split; [reflexivity|]. split; [eexists; reflexivity|].
      split; [apply Hrel; reflexivity|].
      split; [apply Hrel; reflexivity|]. reflexivity.
    + cbn [isConditionalCheckFailed].
      destruct (match code with Some c => _ | None => false end) eqn:Hc;
        wp_steps;
        (eexists; split; [reflexivity|]; split; [eexists; reflexivity|];
         split; [apply Hrel; reflexivity|];
         split; [apply Hrel; reflexivity|];
         cbn [answer isConditionalCheckFailed];
         rewrite Hc; split; reflexivity).
  - deref_with Hl. rewrite Huid'. unfold DataLayer.deleteLock. deref_with Hl.
    wp_steps.
    { split; [apply Hrel; reflexivity|eexists; reflexivity]. }
    destruct rp as [item|code]; wp_steps.
    + eexists. split; [reflexivity|]. split; [eexists; reflexivity|].
      split; [apply Hrel; reflexivity|].
      split; [apply Hrel; reflexivity|]. reflexivity.
    + cbn [isConditionalCheckFailed].
      destruct (match code with Some c => _ | None => false end) eqn:Hc;
        wp_steps;
        (eexists; split; [reflexivity|]; split; [eexists; reflexivity|];
         split; [apply Hrel; reflexivity|];
         split; [apply Hrel; reflexivity|];
         cbn [answer isConditionalCheckFailed];
         rewrite Hc; split; reflexivity).
Qed.

Lemma releaseLock_outcome (env : Environment) l L w :
  heap w !! l = Some L ->
  releaseOutcome l L (run env (LockClient.releaseLock l) w).
Proof.
  intros Hl.
  destruct (wp_run env _ _ w _ (releaseLock_spec l L w [] Hl))
    as [(x & Hx & Hres) _].
  exists x. split; [exact Hx|exact Hres].
Qed.

Lemma releaseOutcome_result l L (o : Outcome unit) x :
  releaseOutcome l L o -> exchanges o = [x] ->
  if swallowed (answer x) then result o = Resolved tt
  else exists code, answer x = Rejects code
                    /\ result o = Rejected (AWSError code).
Proof.
  intros (x' & Hx' & _ & _ & _ & Hres) Hx.
  rewrite Hx' in Hx. injection Hx as ->. unfold swallowed.
  destruct (answer x) as [item|code]; [exact Hres|].
  destruct (isConditionalCheckFailed (AWSError code)); [apply Hres|].
  exists code. split; [reflexivity|apply Hres].
Qed.

Lemma conditionFailed_code (code : option string) :
  isConditionalCheckFailed (AWSError code) = true
  <-> code = Some "ConditionalCheckFailedException".
Proof.
  destruct code as [c|]; cbn [isConditionalCheckFailed].
  - rewrite String.eqb_eq. split; congruence.
  - split; discriminate.
Qed.

(** [releaseLock] on a lock object makes exactly one request, the backend
    delete.  When it makes it the lock object is already marked released,
    the timeout it stores is cancelled and its identifier is gone from the
    registry.  If the delete succeeds the call returns normally; if it is
    rejected with the code [ConditionalCheckFailedException] the call
    returns normally too, after one warning; a rejection with any other
    code, or with none, is the error of the call and nothing is logged.
    A second [releaseLock] on the same lock object goes the same way. *)
Theorem releaseLock_releases_locally_then_deletes (env env' : Environment)
    (w : World) (lock : loc) (L : Lock) :
  heap w !! lock = Some L ->
  let o := run env (LockClient.releaseLock lock) w in
  let again := run env' (LockClient.releaseLock lock) (final o) in
  let conditionFailed := Some "ConditionalCheckFailedException" in
  let report (held : Lock) (o : Outcome unit) :=
    exists x doc,
      exchanges o = [x]
      /\ request x = Backend (DeleteLock lock) doc
      /\ releasedAt lock held (stateAtRequest x)
      /\ releasedAt lock held (final o)
      /\ (forall item, answer x = Resolves item -> result o = Resolved tt)
      /\ (answer x = Rejects conditionFailed ->
          result o = Resolved tt
          /\ logged (final o)
             = if logCallback (final o)
               then logged (stateAtRequest x)
                    ++ [(SevWarn,
                         "Tried to remove the lock but it is already released: "
                         +:+ lockGroup held +:+ "|" +:+ lockId held)]
               else logged (stateAtRequest x))
      /\ (forall code, answer x = Rejects code -> code <> conditionFailed ->
          result o = Rejected (AWSError code)
          /\ logged (final o) = logged (stateAtRequest x)) in
  report L o
  /\ exists L1, heap (final o) !! lock = Some L1 /\ report L1 again.
Proof.
  intros Hl o again conditionFailed report.
  assert (Hreport : forall held o', releaseOutcome lock held o' -> report held o').
  { intros held o' (x & Hx & (doc & Hreq) & Hat & Hfin & Hres).
    exists x, doc. split; [exact Hx|]. split; [exact Hreq|].
    split; [exact Hat|]. split; [exact Hfin|].
    destruct (answer x) as [item|code]; (split; [|split]).
    - intros _ _. exact Hres.
    - discriminate.
    - discriminate.
    - discriminate.
    - intros [= ->].
      assert (Hc : isConditionalCheckFailed (AWSError conditionFailed) = true)
        by reflexivity.
      rewrite Hc in Hres. exact Hres.
    - intros code' [= <-] Hne.
      destruct (isConditionalCheckFailed (AWSError code)) eqn:Hc;
        [apply conditionFailed_code in Hc; contradiction|exact Hres]. }
  assert (Ho : releaseOutcome lock L o) by (apply releaseLock_outcome, Hl).
  split; [apply Hreport, Ho|].
  destruct Ho as (x & Hx & _ & _ & ((L1 & HL1 & _) & _) & _).
  exists L1. split; [exact HL1|]. apply Hreport, releaseLock_outcome, HL1.
Qed.

(** C4 (the code departs from the claim).  A client holds a lock and the
    timeout of that lock has fired: its renewal has reached the table but
    the reply is still on its way.  A second [lock] call for the same
    group and id reads the renewed record, waits its lease out and steals
    it: handle 1 is registered and timeout 1 is armed for it.  Now the
    reply to the renewal arrives; the callback arms timeout 2 for whatever
    is registered under the identifier, which is handle 1, and handle 1
    stores timeout 2 in place of timeout 1.  [releaseLock] on handle 1
    then marks it released, removes it from the registry, cancels
    timeout 2 and has its delete answered; when it has returned, timeout 1
    is still armed for handle 1: not every pending timeout of the handle
    has been cancelled. *)
Example releaseLock_leaves_an_earlier_timeout_armed :
  match execute lateRenewal exampleClient with
  | Some (c, events) =>
      last events = Some (Finished (FromReleaseLock 1) true)
      /\ isAcquired <$> heap (world c) !! 1%nat = Some false
      /\ timeoutHandler <$> heap (world c) !! 1%nat = Some None
      /\ acquiredLocks (world c) = []
      /\ pool c = []
      /\ timers (world c)
         = [(1%nat, mkTimerClosure "group|id" (Some 1%nat) 5000)]
  | None => False
  end.
Proof. vm_compute. repeat split; reflexivity. Qed.

(** *** [releaseAllLocks] *)

Lemma Lock_released_done (l : loc) (w : World) :
  exists w' s, Lock_released l w = Done w' s
               /\ acquiredLocks w' = acquiredLocks w.
Proof.
  unfold Lock_released, mbind, Async_bind, bind, deref.
  destruct (heap w !! l) as [this|]; cbn [bind_run]; [|eauto].
  destruct (Lock.released this) as [this' [h|]]; cbn; eauto.
Qed.

Lemma for_of_released_done (ls : list loc) (w : World) :
  exists w' s, for_of ls Lock_released w = Done w' s
               /\ acquiredLocks w' = acquiredLocks w.
Proof.
  revert w. induction ls as [|l ls IH]; intros w; cbn [for_of].
  - cbn. eauto.
  - unfold mbind, Async_bind, bind.
    destruct (Lock_released_done l w) as (w1 & s1 & -> & HR).
    destruct s1 as [[]| |]; cbn [bind_run]; [|eauto..].
    destruct (IH w1) as (w2 & s2 & -> & HR2). rewrite <- HR, <- HR2. eauto.
Qed.

(** [releaseAllLocks] never awaits anything: it empties the registry,
    marks the lock objects released and returns. *)
Lemma releaseAllLocks_makes_no_request (env : Environment) (w : World) :
  let o := run env LockClient.releaseAllLocks w in
  exchanges o = [] /\ acquiredLocks (final o) = [].
Proof.
  unfold run, LockClient.releaseAllLocks, mbind, Async_bind, bind.
  cbn [gets modify bind_run].
  destruct (for_of_released_done (obj_values (acquiredLocks w))
              (with_acquiredLocks [] w)) as (w' & s & -> & HR).
  destruct s as [[]| |]; cbn; auto.
Qed.

(** C1 (the code departs from the claim).  With two acquired handles in
    the registry, [releaseAllLocks] empties the registry, marks both
    handles released and returns, having made no request at all: where
    the claim has two backend deletes issued and awaited, none is. *)
Example releaseAllLocks_deletes_nothing :
  let o := run emptyTable LockClient.releaseAllLocks twoLocksHeld in
  acquiredLocks twoLocksHeld = [("group|id", 0%nat); ("group2|id2", 1%nat)]
  /\ map isAcquired (heap twoLocksHeld) = [true; true]
  /\ result o = Resolved tt
  /\ acquiredLocks (final o) = []
  /\ map isAcquired (heap (final o)) = [false; false]
  /\ timers (final o) = []
  /\ List.filter isDeleteLock (backendCalls (exchanges o)) = []
  /\ exchanges o = [].
Proof. vm_compute. repeat split; reflexivity. Qed.

(** *** The retry counter *)

(** [retryCount] is incremented on entry to [acquireLock] and again on
    entry to [acquireNewLock]: along any run it equals the reads plus
    the creates made so far. *)

Lemma backendCalls_snoc h w rq rp :
  backendCalls (h ++ [mkExchange w rq rp])
  = backendCalls h ++ match rq with
                      | Backend call _ => [call]
                      | WaitMs _ => []
                      end.
Proof.
  unfold backendCalls. rewrite omap_app. cbn. destruct rq; reflexivity.
Qed.

Lemma reads_snoc h w rq rp :
  reads (h ++ [mkExchange w rq rp])
  = (reads h + match rq with
               | Backend (GetLockByGroupAndId _ _) _ => 1
               | _ => 0
               end)%nat.
Proof.
  unfold reads. rewrite backendCalls_snoc, List.filter_app, length_app.
  destruct rq as [[]|]; reflexivity.
Qed.

Lemma creates_snoc h w rq rp :
  creates (h ++ [mkExchange w rq rp])
  = (creates h + match rq with
                 | Backend (CreateNewLock _) _ => 1
                 | _ => 0
                 end)%nat.
Proof.
  unfold creates. rewrite backendCalls_snoc, List.filter_app, length_app.
  destruct rq as [[]|]; reflexivity.
Qed.

Lemma retryCounter_snoc h w rq rp :
  retryCounter (h ++ [mkExchange w rq rp])
  = retryCounter h + match rq with
                     | Backend (GetLockByGroupAndId _ _) _ => 1
                     | Backend (CreateNewLock _) _ => 1
                     | _ => 0
                     end.
Proof.
  unfold retryCounter. rewrite reads_snoc, creates_snoc.
  destruct rq as [[]|]; lia.
Qed.

Section CountSpec.
Variables (l : loc) (L0 : Lock) (w0 : World) (m : Z).
Hypothesis Hacq : isAcquired L0 = false.
Hypothesis Hto : timeoutHandler L0 = None.
Hypothesis Hmax : maxRetryCount L0 = Some m.
Variable self : loc -> Z -> Async loc.
Variable fuel : nat.
Hypothesis IH : forall rc w h,
  pendingAt l L0 w0 w -> rc = retryCounter h -> withinRetries m h ->
  wp (fun _ _ => True) (self l rc w) h (countPost m (rc + Z.of_nat fuel)).

Ltac solve_pending HR HT HN Hl :=
  unfold pendingAt, quiet; world_simpl;
  rewrite ?list_lookup_alter_eq, ?Hl;
  split; [split; [exact HR|split; [exact HT|exact HN]]|];
  eexists _, _; reflexivity.

Ltac count_simpl :=
  unfold countPost, withinRetries in *;
  rewrite ?retryCounter_snoc, ?creates_snoc in *; cbn beta iota.

Ltac count_done := count_simpl; split; [lia|try exact Logic.I; try lia].

Ltac passed_on :=
  intros h' w' [l'| |]; cbn beta iota; wp_steps; auto.

Lemma acquireNewLock_count rc w h :
  pendingAt l L0 w0 w -> rc = retryCounter h -> rc <= m + 1 ->
  wp (fun _ _ => True) (LockClient.acquireNewLock self l rc w) h
    (countPost m (rc + Z.of_nat fuel)).
Proof.
  intros ((HR & HT & HN) & rvn & t & Hl) Hrc Hle.
  unfold LockClient.acquireNewLock. wp_steps.
  unfold DataLayer.createNewLock. deref_with Hl. wp_steps.
  destruct rp as [item|code]; wp_steps.
  - eapply wp_mono;
      [|apply (lockAcquired_spec l L0 w0); [auto|solve_pending HR HT HN Hl]].
    intros h' w' s (-> & -> & Hc). count_done.
  - destruct (isConditionalCheckFailed (AWSError code)).
    + deref_with Hl. wp_steps.
      eapply wp_mono; [|apply IH; [solve_pending HR HT HN Hl| |]].
      * intros h' w' [l'| |]; unfold countPost; cbn beta iota; wp_steps;
          intros [Hw Hs]; (split; [exact Hw|try exact Logic.I; try lia]).
        destruct e; auto.
      * rewrite retryCounter_snoc. lia.
      * count_simpl. lia.
    + wp_steps. count_done.
Qed.

Lemma stealExistingLock_count existing rc w h :
  pendingAt l L0 w0 w -> rc = retryCounter h -> withinRetries m h ->
  wp (fun _ _ => True) (LockClient.stealExistingLock self l existing rc w) h
    (countPost m (rc + Z.of_nat fuel)).
Proof.
  intros ((HR & HT & HN) & rvn & t & Hl) Hrc Hle.
  unfold LockClient.stealExistingLock. wp_steps.
  unfold DataLayer.updateLockWithNewLockContent. deref_with Hl. wp_steps.
  destruct rp as [item|code]; wp_steps.
  - eapply wp_mono;
      [|apply (lockAcquired_spec l L0 w0); [auto|solve_pending HR HT HN Hl]].
    intros h' w' s (-> & -> & Hc). cbn beta iota.
    destruct Hc as (HR' & (L & HL & HLa & HLt) & HT').
    deref_with HL. wp_steps. count_done.
  - destruct (isConditionalCheckFailed (AWSError code)).
    + deref_with Hl. wp_steps.
      eapply wp_mono; [|apply IH; [solve_pending HR HT HN Hl| |]].
      * passed_on.
      * rewrite retryCounter_snoc. lia.
      * count_simpl. lia.
    + wp_steps. count_done.
Qed.

Lemma tryStealingExistingLock_count existing rc w h :
  pendingAt l L0 w0 w -> rc = retryCounter h -> withinRetries m h ->
  wp (fun _ _ => True)
    (LockClient.tryStealingExistingLock self l existing rc w) h
    (countPost m (rc + Z.of_nat fuel)).
Proof.
  intros ((HR & HT & HN) & rvn & t & Hl) Hrc Hle.
  unfold LockClient.tryStealingExistingLock. deref_with Hl.
  cbn [trustLocalTime set_version_and_time waitDurationInMs].
  destruct (trustLocalTime L0); wp_steps.
  - eapply wp_mono; [|apply IH; [solve_pending HR HT HN Hl| |]].
    + passed_on.
    + rewrite retryCounter_snoc. lia.
    + count_simpl. lia.
  - apply stealExistingLock_count;
      [solve_pending HR HT HN Hl|rewrite retryCounter_snoc; lia|count_simpl; lia].
Qed.

Lemma acquireLock_body_count rc w h :
  pendingAt l L0 w0 w -> rc = retryCounter h -> withinRetries m h ->
  wp (fun _ _ => True) (LockClient.acquireLock_body self l rc w) h
    (countPost m (rc + Z.of_nat (S fuel))).
Proof.
  intros ((HR & HT & HN) & rvn & t & Hl) Hrc Hle.
  unfold LockClient.acquireLock_body. deref_with Hl.
  cbn [isAcquired set_version_and_time maxRetryCount lockGroup lockId].
  rewrite Hacq, Hmax.
  destruct (Z.gtb_spec rc m) as [Hgt|Hngt].
  { wp_steps. count_done. }
  unfold DataLayer.getLockByGroupAndId. wp_steps.
  destruct rp as [[attrs|]|code]; wp_steps.
  - rewrite create_acquired. wp_steps. deref_with Hl.
    cbn [trustLocalTime set_version_and_time]. wp_steps.
    destruct (trustLocalTime L0 && Lock.leaseExpirationTimePassed _ _); wp_steps.
    + eapply wp_mono; [|apply stealExistingLock_count;
        [solve_pending HR HT HN Hl|rewrite retryCounter_snoc; lia|count_simpl; lia]].
      intros h' w' [[]| |]; unfold countPost; cbn beta iota; wp_steps;
        intros [Hw Hs]; (split; [exact Hw|try exact Logic.I; try lia]).
      destruct e; auto.
    + eapply wp_mono; [|apply tryStealingExistingLock_count;
        [solve_pending HR HT HN Hl|rewrite retryCounter_snoc; lia|count_simpl; lia]].
      intros h' w' [[]| |]; unfold countPost; cbn beta iota; wp_steps;
        intros [Hw Hs]; (split; [exact Hw|try exact Logic.I; try lia]).
      destruct e; auto.
  - eapply wp_mono; [|apply acquireNewLock_count;
        [solve_pending HR HT HN Hl|rewrite retryCounter_snoc; lia|lia]].
    intros h' w' [[]| |]; unfold countPost; cbn beta iota; wp_steps;
        intros [Hw Hs]; (split; [exact Hw|try exact Logic.I; try lia]).
    destruct e; auto.
  - count_done.
Qed.

End CountSpec.

Lemma acquireLock_count (l : loc) (L0 : Lock) (w0 : World) (m : Z) :
  isAcquired L0 = false -> timeoutHandler L0 = None ->
  maxRetryCount L0 = Some m ->
  forall fuel rc w h,
    pendingAt l L0 w0 w -> rc = retryCounter h -> withinRetries m h ->
    wp (fun _ _ => True) (LockClient.acquireLock fuel l rc w) h
      (countPost m (rc + Z.of_nat fuel)).
Proof.
  intros Hacq Hto Hmax. induction fuel as [|fuel IH]; intros rc w h Hw Hrc Hle.
  - split; [exact Hle|]. cbn. lia.
  - apply (acquireLock_body_count l L0 w0 m); auto.
Qed.

Lemma lock_count fuel lockGroup lockId lockOptions w m :
  opt_maxRetryCount lockOptions = Some m -> 0 <= m ->
  wp (fun _ _ => True) (LockClient.lock fuel lockGroup lockId lockOptions w) []
    (countPost m (Z.of_nat fuel)).
Proof.
  intros Hmax Hm.
  assert (Hstart : withinRetries m []) by (left; change (0 <= m + 1); lia).
  unfold LockClient.lock. wp_steps.
  destruct (Lock.create _ _ _ _ _ _ _) as [created|e] eqn:Hc; wp_steps.
  2: { split; [exact Hstart|].
       apply create_throws_validation_only in Hc as [msg ->]. exact Logic.I. }
  apply create_Normal in Hc.
  eapply wp_mono;
    [|apply acquireLock_count with (L0 := created) (w0 := w) (m := m)].
  - intros h' w' [l| |]; unfold countPost; cbn beta iota; wp_steps; auto.
  - subst created. reflexivity.
  - subst created. reflexivity.
  - subst created. exact Hmax.
  - unfold pendingAt, quiet. world_simpl. split; [auto|].
    exists None, None. rewrite list_lookup_middle by reflexivity.
    subst created. reflexivity.
  - reflexivity.
  - exact Hstart.
Qed.

Lemma lock_counted (env : Environment) fuel lockGroup lockId lockOptions w m :
  opt_maxRetryCount lockOptions = Some m -> 0 <= m ->
  let o := run env (LockClient.lock fuel lockGroup lockId lockOptions) w in
  countPost m (Z.of_nat fuel) (exchanges o) (final o) (result o).
Proof.
  intros Hmax Hm o.
  destruct (wp_run env _ _ w _
              (lock_count fuel lockGroup lockId lockOptions w m Hmax Hm))
    as [H _].
  exact H.
Qed.

(** What the retry counter of [lock] counts, whatever the table answers:
    a call that gives up has made one read for each unit of the counter
    except that each conditional create took a second one. *)
Theorem lock_retry_counter (env : Environment) fuel lockGroup lockId
    lockOptions w m message :
  opt_maxRetryCount lockOptions = Some m -> 0 <= m ->
  let o := run env (LockClient.lock fuel lockGroup lockId lockOptions) w in
  let counter := Z.of_nat (reads (exchanges o) + creates (exchanges o)) in
  result o = Rejected (LockNotGrantedError message) ->
  counter = m + 1 \/ (counter = m + 2 /\ (0 < creates (exchanges o))%nat).
Proof.
  intros Hmax Hm o counter Hr.
  destruct (lock_counted env fuel lockGroup lockId lockOptions w m Hmax Hm)
    as [Hw Hs].
  fold o in Hw, Hs. rewrite Hr in Hs.
  unfold withinRetries, retryCounter in *. subst counter. lia.
Qed.

(** With [maxRetryCount] set, a [lock] call settles, whatever the table
    answers: [acquireLock] is entered at most [maxRetryCount + 3] times. *)
Theorem lock_settles (env : Environment) fuel lockGroup lockId lockOptions w m :
  opt_maxRetryCount lockOptions = Some m -> 0 <= m -> m + 2 < Z.of_nat fuel ->
  result (run env (LockClient.lock fuel lockGroup lockId lockOptions) w)
  <> Unsettled.
Proof.
  intros Hmax Hm Hfuel Hr.
  destruct (lock_counted env fuel lockGroup lockId lockOptions w m Hmax Hm)
    as [Hw Hs].
  rewrite Hr in Hs. unfold withinRetries in Hw. lia.
Qed.

(** With [maxRetryCount] set, a [lock] call makes at most
    [maxRetryCount + 1] reads, and its reads and creates together are at
    most [maxRetryCount + 2], however it ends. *)
Theorem lock_reads_bounded (env : Environment) fuel lockGroup lockId
    lockOptions w m :
  opt_maxRetryCount lockOptions = Some m -> 0 <= m ->
  let o := run env (LockClient.lock fuel lockGroup lockId lockOptions) w in
  Z.of_nat (reads (exchanges o)) <= m + 1
  /\ Z.of_nat (reads (exchanges o) + creates (exchanges o)) <= m + 2.
Proof.
  intros Hmax Hm o.
  destruct (lock_counted env fuel lockGroup lockId lockOptions w m Hmax Hm)
    as [Hw _].
  fold o in Hw. unfold withinRetries, retryCounter in Hw. lia.
Qed.

Lemma lock_attempts_without_create (env : Environment) fuel lockGroup lockId
    lockOptions w m message :
  opt_maxRetryCount lockOptions = Some m -> 0 <= m ->
  let o := run env (LockClient.lock fuel lockGroup lockId lockOptions) w in
  result o = Rejected (LockNotGrantedError message) ->
  creates (exchanges o) = 0%nat ->
  Z.of_nat (reads (exchanges o)) = m + 1.
Proof.
  intros Hmax Hm o Hr Hc.
  destruct (lock_counted env fuel lockGroup lockId lockOptions w m Hmax Hm)
    as [Hw Hs].
  fold o in Hw, Hs. rewrite Hr in Hs.
  unfold withinRetries, retryCounter in *. lia.
Qed.

(** C6 (the code departs from the claim).  With [maxRetryCount = 1] the
    claim allows two attempts.  When the single read finds no record and
    the create then fails its condition, [acquireNewLock] has counted the
    attempt a second time: the call gives up with [LockNotGrantedError]
    after one read.  When instead every read finds a record and every
    steal fails its condition, the same call makes its two attempts. *)
Example retry_counter_counts_failed_create_twice :
  let gaveUp :=
    Rejected (LockNotGrantedError
                "group|id could not be acquired after retrying for 1 times.") in
  let created :=
    run lostRace (LockClient.lock 10 "group" "id" oneRetry) (world exampleClient) in
  let stolen :=
    run heldByOther (LockClient.lock 10 "group" "id" oneRetry) (world exampleClient) in
  (result created = gaveUp /\ reads (exchanges created) = 1%nat)
  /\ (result stolen = gaveUp /\ reads (exchanges stolen) = 2%nat).
Proof. vm_compute. repeat split; reflexivity. Qed.

(** *** The prolongation callback *)

Lemma onTimeout_spec (c : TimerClosure) (l : loc) (L : Lock) (w : World) h :
  tc_lock c = Some l -> heap w !! l = Some L -> isAcquired L = true ->
  wp (fun _ _ => True) (LockClient.onTimeout c w) h
    (fun h' w' s => exists x, h' = h ++ [x] /\ renewalResult c l w x w' s).
Proof.
  intros Hc Hl Hacq. unfold LockClient.onTimeout, renewalResult. rewrite Hc.
  deref_with Hl. rewrite Hacq. cbn [negb].
  unfold LockClient.prolongLease. wp_steps.
  unfold DataLayer.updateRecordVersionNumberAndTime. deref_with Hl. wp_steps.
  destruct rp as [item|code]; wp_steps.
  - deref_with Hl. wp_steps.
    unfold LockClient.startProlongingLease. wp_steps.
    destruct (obj_get (tc_lockIdentifier c) (acquiredLocks w)) as [l'|];
      wp_steps;
      (eexists; split; [reflexivity|]; split; [eauto|]; cbn [answer];
       split; reflexivity).
  - eexists. split; [reflexivity|]. split; [eauto|]. cbn [answer].
    repeat split; reflexivity.
Qed.

(** C3 (the code departs from the claim).  The timeout of an acquired
    handle fires and the renewal it sends is rejected by the backend, for
    instance with [ConditionalCheckFailedException]: the callback has no
    handler for it, so its promise is rejected with that very error;
    nothing is logged, in particular no warning, and no further timeout
    is armed. *)
Theorem renewal_failure_is_not_handled (env : Environment) (c : TimerClosure)
    (lock : loc) (L : Lock) (w : World) :
  tc_lock c = Some lock -> heap w !! lock = Some L -> isAcquired L = true ->
  let o := run env (LockClient.onTimeout c) w in
  exists x,
    exchanges o = [x]
    /\ (exists rvn when doc,
          request x
          = Backend (UpdateRecordVersionNumberAndTime lock rvn when) doc)
    /\ forall code,
         answer x = Rejects code ->
         result o = Rejected (AWSError code)
         /\ logged (final o) = logged w
         /\ timers (final o) = timers w.
Proof.
  intros Hc Hl Hacq o.
  destruct (wp_run env _ _ w _ (onTimeout_spec c lock L w [] Hc Hl Hacq))
    as [(x & Hx & Hreq & Hres) _].
  fold o in Hx, Hres. exists x. split; [exact Hx|]. split; [exact Hreq|].
  intros code Hcode. rewrite Hcode in Hres.
  destruct Hres as (? & ? & ? & ?). auto.
Qed.

(** The same on a whole execution: [lock] on an empty table, then the
    timeout fires and its renewal fails the condition.  The callback
    ends rejected, the log holds no warning and no timeout is left. *)
Example renewal_conditional_failure_scenario :
  match execute [CallLock 3 "group" "id" noOptions;
                 Settle 0 (Resolves None); Settle 0 (Resolves None);
                 Fire 0; Settle 0 conditionalCheckFailed] exampleClient with
  | Some (c, events) =>
      last events = Some (Finished FromTimeout false)
      /\ List.filter isWarning (logged (world c)) = []
      /\ timers (world c) = []
      /\ length (pool c) = 0%nat
  | None => False
  end.
Proof. vm_compute. repeat split; reflexivity. Qed.

(** ** Interleaved executions *)

(** *** Code that cannot renew a released lock *)

Section Tame.
Variable H : loc.

Lemma calm_bind_run {A B} (r : Run A) (f : A -> Async B) w0 :
  calm H w0 r -> (forall a w, calm H w (f a w)) -> calm H w0 (bind_run r f).
Proof.
  intros Hr Hf Hu. destruct (Hr Hu) as [Hu' Hq].
  destruct r as [w [a|e|]|w rq k]; cbn in *; auto.
  apply Hf, Hu'.
Qed.

Lemma harmless_bind_run {A B} (r : Run A) (f : A -> Async B) :
  harmless H r -> (forall a, tame H (f a)) -> harmless H (bind_run r f).
Proof.
  intros Hr Hf. induction r as [w s|w rq k IH]; cbn.
  - destruct s as [a|e|]; try exact Logic.I. apply Hf.
  - intros rp w'. destruct (Hr rp w') as [Hh Hc]. split.
    + apply IH, Hh.
    + apply calm_bind_run; [exact Hc|]. intros a w1. apply Hf.
Qed.

Lemma calm_catch_run {A} (r : Run A) (f : Error -> Async A) w0 :
  calm H w0 r -> (forall e w, calm H w (f e w)) -> calm H w0 (catch_run r f).
Proof.
  intros Hr Hf Hu. destruct (Hr Hu) as [Hu' Hq].
  destruct r as [w [a|e|]|w rq k]; cbn in *; auto.
  apply Hf, Hu'.
Qed.

Lemma harmless_catch_run {A} (r : Run A) (f : Error -> Async A) :
  harmless H r -> (forall e, tame H (f e)) -> harmless H (catch_run r f).
Proof.
  intros Hr Hf. induction r as [w s|w rq k IH]; cbn.
  - destruct s as [a|e|]; try exact Logic.I. apply Hf.
  - intros rp w'. destruct (Hr rp w') as [Hh Hc]. split.
    + apply IH, Hh.
    + apply calm_catch_run; [exact Hc|]. intros a w1. apply Hf.
Qed.

Lemma tame_bind {A B} (m : Async A) (f : A -> Async B) :
  tame H m -> (forall a, tame H (f a)) -> tame H (m ≫= f).
Proof.
  intros Hm Hf w. destruct (Hm w) as [Hh Hc]. split.
  - apply harmless_bind_run; assumption.
  - apply calm_bind_run; [exact Hc|]. intros a w1. apply Hf.
Qed.

Lemma tame_try_catch {A} (m : Async A) (f : Error -> Async A) :
  tame H m -> (forall e, tame H (f e)) -> tame H (try_catch m f).
Proof.
  intros Hm Hf w. destruct (Hm w) as [Hh Hc]. split.
  - apply harmless_catch_run; assumption.
  - apply calm_catch_run; [exact Hc|]. intros a w1. apply Hf.
Qed.

(** Synchronous code that keeps [H] unacquired. *)
Lemma tame_sync {A} (m : Async A) :
  (forall w, exists w' s, m w = Done w' s
                          /\ (unacquired H w -> unacquired H w')) ->
  tame H m.
Proof.
  intros Hm w. destruct (Hm w) as (w' & s & -> & Hu).
  split; [exact Logic.I|]. intros Hw. split; [apply Hu, Hw|exact Logic.I].
Qed.

Lemma tame_ret {A} (a : A) : tame H (ret a).
Proof. apply tame_sync. intros w. exists w, (Resolved a). auto. Qed.

Lemma tame_throw {A} (e : Error) : tame H (@throw A e).
Proof. apply tame_sync. intros w. exists w, (Rejected e). auto. Qed.

Lemma tame_stuck {A} : tame H (@stuck A).
Proof. apply tame_sync. intros w. exists w, Unsettled. auto. Qed.

Lemma tame_gets {A} (g : World -> A) : tame H (gets g).
Proof. apply tame_sync. intros w. exists w, (Resolved (g w)). auto. Qed.

Lemma tame_lift {A} (c : Completion A) : tame H (lift c).
Proof. destruct c; [apply tame_ret|apply tame_throw]. Qed.

Lemma tame_modify (g : World -> World) :
  (forall w, unacquired H w -> unacquired H (g w)) -> tame H (modify g).
Proof.
  intros Hg. apply tame_sync. intros w. exists (g w), (Resolved tt). auto.
Qed.

Lemma tame_deref (l : loc) : tame H (deref l).
Proof.
  apply tame_sync. intros w. unfold deref.
  destruct (heap w !! l); eauto.
Qed.

Lemma tame_await (rq : Request) :
  renewalRequest H rq = false -> tame H (await rq).
Proof.
  intros Hq w. split.
  - intros rp w'. split; [exact Logic.I|]. intros Hu. auto.
  - intros Hu. auto.
Qed.

Lemma tame_log sev msg : tame H (LockClient.log sev msg).
Proof. apply tame_modify. auto. Qed.

Lemma tame_generateUUID : tame H LockClient.generateUUID.
Proof. apply tame_sync. intros w. eexists _, _. split; [reflexivity|auto]. Qed.

Lemma tame_Date_now : tame H Date_now.
Proof. apply tame_gets. Qed.

Lemma tame_setTimeout c : tame H (setTimeout c).
Proof. apply tame_sync. intros w. eexists _, _. split; [reflexivity|auto]. Qed.

Lemma tame_clearTimeout h : tame H (clearTimeout h).
Proof. apply tame_modify. auto. Qed.

Lemma unacquired_alter (l : loc) (g : Lock -> Lock) (w : World) :
  (l <> H \/ forall L, isAcquired (g L) = false \/ isAcquired (g L) = isAcquired L) ->
  unacquired H w -> unacquired H (with_heap (alter g l (heap w)) w).
Proof.
  intros Hg (L & HL & Ha). unfold unacquired. cbn [heap with_heap].
  destruct (Nat.eq_dec l H) as [->|Hne].
  - rewrite list_lookup_alter_eq, HL. eexists. split; [reflexivity|].
    destruct Hg as [Hg|Hg]; [contradiction|].
    destruct (Hg L) as [Hf|Hf]; congruence.
  - rewrite list_lookup_alter_ne by exact Hne. eauto.
Qed.

Lemma tame_update (l : loc) (g : Lock -> Lock) :
  (l <> H \/ forall L, isAcquired (g L) = false \/ isAcquired (g L) = isAcquired L) ->
  tame H (update l g).
Proof. intros Hg. apply tame_modify. intros w. apply unacquired_alter, Hg. Qed.

Lemma tame_waitMs ms : tame H (LockClient.waitMs ms).
Proof.
  apply tame_bind; [apply tame_await; reflexivity|intros _; apply tame_ret].
Qed.

Lemma tame_for_of {A} (ls : list A) (body : A -> Async unit) :
  (forall x, tame H (body x)) -> tame H (for_of ls body).
Proof.
  intros Hb. induction ls as [|x ls IH]; cbn [for_of].
  - apply tame_ret.
  - apply tame_bind; [apply Hb|intros _; exact IH].
Qed.

Lemma tame_harmlessly {A} (m : Async A) : tame H m -> harmlessly H m.
Proof. intros Hm w. apply Hm. Qed.

Lemma harmlessly_await (rq : Request) : harmlessly H (await rq).
Proof.
  intros w rp w'. split; [exact Logic.I|]. intros Hu. auto.
Qed.

Lemma harmlessly_bind {A B} (m : Async A) (f : A -> Async B) :
  harmlessly H m -> (forall a, tame H (f a)) -> harmlessly H (m ≫= f).
Proof. intros Hm Hf w. apply harmless_bind_run; [apply Hm|exact Hf]. Qed.

Lemma harmlessly_bind_sync {A B} (m : Async A) (f : A -> Async B) :
  synchronous m -> (forall a, harmlessly H (f a)) -> harmlessly H (m ≫= f).
Proof.
  intros Hm Hf w. unfold mbind, Async_bind, bind.
  destruct (Hm w) as (w' & s & ->). destruct s as [a|e|]; cbn; auto.
  apply Hf.
Qed.

End Tame.

Lemma synchronous_gets {A} (g : World -> A) : synchronous (gets g).
Proof. intros w. eexists _, _. reflexivity. Qed.

Lemma synchronous_generateUUID : synchronous LockClient.generateUUID.
Proof. intros w. eexists _, _. reflexivity. Qed.

Lemma synchronous_deref (l : loc) : synchronous (deref l).
Proof. intros w. unfold deref. destruct (heap w !! l); eauto. Qed.

Ltac tame_step :=
  lazymatch goal with
  | |- tame _ (_ ≫= _) => apply tame_bind; [|intros ?]
  | |- tame _ (try_catch _ _) => apply tame_try_catch; [|intros ?]
  | |- tame _ (ret _) => apply tame_ret
  | |- tame _ (throw _) => apply tame_throw
  | |- tame _ stuck => apply tame_stuck
  | |- tame _ (gets _) => apply tame_gets
  | |- tame _ (lift _) => apply tame_lift
  | |- tame _ (deref _) => apply tame_deref
  | |- tame _ (LockClient.log _ _) => apply tame_log
  | |- tame _ LockClient.generateUUID => apply tame_generateUUID
  | |- tame _ Date_now => apply tame_Date_now
  | |- tame _ (setTimeout _) => apply tame_setTimeout
  | |- tame _ (clearTimeout _) => apply tame_clearTimeout
  | |- tame _ (LockClient.waitMs _) => apply tame_waitMs
  | |- tame _ (await _) => apply tame_await
  | |- tame _ (update _ _) => apply tame_update
  | |- tame _ (modify _) => apply tame_modify; intros ? Hu; exact Hu
  | |- tame _ (DataLayer.send _ _) => unfold DataLayer.send
  | |- tame _ (if ?c then _ else _) => destruct c
  | |- tame _ (match ?x with Some _ => _ | None => _ end) => destruct x
  | |- tame _ (match ?x with Resolves _ => _ | Rejects _ => _ end) => destruct x
  | |- tame _ (let '(_, _) := ?x in _) => destruct x
  end.

Ltac tame_auto := repeat tame_step.

Section TamePrograms.
Variable H : loc.

Lemma tame_getLockByGroupAndId g i : tame H (DataLayer.getLockByGroupAndId g i).
Proof. unfold DataLayer.getLockByGroupAndId. tame_auto. reflexivity. Qed.

Lemma tame_createNewLock l : tame H (DataLayer.createNewLock l).
Proof. unfold DataLayer.createNewLock. tame_auto. reflexivity. Qed.

Lemma tame_updateLockWithNewLockContent ex l :
  tame H (DataLayer.updateLockWithNewLockContent ex l).
Proof. unfold DataLayer.updateLockWithNewLockContent. tame_auto. reflexivity. Qed.

Lemma tame_deleteLock l : tame H (DataLayer.deleteLock l).
Proof. unfold DataLayer.deleteLock. tame_auto. reflexivity. Qed.

Lemma tame_updateRecordVersionNumberAndTime l rvn when :
  l <> H -> tame H (DataLayer.updateRecordVersionNumberAndTime l rvn when).
Proof.
  intros Hne. unfold DataLayer.updateRecordVersionNumberAndTime. tame_auto.
  cbn. apply Nat.eqb_neq, Hne.
Qed.

Lemma harmlessly_updateRecordVersionNumberAndTime l rvn when :
  harmlessly H (DataLayer.updateRecordVersionNumberAndTime l rvn when).
Proof.
  unfold DataLayer.updateRecordVersionNumberAndTime.
  apply harmlessly_bind_sync; [apply synchronous_gets|intros config].
  apply harmlessly_bind_sync; [apply synchronous_gets|intros now].
  apply harmlessly_bind_sync; [apply synchronous_deref|intros existing].
  apply harmlessly_bind; [|intros _; apply tame_ret].
  unfold DataLayer.send.
  apply harmlessly_bind; [apply harmlessly_await|intros rp]. tame_auto.
Qed.

Lemma tame_startProlongingLease uid every :
  tame H (LockClient.startProlongingLease uid every).
Proof.
  unfold LockClient.startProlongingLease. tame_auto.
  right. intros L. right. reflexivity.
Qed.

Lemma tame_lockAcquired l : l <> H -> tame H (LockClient.lockAcquired l).
Proof.
  intros Hne. unfold LockClient.lockAcquired. tame_auto.
  - left. exact Hne.
  - apply tame_startProlongingLease.
Qed.

Lemma tame_prolongLease_tail l rvn now :
  tame H (update l (Lock.prolonged rvn now) ;;
          this ← deref l;
          LockClient.log SevInfo ("Lease prolonged/renewed for: "
                                  +:+ Lock.getUniqueLockIdentifier this)).
Proof. tame_auto. right. intros L. right. reflexivity. Qed.

Lemma tame_prolongLease l : l <> H -> tame H (LockClient.prolongLease l).
Proof.
  intros Hne. unfold LockClient.prolongLease. tame_auto.
  - apply tame_updateRecordVersionNumberAndTime, Hne.
  - right. intros L. right. reflexivity.
Qed.

Lemma harmlessly_prolongLease l : harmlessly H (LockClient.prolongLease l).
Proof.
  unfold LockClient.prolongLease.
  apply harmlessly_bind_sync; [apply synchronous_generateUUID|intros rvn].
  apply harmlessly_bind_sync; [apply synchronous_gets|intros now].
  apply harmlessly_bind;
    [apply harmlessly_updateRecordVersionNumberAndTime|intros _].
  apply tame_prolongLease_tail.
Qed.

Lemma tame_Lock_released l : tame H (Lock_released l).
Proof.
  unfold Lock_released. apply tame_bind; [apply tame_deref|intros this].
  unfold Lock.released. cbn [timeoutHandler set_isAcquired].
  destruct (timeoutHandler this); tame_auto; right; intros L; left; reflexivity.
Qed.

Lemma tame_releaseLock l : tame H (LockClient.releaseLock l).
Proof.
  unfold LockClient.releaseLock. tame_auto.
  - apply tame_Lock_released.
  - apply tame_deleteLock.
Qed.

Lemma tame_releaseAllLocks : tame H LockClient.releaseAllLocks.
Proof.
  unfold LockClient.releaseAllLocks. tame_auto.
  apply tame_for_of. intros l. apply tame_Lock_released.
Qed.

Section Acquire.
Variable l : loc.
Hypothesis Hne : l <> H.
Variable self : loc -> Z -> Async loc.
Hypothesis IH : forall rc, tame H (self l rc).

Lemma tame_acquireNewLock rc : tame H (LockClient.acquireNewLock self l rc).
Proof.
  unfold LockClient.acquireNewLock. tame_auto; try apply IH.
  - right. intros L. right. reflexivity.
  - apply tame_createNewLock.
  - apply tame_lockAcquired, Hne.
  - right. intros L. right. reflexivity.
Qed.

Lemma tame_stealExistingLock ex rc :
  tame H (LockClient.stealExistingLock self l ex rc).
Proof.
  unfold LockClient.stealExistingLock. tame_auto; try apply IH.
  - right. intros L. right. reflexivity.
  - apply tame_updateLockWithNewLockContent.
  - apply tame_lockAcquired, Hne.
  - right. intros L. right. reflexivity.
Qed.

Lemma tame_tryStealingExistingLock ex rc :
  tame H (LockClient.tryStealingExistingLock self l ex rc).
Proof.
  unfold LockClient.tryStealingExistingLock. tame_auto; try apply IH.
  apply tame_stealExistingLock.
Qed.

Lemma tame_acquireLock_body rc : tame H (LockClient.acquireLock_body self l rc).
Proof.
  unfold LockClient.acquireLock_body. tame_auto.
  - apply tame_getLockByGroupAndId.
  - apply tame_stealExistingLock.
  - apply tame_tryStealingExistingLock.
  - apply tame_acquireNewLock.
Qed.

End Acquire.

Lemma tame_acquireLock fuel l rc :
  l <> H -> tame H (LockClient.acquireLock fuel l rc).
Proof.
  intros Hne. revert rc. induction fuel as [|fuel IH]; intros rc.
  - apply tame_stuck.
  - apply tame_acquireLock_body; assumption.
Qed.

End TamePrograms.

Section TameCallbacks.
Variable H : loc.

Lemma tame_onTimeout (c : TimerClosure) : tame H (LockClient.onTimeout c).
Proof.
  unfold LockClient.onTimeout. destruct (tc_lock c) as [l|]; [|apply tame_ret].
  destruct (Nat.eq_dec l H) as [->|Hne].
  - intros w. split.
    + apply harmlessly_bind_sync; [apply synchronous_deref|intros this].
      destruct (negb (isAcquired this)); [apply tame_harmlessly, tame_ret|].
      apply harmlessly_bind; [apply harmlessly_prolongLease|intros _].
      apply tame_startProlongingLease.
    + intros Hu. destruct Hu as (L & HL & Ha).
      unfold mbind, Async_bind, bind, deref. rewrite HL. cbn [bind_run].
      rewrite Ha. cbn. split; [exists L; auto|exact Logic.I].
  - tame_auto.
    + apply tame_prolongLease, Hne.
    + apply tame_startProlongingLease.
Qed.

Lemma unacquired_alloc (L : Lock) (w : World) :
  unacquired H w -> unacquired H (with_heap (heap w ++ [L]) w).
Proof.
  intros (L0 & HL & Ha). exists L0. split; [|exact Ha].
  cbn [heap with_heap]. apply lookup_app_l_Some, HL.
Qed.

Lemma lock_elsewhere fuel lockGroup lockId lockOptions (w : World) :
  H <> length (heap w) ->
  harmless H (forget (LockClient.lock fuel lockGroup lockId lockOptions w))
  /\ calm H w (forget (LockClient.lock fuel lockGroup lockId lockOptions w)).
Proof.
  intros Hne. unfold forget, LockClient.lock, mbind, Async_bind, bind.
  cbn [gets bind_run].
  destruct (Lock.create _ _ _ _ _ _ _) as [created|e]; cbn [lift ret throw bind_run].
  2: { split; [exact Logic.I|]. intros Hu. auto. }
  cbn [alloc bind_run].
  set (l := length (heap w)). set (w1 := with_heap (heap w ++ [created]) w).
  assert (Ht : tame H (LockClient.log SevInfo
                         ("Trying to acquire lock for: "
                          +:+ Lock.getUniqueLockIdentifier created) ;;
                       LockClient.acquireLock fuel l 0 ;; ret l)).
  { tame_auto. apply tame_acquireLock. unfold l. auto. }
  destruct (Ht w1) as [Hh Hc]. split.
  - apply harmless_bind_run; [exact Hh|]. intros _. apply tame_ret.
  - apply calm_bind_run.
    + intros Hu. apply Hc, unacquired_alloc, Hu.
    + intros a w'. apply tame_ret.
Qed.

End TameCallbacks.

(** *** Steps of an interleaved execution *)

Lemma park_events H o (r : Run unit) others c evs :
  park o r others = (c, evs) ->
  (match r with Await _ rq _ => renewalRequest H rq = false | _ => True end) ->
  Forall (fun e => isRenewalOf H e = false) evs.
Proof.
  destruct r as [w s|w rq k]; cbn; intros Hp Hq; injection Hp as <- <-;
    repeat constructor. exact Hq.
Qed.

Lemma park_safe H o (r : Run unit) others c evs w :
  park o r others = (c, evs) ->
  harmless H r -> calm H w r -> unacquired H w ->
  Forall (taskSafe H) others ->
  safeFor H c /\ Forall (fun e => isRenewalOf H e = false) evs.
Proof.
  intros Hp Hh Hc Hu Ho. destruct (Hc Hu) as [Hu' Hq].
  split; [|eapply park_events; eauto].
  destruct r as [w' s|w' rq k]; cbn in Hp; injection Hp as <- <-.
  - split; assumption.
  - split; [exact Hu'|]. apply Forall_app. split; [exact Ho|].
    constructor; [|constructor]. exact Hh.
Qed.

Lemma park_wellFormed o (r : Run unit) others c evs :
  park o r others = (c, evs) ->
  (forall H, match o with FromLock l => Nat.eqb l H | _ => false end = false ->
             harmless H r) ->
  wellFormed (mkConfig (stateOf r) others) ->
  wellFormed c.
Proof.
  intros Hp Hh Ho. unfold wellFormed in *. cbn [pool] in Ho.
  destruct r as [w' s|w' rq k]; cbn in Hp; injection Hp as <- <-; cbn [pool].
  - exact Ho.
  - apply Forall_app. split; [exact Ho|]. constructor; [|constructor].
    intros H Hown. apply (Hh H). exact Hown.
Qed.

Lemma called_inv a x c evs :
  called a x = Some (c, evs) -> c = fst x /\ evs = Called a :: snd x.
Proof. unfold called. intros Hc. injection Hc as <- <-. auto. Qed.

Lemma step_wellFormed a c c' evs :
  wellFormed c -> step a c = Some (c', evs) -> wellFormed c'.
Proof.
  intros Hwf Hs. destruct a as [fuel g i opts|l| |n rp|h|now]; cbn [step] in Hs.
  - apply called_inv in Hs as [-> _].
    destruct (park _ _ _) as [c1 e1] eqn:Hp. cbn [fst].
    eapply park_wellFormed; [exact Hp| |exact Hwf].
    intros H Hne. apply lock_elsewhere.
    apply Nat.eqb_neq in Hne. auto.
  - destruct (releasable l c); [|discriminate].
    apply called_inv in Hs as [-> _].
    destruct (park _ _ _) as [c1 e1] eqn:Hp. cbn [fst].
    eapply park_wellFormed; [exact Hp| |exact Hwf].
    intros H _. apply tame_releaseLock.
  - apply called_inv in Hs as [-> _].
    destruct (park _ _ _) as [c1 e1] eqn:Hp. cbn [fst].
    eapply park_wellFormed; [exact Hp| |exact Hwf].
    intros H _. apply tame_releaseAllLocks.
  - destruct (pool c !! n) as [t|] eqn:Ht; [|discriminate].
    injection Hs as Hs.
    eapply park_wellFormed; [exact Hs| |].
    + intros H Hown. unfold wellFormed in Hwf.
      rewrite Forall_lookup in Hwf. apply (Hwf _ _ Ht H). exact Hown.
    + unfold wellFormed in *. cbn [pool]. apply Forall_delete, Hwf.
  - destruct (timer_lookup h (timers (world c))) as [cb|]; [|discriminate].
    injection Hs as Hs.
    eapply park_wellFormed; [exact Hs| |exact Hwf].
    intros H _. apply tame_onTimeout.
  - injection Hs as <- _. exact Hwf.
Qed.

Lemma step_safeFor H a c c' evs :
  safeFor H c -> step a c = Some (c', evs) ->
  safeFor H c' /\ Forall (fun e => isRenewalOf H e = false) evs.
Proof.
  intros [Hu Hpool] Hs.
  destruct a as [fuel g i opts|l| |n rp|h|now]; cbn [step] in Hs.
  - apply called_inv in Hs as [-> ->].
    destruct (park _ _ _) as [c1 e1] eqn:Hp. cbn [fst snd].
    assert (Hne : H <> length (heap (world c))).
    { destruct Hu as (L & HL & _). apply lookup_lt_Some in HL. lia. }
    destruct (lock_elsewhere H fuel g i opts (world c) Hne) as [Hh Hc].
    destruct (park_safe H _ _ _ _ _ _ Hp Hh Hc Hu Hpool) as [Hsafe Hev].
    split; [exact Hsafe|]. constructor; [reflexivity|exact Hev].
  - destruct (releasable l c); [|discriminate].
    apply called_inv in Hs as [-> ->].
    destruct (park _ _ _) as [c1 e1] eqn:Hp. cbn [fst snd].
    destruct (tame_releaseLock H l (world c)) as [Hh Hc].
    destruct (park_safe H _ _ _ _ _ _ Hp Hh Hc Hu Hpool) as [Hsafe Hev].
    split; [exact Hsafe|]. constructor; [reflexivity|exact Hev].
  - apply called_inv in Hs as [-> ->].
    destruct (park _ _ _) as [c1 e1] eqn:Hp. cbn [fst snd].
    destruct (tame_releaseAllLocks H (world c)) as [Hh Hc].
    destruct (park_safe H _ _ _ _ _ _ Hp Hh Hc Hu Hpool) as [Hsafe Hev].
    split; [exact Hsafe|]. constructor; [reflexivity|exact Hev].
  - destruct (pool c !! n) as [t|] eqn:Ht; [|discriminate].
    injection Hs as Hs.
    rewrite Forall_lookup in Hpool. destruct (Hpool _ _ Ht rp (world c)) as [Hh Hc].
    eapply park_safe; [exact Hs|exact Hh|exact Hc|exact Hu|].
    apply Forall_delete. rewrite Forall_lookup. exact Hpool.
  - destruct (timer_lookup h (timers (world c))) as [cb|]; [|discriminate].
    injection Hs as Hs.
    match type of Hs with park _ (_ ?w1) _ = _ =>
      destruct (tame_onTimeout H cb w1) as [Hh Hc];
      eapply park_safe; [exact Hs|exact Hh|exact Hc|exact Hu|exact Hpool]
    end.
  - injection Hs as <- <-. split; [|constructor]. split; [exact Hu|exact Hpool].
Qed.

Lemma releasable_spec (H : loc) (c : Config) :
  releasable H c = true ->
  (exists L, heap (world c) !! H = Some L)
  /\ Forall (fun t => ownedBy H t = false) (pool c).
Proof.
  unfold releasable. intros Hr. apply andb_prop in Hr as [Hlt Hown]. split.
  - apply Nat.ltb_lt in Hlt. apply lookup_lt_is_Some in Hlt. exact Hlt.
  - apply negb_true_iff in Hown. apply Forall_forall. intros t Ht.
    destruct (ownedBy H t) eqn:Ho; [|reflexivity].
    assert (existsb (ownedBy H) (pool c) = true); [|congruence].
    apply existsb_exists. exists t. split; [|exact Ho].
    apply list_elem_of_In, Ht.
Qed.

(** The step that calls [releaseLock] on [H] leaves [H] unacquired and
    every suspended computation safe for it. *)
Lemma release_step_safeFor (H : loc) (c c' : Config) (evs : list Event) :
  wellFormed c -> step (CallReleaseLock H) c = Some (c', evs) ->
  safeFor H c'
  /\ exists later, evs = Called (CallReleaseLock H) :: later
                   /\ Forall (fun e => isRenewalOf H e = false) later.
Proof.
  intros Hwf Hs. cbn [step] in Hs.
  destruct (releasable H c) eqn:Hrel; [|discriminate].
  apply releasable_spec in Hrel as [[L HL] Hown].
  apply called_inv in Hs as [-> ->].
  assert (Hpool : Forall (taskSafe H) (pool c)).
  { unfold wellFormed in Hwf. rewrite Forall_forall in Hwf, Hown.
    apply Forall_forall. intros t Ht. apply Hwf; auto. }
  pose proof (releaseLock_spec H L (world c) [] HL) as Hwp.
  destruct (tame_releaseLock H H (world c)) as [Hh _].
  destruct (LockClient.releaseLock H (world c)) as [w' s|w1 rq k]; cbn in *.
  - destruct Hwp as (x & Hx & _). destruct x; discriminate.
  - destruct Hwp as [[((L1 & HL1 & Ha & _) & _) [doc ->]] _].
    split; [split|].
    + exists L1. auto.
    + apply Forall_app. split; [exact Hpool|]. constructor; [|constructor].
      exact Hh.
    + eexists. split; [reflexivity|]. repeat constructor.
Qed.

Lemma execute_app (xs ys : list Action) (c : Config) :
  execute (xs ++ ys) c
  = match execute xs c with
    | Some (c1, e1) =>
        match execute ys c1 with
        | Some (c2, e2) => Some (c2, e1 ++ e2)
        | None => None
        end
    | None => None
    end.
Proof.
  revert c. induction xs as [|a xs IH]; intros c; cbn [execute app].
  - destruct (execute ys c) as [[c2 e2]|]; reflexivity.
  - destruct (step a c) as [[c1 e1]|]; [|reflexivity].
    rewrite IH. destruct (execute xs c1) as [[c2 e2]|]; [|reflexivity].
    destruct (execute ys c2) as [[c3 e3]|]; [|reflexivity].
    rewrite app_assoc. reflexivity.
Qed.

Lemma execute_wellFormed (actions : list Action) (c c' : Config) evs :
  wellFormed c -> execute actions c = Some (c', evs) -> wellFormed c'.
Proof.
  revert c evs. induction actions as [|a actions IH]; intros c evs Hwf He;
    cbn [execute] in He.
  - injection He as <- _. exact Hwf.
  - destruct (step a c) as [[c1 e1]|] eqn:Hs; [|discriminate].
    destruct (execute actions c1) as [[c2 e2]|] eqn:He2; [|discriminate].
    injection He as <- _. eapply IH; [|exact He2].
    eapply step_wellFormed; eauto.
Qed.

Lemma execute_safeFor (H : loc) (actions : list Action) (c c' : Config) evs :
  safeFor H c -> execute actions c = Some (c', evs) ->
  safeFor H c' /\ Forall (fun e => isRenewalOf H e = false) evs.
Proof.
  revert c evs. induction actions as [|a actions IH]; intros c evs Hsafe He;
    cbn [execute] in He.
  - injection He as <- <-. split; [exact Hsafe|constructor].
  - destruct (step a c) as [[c1 e1]|] eqn:Hs; [|discriminate].
    destruct (execute actions c1) as [[c2 e2]|] eqn:He2; [|discriminate].
    injection He as <- <-.
    destruct (step_safeFor H a c c1 e1 Hsafe Hs) as [Hsafe1 Hev1].
    destruct (IH c1 e2 Hsafe1 He2) as [Hsafe2 Hev2].
    split; [exact Hsafe2|]. apply Forall_app. auto.
Qed.

Lemma newClient_wellFormed ownerName config logCallback uuids now :
  wellFormed (newClient ownerName config logCallback uuids now).
Proof. constructor. Qed.

(** C9.  Take any execution of a client from its construction: calls
    of [lock], [releaseLock] and [releaseAllLocks] started at any time,
    awaited promises settling in any order and in any way, timeouts
    firing at any time.  From the moment [releaseLock] is called on a
    handle (a fortiori after that call has returned) no renewal write
    for that handle is requested; the handle stays unacquired, which is
    what the callback of any timeout still to fire checks before it
    writes. *)
Theorem no_renewal_once_releaseLock_is_called
    (ownerName : string) (config : LockTableConfig) (logCallback : bool)
    (uuids : nat -> string) (now : Z)
    (before after : list Action) (handle : loc)
    (c : Config) (events : list Event) :
  execute (before ++ CallReleaseLock handle :: after)
    (newClient ownerName config logCallback uuids now) = Some (c, events) ->
  exists earlier later,
    events = earlier ++ Called (CallReleaseLock handle) :: later
    /\ Forall (fun e => isRenewalOf handle e = false) later
    /\ unacquired handle (world c).
Proof.
  intros He. rewrite execute_app in He.
  destruct (execute before _) as [[c1 e1]|] eqn:Hb; [|discriminate].
  cbn [execute] in He.
  destruct (step (CallReleaseLock handle) c1) as [[c2 e2]|] eqn:Hs;
    [|discriminate].
  destruct (execute after c2) as [[c3 e3]|] eqn:Ha; [|discriminate].
  injection He as <- <-.
  assert (Hwf : wellFormed c1).
  { eapply execute_wellFormed; [apply newClient_wellFormed|exact Hb]. }
  destruct (release_step_safeFor handle c1 c2 e2 Hwf Hs)
    as [Hsafe (later & -> & Hlater)].
  destruct (execute_safeFor handle after c2 c3 e3 Hsafe Ha) as [[Hu _] Hev].
  exists e1, (later ++ e3). split; [|split].
  - rewrite <- app_comm_cons. reflexivity.
  - apply Forall_app. auto.
  - exact Hu.
Qed.

(** ** The table descriptor and the requests built for it *)

(** ** The table descriptor *)

Lemma includes_In (l : list string) (s : string) :
  includes l s = true <-> In s l.
Proof.
  unfold includes. rewrite existsb_exists. split.
  - intros (x & Hx & Heq). apply String.eqb_eq in Heq. now subst.
  - intros H. exists s. split; [exact H|apply String.eqb_refl].
Qed.

Lemma includes_false (l : list string) (s : string) :
  includes l s = false <-> ~ In s l.
Proof.
  rewrite <- includes_In. destruct (includes l s); split; congruence.
Qed.

Lemma truthy_reserved (ttlKey : option string) :
  truthy_string ttlKey && includes RESERVED_ATTRS (default EmptyString ttlKey)
  = true
  <-> exists k, ttlKey = Some k /\ In k RESERVED_ATTRS.
Proof.
  destruct ttlKey as [k|]; cbn [truthy_string default].
  - rewrite andb_true_iff, includes_In. split.
    + intros [_ H]. eauto.
    + intros (k' & [= <-] & H). split; [|exact H].
      destruct (String.eqb_spec k EmptyString) as [->|]; [|reflexivity].
      exfalso. cbn in H. intuition discriminate.
  - split; [discriminate|]. intros (k & Hk & _). discriminate.
Qed.

(** The keys of a descriptor that [LockTableConfig.create] returned. *)
Lemma create_Normal_keys (configParam : LockTableConfigParam)
    (config : LockTableConfig) :
  LockTableConfig.create configParam = Normal config ->
  ~ In (partitionKey config) RESERVED_ATTRS
  /\ ~ In (sortKey config) RESERVED_ATTRS
  /\ (forall k, ttlKey config = Some k -> ~ In k RESERVED_ATTRS).
Proof.
  unfold LockTableConfig.create.
  set (c := LockTableConfig.new _ _ _ _ _).
  destruct (includes RESERVED_ATTRS (partitionKey c)) eqn:Hpk; [discriminate|].
  destruct (includes RESERVED_ATTRS (sortKey c)) eqn:Hsk; [discriminate|].
  destruct (truthy_string (ttlKey c) && _) eqn:Httl; [discriminate|].
  intros [= <-]. apply includes_false in Hpk, Hsk.
  split; [exact Hpk|]. split; [exact Hsk|].
  intros k Hk Hin.
  assert (H : truthy_string (ttlKey c)
              && includes RESERVED_ATTRS (default EmptyString (ttlKey c)) = true)
    by (apply truthy_reserved; eauto).
  congruence.
Qed.

(** [LockTableConfig.create] throws exactly when the partition key, the
    sort key or the TTL key, with the defaults [lockId] and [lockGroup]
    filled in, is one of the five attribute names of a lock record, and
    what it throws is a [LockTableConfigValidationError]; otherwise it
    returns the descriptor with the defaults filled in. *)
Theorem LockTableConfig_create_reserved (configParam : LockTableConfigParam) :
  let config :=
    LockTableConfig.new (param_tableName configParam)
      (param_partitionKey configParam) (param_sortKey configParam)
      (param_ttlKey configParam) (param_ttlInMs configParam) in
  let reserved :=
    In (partitionKey config) RESERVED_ATTRS
    \/ In (sortKey config) RESERVED_ATTRS
    \/ (exists k, ttlKey config = Some k /\ In k RESERVED_ATTRS) in
  (reserved <->
   exists message,
     LockTableConfig.create configParam
     = Thrown (LockTableConfigValidationError message))
  /\ (~ reserved <-> LockTableConfig.create configParam = Normal config).
Proof.
  intros config reserved. unfold LockTableConfig.create. fold config.
  pose proof (truthy_reserved (ttlKey config)) as Httl.
  pose proof (includes_In RESERVED_ATTRS (partitionKey config)) as Hpk.
  pose proof (includes_In RESERVED_ATTRS (sortKey config)) as Hsk.
  destruct (includes RESERVED_ATTRS (partitionKey config)).
  { assert (Hr : reserved) by (left; apply Hpk; reflexivity).
    split; split; intros H; eauto; try contradiction; discriminate. }
  destruct (includes RESERVED_ATTRS (sortKey config)).
  { assert (Hr : reserved) by (right; left; apply Hsk; reflexivity).
    split; split; intros H; eauto; try contradiction; discriminate. }
  destruct (truthy_string (ttlKey config) && _).
  { assert (Hr : reserved) by (right; right; apply Httl; reflexivity).
    split; split; intros H; eauto; try contradiction; discriminate. }
  assert (Hr : ~ reserved).
  { intros [H|[H|H]].
    - apply Hpk in H. discriminate.
    - apply Hsk in H. discriminate.
    - apply Httl in H. discriminate. }
  split; split; intros H; try contradiction; try reflexivity; auto.
  destruct H as [m Hm]. discriminate.
Qed.

(** ** Requests of the store adapter *)

(** [Math.round] of a number of milliseconds: the TTL is a whole number
    of seconds no more than half a second away from the expiry time. *)
Theorem calculateTTL_rounds_to_seconds (config : LockTableConfig) (now : Z) :
  let expiry := now + ttlInMs config in
  expiry - 500 < 1000 * DataLayer.calculateTTL config now <= expiry + 500.
Proof.
  intros expiry. unfold DataLayer.calculateTTL. fold expiry.
  pose proof (Z.div_mod (expiry + 500) 1000 ltac:(lia)) as Hdm.
  pose proof (Z.mod_pos_bound (expiry + 500) 1000 ltac:(lia)) as Hb.
  lia.
Qed.

Lemma obj_get_spread1 {A} (k k' : string) (v : A) (o : JsObject A) :
  obj_get k (obj_spread o [(k', v)])
  = if String.eqb k' k then Some v else obj_get k o.
Proof. unfold obj_spread. cbn [fold_left fst snd]. apply obj_get_set. Qed.

Lemma obj_get_spread2 {A} (k k1 k2 : string) (v1 v2 : A) (o : JsObject A) :
  obj_get k (obj_spread o [(k1, v1); (k2, v2)])
  = if String.eqb k2 k then Some v2
    else if String.eqb k1 k then Some v1 else obj_get k o.
Proof.
  unfold obj_spread. cbn [fold_left fst snd]. now rewrite !obj_get_set.
Qed.

Lemma eqb_not_reserved (k a : string) :
  ~ In k RESERVED_ATTRS -> In a RESERVED_ATTRS -> String.eqb k a = false.
Proof.
  intros Hk Ha. destruct (String.eqb_spec k a) as [->|]; [contradiction|reflexivity].
Qed.

Lemma update_value_inj (k a : string) :
  String.eqb (DataLayer.UPDATE_VALUE_EXPRESSION k)
    (DataLayer.UPDATE_VALUE_EXPRESSION a)
  = String.eqb k a.
Proof. reflexivity. Qed.

Lemma path_inj (k a : string) :
  String.eqb (DataLayer.PATH_EXPRESSION k) (DataLayer.PATH_EXPRESSION a)
  = String.eqb k a.
Proof. reflexivity. Qed.

Section Requests.
Variables (configParam : LockTableConfigParam) (config : LockTableConfig).
Hypothesis Hconfig : LockTableConfig.create configParam = Normal config.
Variable now : Z.

Lemma ttl_not_reserved (a : string) :
  In a RESERVED_ATTRS ->
  String.eqb (default EmptyString (ttlKey config)) a = false.
Proof.
  intros Ha. destruct (create_Normal_keys _ _ Hconfig) as (_ & _ & Httl).
  destruct (ttlKey config) as [k|] eqn:Hk; cbn [default].
  - apply eqb_not_reserved; [apply Httl; reflexivity|exact Ha].
  - destruct (String.eqb_spec EmptyString a) as [<-|]; [|reflexivity].
    cbn in Ha. intuition discriminate.
Qed.

Lemma createParams_attribute (lockItem : Lock) (a : string) :
  In a RESERVED_ATTRS ->
  obj_get a (put_Item (DataLayer.createParams config now lockItem))
  = obj_get a
      [(ATTRS.recordVersionNumber, of_opt_string (recordVersionNumber lockItem));
       (ATTRS.ownerName, VString (ownerName lockItem));
       (ATTRS.lastUpdatedTimeInMs, of_opt_number (lastUpdatedTimeInMs lockItem));
       (ATTRS.leaseDurationInMs, VNumber (leaseDurationInMs lockItem));
       (ATTRS.additionalAttributes, VObject (additionalAttributes lockItem))].
Proof.
  intros Ha. destruct (create_Normal_keys _ _ Hconfig) as (Hpk & Hsk & _).
  unfold DataLayer.createParams.
  destruct (truthy_string (ttlKey config)); cbn [put_Item];
    rewrite ?obj_get_spread1, ?(ttl_not_reserved a Ha), obj_get_spread2,
      (eqb_not_reserved _ _ Hpk Ha), (eqb_not_reserved _ _ Hsk Ha);
    reflexivity.
Qed.


Lemma updateParams_value (params : UpdateParams) (a : string) :
  In a RESERVED_ATTRS ->
  obj_get (DataLayer.UPDATE_VALUE_EXPRESSION a)
    (upd_ExpressionAttributeValues
       (DataLayer.updateTTLIfEnabled config now params))
  = obj_get (DataLayer.UPDATE_VALUE_EXPRESSION a)
      (upd_ExpressionAttributeValues params).
Proof.
  intros Ha. unfold DataLayer.updateTTLIfEnabled.
  destruct (truthy_string (ttlKey config)); cbn [negb]; [|reflexivity].
  cbn [upd_ExpressionAttributeValues].
  rewrite obj_get_spread1, update_value_inj, (ttl_not_reserved a Ha).
  reflexivity.
Qed.

Lemma updateParams_name (params : UpdateParams) (a : string) :
  In a RESERVED_ATTRS ->
  obj_get (DataLayer.PATH_EXPRESSION a)
    (upd_ExpressionAttributeNames
       (DataLayer.updateTTLIfEnabled config now params))
  = obj_get (DataLayer.PATH_EXPRESSION a)
      (upd_ExpressionAttributeNames params).
Proof.
  intros Ha. unfold DataLayer.updateTTLIfEnabled.
  destruct (truthy_string (ttlKey config)); cbn [negb]; [|reflexivity].
  cbn [upd_ExpressionAttributeNames].
  rewrite obj_get_spread1, path_inj, (ttl_not_reserved a Ha).
  reflexivity.
Qed.

End Requests.

Lemma append_assoc (s1 s2 s3 : string) :
  (s1 +:+ s2) +:+ s3 = s1 +:+ (s2 +:+ s3).
Proof.
  induction s1 as [|c s1 IH]; [reflexivity|].
  change (String c ((s1 +:+ s2) +:+ s3) = String c (s1 +:+ s2 +:+ s3)).
  now f_equal.
Qed.

Lemma join_snoc (sep first last : string) (rest : list string) :
  join sep ((first :: rest) ++ [last]) = join sep (first :: rest) +:+ sep +:+ last.
Proof.
  revert first. induction rest as [|s rest IH]; intros first.
  - reflexivity.
  - change (join sep ((first :: s :: rest) ++ [last]))
      with (first +:+ sep +:+ join sep ((s :: rest) ++ [last])).
    rewrite IH.
    change (join sep (first :: s :: rest))
      with (first +:+ sep +:+ join sep (s :: rest)).
    now rewrite !append_assoc.
Qed.

Lemma updateTTLIfEnabled_expression (config : LockTableConfig) (now : Z)
    (params : UpdateParams) (a : string) (written : list string) :
  upd_UpdateExpression params = DataLayer.UPDATE_EXPRESSION (a :: written) ->
  upd_UpdateExpression (DataLayer.updateTTLIfEnabled config now params)
  = DataLayer.UPDATE_EXPRESSION ((a :: written) ++ ttlAttribute config).
Proof.
  intros He. unfold DataLayer.updateTTLIfEnabled, ttlAttribute.
  destruct (truthy_string (ttlKey config)); cbn [negb].
  2: { now rewrite app_nil_r. }
  cbn [upd_UpdateExpression]. rewrite He.
  unfold DataLayer.UPDATE_EXPRESSION.
  rewrite map_app. cbn [map]. rewrite join_snoc, !append_assoc. reflexivity.
Qed.

Lemma In_ttlAttribute (config : LockTableConfig) (k : string) :
  In k (ttlAttribute config) <->
  truthy_string (ttlKey config) = true /\ k = default EmptyString (ttlKey config).
Proof.
  unfold ttlAttribute. destruct (truthy_string (ttlKey config)); cbn.
  - intuition congruence.
  - intuition discriminate.
Qed.

Lemma updateParams_ttl (config : LockTableConfig) (now : Z)
    (params : UpdateParams) (k : string) :
  In k (ttlAttribute config) ->
  obj_get (DataLayer.PATH_EXPRESSION k)
    (upd_ExpressionAttributeNames
       (DataLayer.updateTTLIfEnabled config now params))
  = Some k
  /\ obj_get (DataLayer.UPDATE_VALUE_EXPRESSION k)
       (upd_ExpressionAttributeValues
          (DataLayer.updateTTLIfEnabled config now params))
     = Some (VNumber (DataLayer.calculateTTL config now)).
Proof.
  intros [Ht ->]%In_ttlAttribute. unfold DataLayer.updateTTLIfEnabled.
  rewrite Ht. cbn [negb upd_ExpressionAttributeNames upd_ExpressionAttributeValues].
  rewrite !obj_get_spread1, !String.eqb_refl. split; reflexivity.
Qed.

Lemma createParams_ttl (config : LockTableConfig) (now : Z) (lockItem : Lock)
    (k : string) :
  In k (ttlAttribute config) ->
  obj_get k (put_Item (DataLayer.createParams config now lockItem))
  = Some (VNumber (DataLayer.calculateTTL config now)).
Proof.
  intros [Ht ->]%In_ttlAttribute. unfold DataLayer.createParams.
  rewrite Ht. cbn [put_Item]. now rewrite obj_get_spread1, String.eqb_refl.
Qed.

(** The item [createNewLock] puts, for a table descriptor that
    [LockTableConfig.create] accepted: the five attributes of the lock
    under their names, the TTL attribute when the table has one, and the
    key attributes; no other attribute. *)
Theorem createNewLock_item (configParam : LockTableConfigParam)
    (config : LockTableConfig) (now : Z) (lockItem : Lock) :
  LockTableConfig.create configParam = Normal config ->
  let item := put_Item (DataLayer.createParams config now lockItem) in
  obj_get "recordVersionNumber" item
  = Some (of_opt_string (recordVersionNumber lockItem))
  /\ obj_get "ownerName" item = Some (VString (ownerName lockItem))
  /\ obj_get "lastUpdatedTimeInMs" item
     = Some (of_opt_number (lastUpdatedTimeInMs lockItem))
  /\ obj_get "leaseDurationInMs" item
     = Some (VNumber (leaseDurationInMs lockItem))
  /\ obj_get "additionalAttributes" item
     = Some (VObject (additionalAttributes lockItem))
  /\ (forall k, In k (ttlAttribute config) ->
        obj_get k item = Some (VNumber (DataLayer.calculateTTL config now)))
  /\ (~ In (sortKey config) (ttlAttribute config) ->
        obj_get (sortKey config) item = Some (VString (lockGroup lockItem)))
  /\ (partitionKey config <> sortKey config ->
      ~ In (partitionKey config) (ttlAttribute config) ->
        obj_get (partitionKey config) item = Some (VString (lockId lockItem)))
  /\ (forall k, is_Some (obj_get k item) <->
        In k (RESERVED_ATTRS ++ [partitionKey config; sortKey config]
              ++ ttlAttribute config)).
Proof.
  intros Hc item.
  assert (Hattr : forall a, In a RESERVED_ATTRS -> obj_get a item = _)
    by (intros a; apply (createParams_attribute _ _ Hc)).
  do 5 (split; [apply Hattr; cbn; tauto|]).
  split; [intros k; apply createParams_ttl|].
  assert (Hget : forall k, obj_get k item
            = if existsb (String.eqb k) (ttlAttribute config)
              then Some (VNumber (DataLayer.calculateTTL config now))
              else if String.eqb (sortKey config) k
                   then Some (VString (lockGroup lockItem))
                   else if String.eqb (partitionKey config) k
                        then Some (VString (lockId lockItem))
                        else obj_get k
      [(ATTRS.recordVersionNumber, of_opt_string (recordVersionNumber lockItem));
       (ATTRS.ownerName, VString (ownerName lockItem));
       (ATTRS.lastUpdatedTimeInMs, of_opt_number (lastUpdatedTimeInMs lockItem));
       (ATTRS.leaseDurationInMs, VNumber (leaseDurationInMs lockItem));
       (ATTRS.additionalAttributes, VObject (additionalAttributes lockItem))]).
  { intros k. subst item. unfold DataLayer.createParams, ttlAttribute.
    destruct (truthy_string (ttlKey config)); cbn [put_Item existsb orb].
    - rewrite obj_get_spread1, obj_get_spread2, (String.eqb_sym k).
      destruct (String.eqb _ k); reflexivity.
    - now rewrite obj_get_spread2. }
  assert (Hex : forall k l, existsb (String.eqb k) l = true <-> In k l).
  { intros k l. apply (includes_In l k). }
  split; [|split].
  - intros Hn. rewrite Hget, String.eqb_refl.
    destruct (existsb _ _) eqn:He; [|reflexivity].
    apply Hex in He. contradiction.
  - intros Hne Hn. rewrite Hget, String.eqb_refl.
    destruct (existsb _ _) eqn:He; [apply Hex in He; contradiction|].
    destruct (String.eqb_spec (sortKey config) (partitionKey config));
      [congruence|reflexivity].
  - intros k. rewrite Hget, !in_app_iff. cbn [In].
    destruct (existsb _ _) eqn:He.
    { apply Hex in He. split; [tauto|eauto]. }
    assert (Hn : ~ In k (ttlAttribute config))
      by (rewrite <- Hex, He; discriminate).
    destruct (String.eqb_spec (sortKey config) k) as [<-|Hsk].
    { split; [tauto|eauto]. }
    destruct (String.eqb_spec (partitionKey config) k) as [<-|Hpk].
    { split; [tauto|eauto]. }
    assert (Hres : is_Some (obj_get k
      [(ATTRS.recordVersionNumber, of_opt_string (recordVersionNumber lockItem));
       (ATTRS.ownerName, VString (ownerName lockItem));
       (ATTRS.lastUpdatedTimeInMs, of_opt_number (lastUpdatedTimeInMs lockItem));
       (ATTRS.leaseDurationInMs, VNumber (leaseDurationInMs lockItem));
       (ATTRS.additionalAttributes, VObject (additionalAttributes lockItem))])
       <-> In k RESERVED_ATTRS).
    { unfold RESERVED_ATTRS. cbn [obj_get In].
      repeat (match goal with
              | |- context [String.eqb ?a k] =>
                  destruct (String.eqb_spec a k) as [<-|]
              end; [split; [tauto|eauto]|]).
      split; [intros [x Hx]; discriminate|tauto]. }
    rewrite Hres. tauto.
Qed.

(** A steal, for a table descriptor that [LockTableConfig.create]
    accepted, sets one attribute after the other the five attributes of a
    lock record, and the TTL attribute when the table has one, each to
    the value that creating the same lock would have stored. *)
Theorem steal_writes_what_create_writes (configParam : LockTableConfigParam)
    (config : LockTableConfig) (now : Z) (existingLock newLock : Lock) :
  LockTableConfig.create configParam = Normal config ->
  let steal := DataLayer.stealParams config now existingLock newLock in
  let item := put_Item (DataLayer.createParams config now newLock) in
  let written := RESERVED_ATTRS ++ ttlAttribute config in
  upd_UpdateExpression steal = DataLayer.UPDATE_EXPRESSION written
  /\ forall a, In a written ->
       obj_get (DataLayer.PATH_EXPRESSION a) (upd_ExpressionAttributeNames steal)
       = Some a
       /\ exists v,
            obj_get a item = Some v
            /\ obj_get (DataLayer.UPDATE_VALUE_EXPRESSION a)
                 (upd_ExpressionAttributeValues steal)
               = Some v.
Proof.
  intros Hc steal item written. split.
  { apply updateTTLIfEnabled_expression. reflexivity. }
  intros a [Ha|Ha]%in_app_iff.
  - subst steal item. unfold DataLayer.stealParams.
    rewrite (updateParams_name _ _ Hc), (updateParams_value _ _ Hc),
      (createParams_attribute _ _ Hc) by exact Ha.
    cbn [upd_ExpressionAttributeNames upd_ExpressionAttributeValues].
    unfold RESERVED_ATTRS in Ha. cbn [In] in Ha.
    destruct Ha as [<-|[<-|[<-|[<-|[<-|[]]]]]];
      (split; [reflexivity|eexists; split; reflexivity]).
  - subst steal item. unfold DataLayer.stealParams.
    split; [apply updateParams_ttl, Ha|].
    eexists. split; [apply createParams_ttl, Ha|apply updateParams_ttl, Ha].
Qed.


(** ** The lock entity: expiry *)

(** Once the lease of a lock is over by the local clock it stays over
    at every later time, as long as the lock is not updated. *)
Theorem leaseExpirationTimePassed_monotone (this : Lock) (now later : Z) :
  now <= later ->
  Lock.leaseExpirationTimePassed this now = true ->
  Lock.leaseExpirationTimePassed this later = true.
Proof.
  unfold Lock.leaseExpirationTimePassed. intros Hle.
  destruct (lastUpdatedTimeInMs this) as [t|]; [|discriminate].
  destruct (t =? 0); [discriminate|].
  rewrite !Z.gtb_ltb, !Z.ltb_lt. lia.
Qed.

(** ** The exchanges of a [lock] call *)

Section ProtocolSpec.
Variables (l : loc) (L0 : Lock) (w0 : World).
Hypothesis Hacq : isAcquired L0 = false.
Hypothesis Hto : timeoutHandler L0 = None.

Lemma lockAcquired_exact I w h rvn t :
  quiet w0 w -> heap w !! l = Some (set_version_and_time rvn t L0) ->
  wp I (LockClient.lockAcquired l w) h (fun h' w' s =>
    s = Resolved tt /\ h' = h
    /\ heap w' !! l = Some (granted w0 (set_version_and_time rvn t L0))).
Proof.
  intros (HR & HT & HN) Hl.
  unfold LockClient.lockAcquired, granted. deref_with Hl.
  cbn [prolongLeaseEnabled set_version_and_time prolongEveryMs]. wp_steps.
  change (Lock.getUniqueLockIdentifier (set_version_and_time rvn t L0))
    with (Lock.getUniqueLockIdentifier L0).
  destruct (prolongLeaseEnabled L0) eqn:Hp; wp_steps.
  - unfold LockClient.startProlongingLease. wp_steps.
    rewrite obj_get_set, String.eqb_refl. wp_steps.
    rewrite HN, !list_lookup_alter_eq, Hl. cbn.
    repeat (split; [reflexivity|]). reflexivity.
  - rewrite !list_lookup_alter_eq, Hl. cbn.
    repeat (split; [reflexivity|]). reflexivity.
Qed.

Variable self : loc -> Z -> Async loc.
Hypothesis IH : forall rc w h,
  pendingAt l L0 w0 w -> rounds L0 l h Reading ->
  wp (fun _ _ => True) (self l rc w) h (protocolPost l L0 w0).

Ltac solve_pending HR HT HN Hl :=
  unfold pendingAt, quiet; world_simpl;
  rewrite ?list_lookup_alter_eq, ?Hl;
  split; [split; [exact HR|split; [exact HT|exact HN]]|];
  eexists _, _; reflexivity.

Ltac passed_on :=
  intros h' w' [l'| |]; cbn beta iota; wp_steps; auto.

Ltac with_state rule :=
  lazymatch goal with
  | |- round _ _ _ (mkExchange ?w _ _) _ => eapply (rule L0 l w)
  end.

Ltac solve_attempting Hl :=
  unfold attempting; world_simpl;
  rewrite ?list_lookup_alter_eq, ?Hl;
  split; [reflexivity|eexists; split; reflexivity].

Lemma acquireNewLock_protocol rc w h :
  pendingAt l L0 w0 w -> rounds L0 l h Missing ->
  wp (fun _ _ => True) (LockClient.acquireNewLock self l rc w) h
    (protocolPost l L0 w0).
Proof.
  intros ((HR & HT & HN) & rvn & t & Hl) Hh.
  unfold LockClient.acquireNewLock. wp_steps.
  unfold DataLayer.createNewLock. deref_with Hl. wp_steps.
  match goal with
  | |- context [h ++ [?x]] =>
      assert (Hx : rounds L0 l (h ++ [x]) (afterWrite rp))
  end.
  { eapply rounds_snoc; [exact Hh|].
    with_state round_create. solve_attempting Hl. }
  destruct rp as [item|code]; wp_steps.
  - eapply wp_mono; [|apply lockAcquired_exact;
      [unfold quiet; world_simpl; auto
      |world_simpl; rewrite ?list_lookup_alter_eq, Hl; reflexivity]].
    intros h' w' s (-> & -> & Hg).
    eexists. split; [exact Hx|]. split; [reflexivity|].
    eexists _, _, _. split; [reflexivity|]. split; [|exact Hg].
    cbn [stateAtRequest]. world_simpl.
    rewrite list_lookup_alter_eq, Hl. reflexivity.
  - cbn [afterWrite] in Hx.
    destruct (isConditionalCheckFailed (AWSError code)) eqn:Hccf.
    + deref_with Hl. wp_steps.
      eapply wp_mono; [|apply IH; [solve_pending HR HT HN Hl|exact Hx]].
      passed_on.
    + wp_steps. eexists. split; [exact Hx|]. split; [reflexivity|exact Logic.I].
Qed.

Lemma stealExistingLock_protocol existingLock rc w h q :
  pendingAt l L0 w0 w -> rounds L0 l h q ->
  q = Waited existingLock
  \/ (q = Found existingLock /\ trustLocalTime L0 = true
      /\ Lock.leaseExpirationTimePassed existingLock (clock w) = true) ->
  wp (fun _ _ => True)
    (LockClient.stealExistingLock self l existingLock rc w) h
    (protocolPost l L0 w0).
Proof.
  intros ((HR & HT & HN) & rvn & t & Hl) Hh Hq.
  unfold LockClient.stealExistingLock. wp_steps.
  unfold DataLayer.updateLockWithNewLockContent. deref_with Hl. wp_steps.
  match goal with
  | |- context [h ++ [?x]] =>
      assert (Hx : rounds L0 l (h ++ [x]) (afterWrite rp))
  end.
  { eapply rounds_snoc; [exact Hh|].
    destruct Hq as [->|(-> & Htrust & Hexp)].
    - with_state round_steal_waited. solve_attempting Hl.
    - with_state round_steal_expired; [exact Htrust|exact Hexp|].
      solve_attempting Hl. }
  destruct rp as [item|code]; wp_steps.
  - eapply wp_mono; [|apply lockAcquired_exact;
      [unfold quiet; world_simpl; auto
      |world_simpl; rewrite ?list_lookup_alter_eq, Hl; reflexivity]].
    intros h' w' s (-> & -> & Hg). cbn beta iota.
    deref_with Hg. wp_steps.
    eexists. split; [exact Hx|]. split; [reflexivity|].
    eexists _, _, _. split; [reflexivity|]. split; [|exact Hg].
    cbn [stateAtRequest]. world_simpl.
    rewrite list_lookup_alter_eq, Hl. reflexivity.
  - cbn [afterWrite] in Hx.
    destruct (isConditionalCheckFailed (AWSError code)) eqn:Hccf.
    + deref_with Hl. wp_steps.
      eapply wp_mono; [|apply IH; [solve_pending HR HT HN Hl|exact Hx]].
      passed_on.
    + wp_steps. eexists. split; [exact Hx|]. split; [reflexivity|exact Logic.I].
Qed.

Lemma tryStealingExistingLock_protocol existingLock rc w h :
  pendingAt l L0 w0 w -> rounds L0 l h (Found existingLock) ->
  trustLocalTime L0
  && Lock.leaseExpirationTimePassed existingLock (clock w) = false ->
  wp (fun _ _ => True)
    (LockClient.tryStealingExistingLock self l existingLock rc w) h
    (protocolPost l L0 w0).
Proof.
  intros ((HR & HT & HN) & rvn & t & Hl) Hh Hcheck.
  unfold LockClient.tryStealingExistingLock. deref_with Hl.
  cbn [trustLocalTime set_version_and_time waitDurationInMs].
  destruct (trustLocalTime L0) eqn:Htrust; wp_steps.
  - eapply wp_mono; [|apply IH; [solve_pending HR HT HN Hl|]].
    + passed_on.
    + eapply rounds_snoc; [exact Hh|].
      with_state round_wait_retry; [exact Htrust|exact Hcheck].
  - apply stealExistingLock_protocol with (q := Waited existingLock);
      [solve_pending HR HT HN Hl| |left; reflexivity].
    eapply rounds_snoc; [exact Hh|].
    with_state round_wait_lease. exact Htrust.
Qed.

Lemma acquireLock_body_protocol rc w h :
  pendingAt l L0 w0 w -> rounds L0 l h Reading ->
  wp (fun _ _ => True) (LockClient.acquireLock_body self l rc w) h
    (protocolPost l L0 w0).
Proof.
  intros ((HR & HT & HN) & rvn & t & Hl) Hh.
  unfold LockClient.acquireLock_body. deref_with Hl.
  cbn [isAcquired set_version_and_time maxRetryCount lockGroup lockId].
  rewrite Hacq.
  destruct (match maxRetryCount L0 with Some m => rc >? m | None => false end)
    eqn:Hcheck.
  { wp_steps. eexists. split; [exact Hh|]. split; [|exact Logic.I].
    split; [reflexivity|]. destruct (maxRetryCount L0); [eauto|discriminate]. }
  unfold DataLayer.getLockByGroupAndId. wp_steps.
  destruct rp as [[attrs|]|code]; wp_steps.
  - rewrite create_acquired. wp_steps. deref_with Hl.
    cbn [trustLocalTime set_version_and_time]. wp_steps.
    match goal with
    | |- context [h ++ [?x]] =>
        assert (Hx : rounds L0 l (h ++ [x])
                       (Found (Lock.new (lockId L0) (lockGroup L0)
                                 (attr_ownerName attrs)
                                 (attr_recordVersionNumber attrs)
                                 (attr_lastUpdatedTimeInMs attrs) (Some true)
                                 (attr_leaseDurationInMs attrs)
                                 (attr_additionalAttributes attrs)
                                 None None None None None)))
          by (eapply rounds_snoc; [exact Hh|];
              with_state round_read_found; apply create_acquired)
    end.
    destruct (trustLocalTime L0 && Lock.leaseExpirationTimePassed _ _)
      eqn:Hexp; wp_steps.
    + apply andb_true_iff in Hexp as [Htrust Hexp].
      eapply wp_mono; [|eapply stealExistingLock_protocol;
        [solve_pending HR HT HN Hl|exact Hx
        |right; split; [reflexivity|split; [exact Htrust|exact Hexp]]]].
      intros h' w' [[]| |]; cbn beta iota; wp_steps; auto.
    + eapply wp_mono; [|eapply tryStealingExistingLock_protocol;
        [solve_pending HR HT HN Hl|exact Hx|exact Hexp]].
      intros h' w' [[]| |]; cbn beta iota; wp_steps; auto.
  - eapply wp_mono; [|apply acquireNewLock_protocol;
      [solve_pending HR HT HN Hl
      |eapply rounds_snoc; [exact Hh|with_state round_read_missing]]].
    intros h' w' [[]| |]; cbn beta iota; wp_steps; auto.
  - eexists. split;
      [eapply rounds_snoc; [exact Hh|with_state round_read_failed]|].
    split; [reflexivity|exact Logic.I].
Qed.

End ProtocolSpec.

Lemma acquireLock_protocol (l : loc) (L0 : Lock) (w0 : World) :
  isAcquired L0 = false -> timeoutHandler L0 = None ->
  forall fuel rc w h,
    pendingAt l L0 w0 w -> rounds L0 l h Reading ->
    wp (fun _ _ => True) (LockClient.acquireLock fuel l rc w) h
      (protocolPost l L0 w0).
Proof.
  intros Hacq Hto. induction fuel as [|fuel IH]; intros rc w h Hw Hh.
  - eexists. split; [exact Hh|]. split; [reflexivity|exact Logic.I].
  - apply (acquireLock_body_protocol l L0 w0); auto.
Qed.

(** Every [lock] call goes through its exchanges in rounds, whatever the
    backend answers. *)
Lemma lock_protocol (env : Environment) fuel lockGroup lockId lockOptions w :
  let o := run env (LockClient.lock fuel lockGroup lockId lockOptions) w in
  match Lock.create lockGroup lockId (client_ownerName w) None None
          (Some false) lockOptions with
  | Thrown e => result o = Rejected e /\ exchanges o = []
  | Normal created =>
      protocolPost (length (heap w)) created w
        (exchanges o) (final o) (result o)
  end.
Proof.
  intros o.
  assert (H : wp (fun _ _ => True)
            (LockClient.lock fuel lockGroup lockId lockOptions w) []
            (fun h' w' s =>
               match Lock.create lockGroup lockId (client_ownerName w) None None
                       (Some false) lockOptions with
               | Thrown e => s = Rejected e /\ h' = []
               | Normal created =>
                   protocolPost (length (heap w)) created w h' w' s
               end)).
  { unfold LockClient.lock. wp_steps.
    destruct (Lock.create _ _ _ _ _ _ _) as [created|e] eqn:Hc; wp_steps.
    2: { auto. }
    apply create_Normal in Hc.
    eapply wp_mono;
      [|apply acquireLock_protocol with (L0 := created) (w0 := w)].
    - intros h' w' [l| |] Hp; cbn beta iota; wp_steps; auto.
    - subst created. reflexivity.
    - subst created. reflexivity.
    - unfold pendingAt, quiet. world_simpl. split; [auto|].
      exists None, None. rewrite list_lookup_middle by reflexivity.
      subst created. reflexivity.
    - constructor. }
  destruct (wp_run env _ _ w _ H) as [HQ _]. exact HQ.
Qed.

(** *** Reading the rounds off the exchanges *)

Lemma rounds_inv_snoc L0 l h x q' :
  rounds L0 l (h ++ [x]) q' -> exists q, rounds L0 l h q /\ round L0 l q x q'.
Proof.
  intros H. inversion H as [Hnil|h0 q x0 q0 Hh Hx Heq].
  - destruct h; discriminate.
  - apply app_inj_tail in Heq as [-> ->]. eauto.
Qed.

Lemma rounds_prefix L0 l earlier later q :
  rounds L0 l (earlier ++ later) q -> exists q1, rounds L0 l earlier q1.
Proof.
  revert q. induction later as [|y later IH] using rev_ind; intros q H.
  - rewrite app_nil_r in H. eauto.
  - rewrite app_assoc in H. apply rounds_inv_snoc in H as (q0 & H & _). eauto.
Qed.

(** The phase before an exchange of the call and the one after it. *)
Lemma rounds_at L0 l earlier x later q :
  rounds L0 l (earlier ++ x :: later) q ->
  exists q1 q2, rounds L0 l earlier q1 /\ round L0 l q1 x q2.
Proof.
  intros H.
  replace (earlier ++ x :: later) with ((earlier ++ [x]) ++ later) in H
    by (rewrite <- app_assoc; reflexivity).
  apply rounds_prefix in H as [q2 H].
  apply rounds_inv_snoc in H as (q1 & H1 & H2). eauto.
Qed.

Lemma afterWrite_cases rp :
  (afterWrite rp = Committed /\ exists item, rp = Resolves item)
  \/ (afterWrite rp = Reading
      /\ exists code, rp = Rejects code
                      /\ isConditionalCheckFailed (AWSError code) = true)
  \/ (exists code, afterWrite rp = Failed code /\ rp = Rejects code
                   /\ isConditionalCheckFailed (AWSError code) = false).
Proof.
  destruct rp as [item|code]; cbn [afterWrite]; [eauto|].
  destruct (isConditionalCheckFailed (AWSError code)) eqn:Hc.
  - right. left. eauto.
  - right. right. eauto.
Qed.

Ltac afterWrite_absurd :=
  match goal with
  | H : afterWrite ?rp = _ |- _ =>
      destruct (afterWrite_cases rp)
        as [[He _]|[[He _]|(c & He & _)]]; congruence
  end.

Lemma rounds_Missing L0 l h :
  rounds L0 l h Missing ->
  exists before w,
    h = before
        ++ [mkExchange w
              (Backend (GetLockByGroupAndId (lockGroup L0) (lockId L0))
                 (DocGet (DataLayer.getParams (client_config w)
                            (lockGroup L0) (lockId L0))))
              (Resolves None)].
Proof.
  intros H. inversion H as [Hnil|h0 q x q0 Hh Hx Heq Hq]; subst.
  inversion Hx; subst; try afterWrite_absurd. eauto.
Qed.

Lemma rounds_Found L0 l h existingLock :
  rounds L0 l h (Found existingLock) ->
  exists before w attrs,
    h = before
        ++ [mkExchange w
              (Backend (GetLockByGroupAndId (lockGroup L0) (lockId L0))
                 (DocGet (DataLayer.getParams (client_config w)
                            (lockGroup L0) (lockId L0))))
              (Resolves (Some attrs))]
    /\ Lock.create (lockGroup L0) (lockId L0) (attr_ownerName attrs)
         (attr_recordVersionNumber attrs) (attr_lastUpdatedTimeInMs attrs)
         (Some true)
         (mkLockOptions (attr_leaseDurationInMs attrs) None None None None None
            (attr_additionalAttributes attrs))
       = Normal existingLock.
Proof.
  intros H. inversion H as [Hnil|h0 q x q0 Hh Hx Heq Hq]; subst.
  inversion Hx; subst; try afterWrite_absurd. eauto.
Qed.

Lemma rounds_Waited L0 l h existingLock :
  rounds L0 l h (Waited existingLock) ->
  exists before w rp,
    h = before ++ [mkExchange w (WaitMs (leaseDurationInMs existingLock)) rp]
    /\ trustLocalTime L0 = false
    /\ rounds L0 l before (Found existingLock).
Proof.
  intros H. inversion H as [Hnil|h0 q x q0 Hh Hx Heq Hq]; subst.
  inversion Hx; subst; try afterWrite_absurd. eauto 8.
Qed.

Lemma rounds_nil_inv L0 l q : rounds L0 l [] q -> q = Reading.
Proof.
  intros H. inversion H as [|h q0 x q1 _ _ Heq]; [reflexivity|].
  destruct h; discriminate.
Qed.

Lemma lock_rounds (env : Environment) fuel lockGroup lockId lockOptions w :
  let o := run env (LockClient.lock fuel lockGroup lockId lockOptions) w in
  let L0 := requested w lockGroup lockId lockOptions in
  exists q,
    rounds L0 (length (heap w)) (exchanges o) q
    /\ match result o with
       | Rejected (LockOptionsValidationError _) => exchanges o = []
       | s => endsIn L0 q s
              /\ match s with
                 | Resolved _ =>
                     exists earlier x L,
                       exchanges o = earlier ++ [x]
                       /\ heap (stateAtRequest x) !! length (heap w) = Some L
                       /\ heap (final o) !! length (heap w)
                          = Some (granted w L)
                 | _ => True
                 end
       end.
Proof.
  intros o L0.
  pose proof (lock_protocol env fuel lockGroup lockId lockOptions w) as H.
  cbv zeta in H. fold o in H.
  destruct (Lock.create _ _ _ _ _ _ _) as [created|e] eqn:Hc.
  - apply create_Normal in Hc. fold (requested w lockGroup lockId lockOptions) in Hc.
    fold L0 in Hc. subst created.
    destruct H as (q & Hq & He & Hs). exists q. split; [exact Hq|].
    destruct (result o) as [l'|[]|]; cbn in He |- *; try contradiction; auto.
  - destruct H as [Hr Hx]. exists Reading. rewrite Hx. split; [constructor|].
    rewrite Hr.
    destruct (create_throws_validation_only _ _ _ _ _ _ _ _ Hc) as [m ->].
    reflexivity.
Qed.

(** A [lock] call reads before it writes: its first exchange is a read
    of the record under its group and id, and it sends a create only
    straight after a read that found no record. *)
Theorem lock_reads_before_it_creates (env : Environment) fuel lockGroup lockId
    lockOptions w :
  let o := run env (LockClient.lock fuel lockGroup lockId lockOptions) w in
  (forall x later, exchanges o = x :: later ->
     exists params,
       request x = Backend (GetLockByGroupAndId lockGroup lockId) (DocGet params)
       /\ get_ConsistentRead params = true)
  /\ (forall earlier x later handle doc,
        exchanges o = earlier ++ x :: later ->
        request x = Backend (CreateNewLock handle) doc ->
        exists before read params,
          earlier = before ++ [read]
          /\ request read
             = Backend (GetLockByGroupAndId lockGroup lockId) (DocGet params)
          /\ answer read = Resolves None).
Proof.
  intros o.
  destruct (lock_rounds env fuel lockGroup lockId lockOptions w)
    as (q & Hq & _). fold o in Hq. split.
  - intros x later Hx. rewrite Hx in Hq.
    apply (rounds_at _ _ []) in Hq as (q1 & q2 & H1 & H2).
    apply rounds_nil_inv in H1 as ->.
    inversion H2; subst; eexists; split; reflexivity.
  - intros earlier x later handle doc Hx Hreq. rewrite Hx in Hq.
    apply rounds_at in Hq as (q1 & q2 & H1 & H2).
    inversion H2; subst; cbn in Hreq; try discriminate.
    apply rounds_Missing in H1 as (before & w1 & ->).
    eexists _, _, _. split; [reflexivity|]. split; reflexivity.
Qed.

(** A [lock] call overwrites a record only if it has read that very
    record and then either waited the record's lease duration (when it
    does not trust the local clock) or found the lease over by the local
    clock (when it does). *)
Theorem lock_steals_only_after_the_lease (env : Environment) fuel lockGroup
    lockId lockOptions w :
  let o := run env (LockClient.lock fuel lockGroup lockId lockOptions) w in
  forall earlier x later existingLock handle doc,
    exchanges o = earlier ++ x :: later ->
    request x = Backend (UpdateLockWithNewLockContent existingLock handle) doc ->
    exists before read params attrs,
      request read
      = Backend (GetLockByGroupAndId lockGroup lockId) (DocGet params)
      /\ answer read = Resolves (Some attrs)
      /\ Lock.create lockGroup lockId (attr_ownerName attrs)
           (attr_recordVersionNumber attrs) (attr_lastUpdatedTimeInMs attrs)
           (Some true)
           (mkLockOptions (attr_leaseDurationInMs attrs) None None None None
              None (attr_additionalAttributes attrs))
         = Normal existingLock
      /\ ((default false (opt_trustLocalTime lockOptions) = false
           /\ exists wait,
                earlier = before ++ [read; wait]
                /\ request wait = WaitMs (leaseDurationInMs existingLock))
          \/ (default false (opt_trustLocalTime lockOptions) = true
              /\ earlier = before ++ [read]
              /\ Lock.leaseExpirationTimePassed existingLock
                   (clock (stateAtRequest x)) = true)).
Proof.
  intros o earlier x later existingLock handle doc Hx Hreq.
  destruct (lock_rounds env fuel lockGroup lockId lockOptions w)
    as (q & Hq & _). fold o in Hq. rewrite Hx in Hq.
  apply rounds_at in Hq as (q1 & q2 & H1 & H2).
  inversion H2; subst; cbn in Hreq; try discriminate;
    injection Hreq as <- <- <-.
  - apply rounds_Found in H1 as (before & w1 & attrs & -> & Hc).
    eexists before, (mkExchange w1 _ _), _, attrs.
    split; [reflexivity|]. split; [reflexivity|]. split; [exact Hc|].
    right. split; [assumption|]. split; [reflexivity|assumption].
  - apply rounds_Waited in H1 as (before' & w2 & rp' & -> & Htrust & H1).
    apply rounds_Found in H1 as (before & w1 & attrs & -> & Hc).
    eexists before, (mkExchange w1 _ _), _, attrs.
    split; [reflexivity|]. split; [reflexivity|]. split; [exact Hc|].
    left. split; [exact Htrust|]. eexists.
    split; [rewrite <- app_assoc; reflexivity|reflexivity].
Qed.

(** When a [lock] call waits and for how long: only straight after a
    read that found a record; for the lease duration of that record when
    the local clock is not trusted; when it is trusted, and the lease is
    not over by it, for [waitDurationInMs], and not at all if that is not
    set. *)
Theorem lock_wait_durations (env : Environment) fuel lockGroup lockId
    lockOptions w :
  let o := run env (LockClient.lock fuel lockGroup lockId lockOptions) w in
  forall earlier x later ms,
    exchanges o = earlier ++ x :: later ->
    request x = WaitMs ms ->
    exists before read params attrs existingLock,
      earlier = before ++ [read]
      /\ request read
         = Backend (GetLockByGroupAndId lockGroup lockId) (DocGet params)
      /\ answer read = Resolves (Some attrs)
      /\ Lock.create lockGroup lockId (attr_ownerName attrs)
           (attr_recordVersionNumber attrs) (attr_lastUpdatedTimeInMs attrs)
           (Some true)
           (mkLockOptions (attr_leaseDurationInMs attrs) None None None None
              None (attr_additionalAttributes attrs))
         = Normal existingLock
      /\ if default false (opt_trustLocalTime lockOptions)
         then ms = default 0 (opt_waitDurationInMs lockOptions)
              /\ Lock.leaseExpirationTimePassed existingLock
                   (clock (stateAtRequest x)) = false
         else ms = leaseDurationInMs existingLock.
Proof.
  intros o earlier x later ms Hx Hreq.
  destruct (lock_rounds env fuel lockGroup lockId lockOptions w)
    as (q & Hq & _). fold o in Hq. rewrite Hx in Hq.
  apply rounds_at in Hq as (q1 & q2 & H1 & H2).
  inversion H2 as [ | | | |w0 R rp Htrust|w0 R rp Htrust Hexp| | ];
    subst; cbn in Hreq; try discriminate; injection Hreq as <-;
    apply rounds_Found in H1 as (before & w1 & attrs & -> & Hc);
    eexists before, (mkExchange w1 _ _), _, attrs, R;
    (split; [reflexivity|]); (split; [reflexivity|]);
    (split; [reflexivity|]); (split; [exact Hc|]);
    change (default false (opt_trustLocalTime lockOptions))
      with (trustLocalTime (requested w lockGroup lockId lockOptions));
    rewrite Htrust.
  - reflexivity.
  - split; [reflexivity|exact Hexp].
Qed.

(** A [lock] call fails with a backend error exactly when its last
    exchange is a backend call that was rejected, either a read or
    a write rejected for another reason than its condition; the error
    is the one of that rejection.  A failed condition of a write is
    never the error of the call. *)
Theorem lock_surfaces_the_last_backend_error (env : Environment) fuel
    lockGroup lockId lockOptions w (code : option string) :
  let o := run env (LockClient.lock fuel lockGroup lockId lockOptions) w in
  result o = Rejected (AWSError code)
  <-> exists earlier x call doc,
        exchanges o = earlier ++ [x]
        /\ request x = Backend call doc
        /\ answer x = Rejects code
        /\ (isRead call = true
            \/ isConditionalCheckFailed (AWSError code) = false).
Proof.
  intros o.
  destruct (lock_rounds env fuel lockGroup lockId lockOptions w)
    as (q & Hq & Hend). fold o in Hq, Hend. split.
  - intros Hr. rewrite Hr in Hend. destruct Hend as [-> _].
    inversion Hq as [|h q0 x q1 Hh Hx Heq Hq1]; subst.
    exists h, x.
    inversion Hx; subst;
      try (eexists _, _; repeat (split; [reflexivity|]); left; reflexivity);
      match goal with
      | Hf : afterWrite ?rp = Failed code |- _ =>
          destruct (afterWrite_cases rp)
            as [[He _]|[[He _]|(c & He & -> & Hc)]]; try congruence;
          rewrite He in Hf; injection Hf as ->;
          eexists _, _; repeat (split; [reflexivity|]); right; exact Hc
      end.
  - intros (earlier & x & call & doc & Hx & Hreq & Hans & Hwhy).
    rewrite Hx in Hq. apply rounds_inv_snoc in Hq as (q0 & _ & Hround).
    assert (Hq : q = Failed code).
    { inversion Hround; subst; cbn [request answer] in Hreq, Hans;
        try discriminate.
      - injection Hans as ->. reflexivity.
      - subst rp. injection Hreq as <- _. cbn [afterWrite].
        destruct Hwhy as [Hwhy|Hwhy]; [discriminate|]. now rewrite Hwhy.
      - subst rp. injection Hreq as <- _. cbn [afterWrite].
        destruct Hwhy as [Hwhy|Hwhy]; [discriminate|]. now rewrite Hwhy.
      - subst rp. injection Hreq as <- _. cbn [afterWrite].
        destruct Hwhy as [Hwhy|Hwhy]; [discriminate|]. now rewrite Hwhy. }
    subst q.
    destruct (result o) as [l'|[m|m|m|c]|]; cbn in Hend.
    + destruct Hend as [Hend _]. discriminate.
    + rewrite Hx in Hend. destruct earlier; discriminate.
    + destruct Hend as [[] _].
    + destruct Hend as [[Hend _] _]. discriminate.
    + destruct Hend as [Hend _]. congruence.
    + destruct Hend as [Hend _]. discriminate.
Qed.

Lemma rounds_Reading L0 l h :
  rounds L0 l h Reading ->
  h = []
  \/ exists before x,
       h = before ++ [x]
       /\ ((exists call doc code,
              request x = Backend call doc /\ isRead call = false
              /\ answer x = Rejects code
              /\ isConditionalCheckFailed (AWSError code) = true)
           \/ (trustLocalTime L0 = true
               /\ request x = WaitMs (default 0 (waitDurationInMs L0)))).
Proof.
  intros H. inversion H as [Hnil|h0 q x q0 Hh Hx Heq Hq]; subst; [auto|].
  right. exists h0, x. split; [reflexivity|].
  inversion Hx; subst;
    try (right; split; [assumption|reflexivity]);
    match goal with
    | Hf : afterWrite ?rp = Reading |- _ =>
        destruct (afterWrite_cases rp)
          as [[He _]|[(_ & c & -> & Hc)|(c & He & _)]]; try congruence;
        left; eexists _, _, _; repeat (split; [reflexivity|]); exact Hc
    end.
Qed.

(** A [lock] call gives up only if [maxRetryCount] is set, and only
    between two rounds: before its first read, after a write that failed
    its condition, or after the wait of a call that trusts the local
    clock. *)
Theorem lock_gives_up_only_between_rounds (env : Environment) fuel lockGroup
    lockId lockOptions w (message : string) :
  let o := run env (LockClient.lock fuel lockGroup lockId lockOptions) w in
  result o = Rejected (LockNotGrantedError message) ->
  is_Some (opt_maxRetryCount lockOptions)
  /\ (exchanges o = []
      \/ exists before x,
           exchanges o = before ++ [x]
           /\ ((exists call doc code,
                  request x = Backend call doc /\ isRead call = false
                  /\ answer x = Rejects code
                  /\ isConditionalCheckFailed (AWSError code) = true)
               \/ (default false (opt_trustLocalTime lockOptions) = true
                   /\ request x
                      = WaitMs (default 0 (opt_waitDurationInMs lockOptions))))).
Proof.
  intros o Hr.
  destruct (lock_rounds env fuel lockGroup lockId lockOptions w)
    as (q & Hq & Hend). fold o in Hq, Hend. rewrite Hr in Hend.
  destruct Hend as [[-> Hmax] _]. split; [exact Hmax|].
  apply rounds_Reading in Hq. exact Hq.
Qed.

(** Every create and every steal of a [lock] call sends the lock object
    as it is at that moment: as it was created, stamped with the value
    that [v4()] returned last and with the local time. *)
Theorem lock_stamps_every_write (env : Environment) fuel lockGroup lockId
    lockOptions w :
  let o := run env (LockClient.lock fuel lockGroup lockId lockOptions) w in
  let handle := length (heap w) in
  forall earlier x later call doc,
    exchanges o = earlier ++ x :: later ->
    request x = Backend call doc -> isRead call = false ->
    let now := clock (stateAtRequest x) in
    let config := client_config (stateAtRequest x) in
    exists n L,
      uuidCount (stateAtRequest x) = S n
      /\ L = Lock.attemptLocking (uuidSource (stateAtRequest x) n) now
               (requested w lockGroup lockId lockOptions)
      /\ heap (stateAtRequest x) !! handle = Some L
      /\ ((call = CreateNewLock handle
           /\ doc = DocPut (DataLayer.createParams config now L))
          \/ exists existingLock,
               call = UpdateLockWithNewLockContent existingLock handle
               /\ doc = DocUpdate
                          (DataLayer.stealParams config now existingLock L)).
Proof.
  intros o handle earlier x later call doc Hx Hreq Hwrite now config.
  destruct (lock_rounds env fuel lockGroup lockId lockOptions w)
    as (q & Hq & _). fold o in Hq. rewrite Hx in Hq.
  apply rounds_at in Hq as (q1 & q2 & H1 & H2).
  inversion H2; subst; cbn [request] in Hreq; try discriminate;
    injection Hreq as <- <-; try discriminate;
    match goal with
    | Hat : attempting _ _ _ _ |- _ => destruct Hat as (Hl & n & Hn & HL)
    end;
    exists n, L; (split; [exact Hn|]); (split; [exact HL|]);
    (split; [exact Hl|]); eauto.
Qed.

Lemma rounds_Committed L0 l h :
  rounds L0 l h Committed ->
  exists before w L item call doc,
    h = before ++ [mkExchange w (Backend call doc) (Resolves item)]
    /\ attempting L0 l w L
    /\ ((call = CreateNewLock l
         /\ doc = DocPut (DataLayer.createParams (client_config w) (clock w) L))
        \/ exists existingLock,
             call = UpdateLockWithNewLockContent existingLock l
             /\ doc = DocUpdate
                        (DataLayer.stealParams (client_config w) (clock w)
                           existingLock L)).
Proof.
  intros H. inversion H as [Hnil|h0 q x q0 Hh Hx Heq Hq]; subst.
  inversion Hx; subst;
    match goal with
    | Hf : afterWrite ?rp = Committed |- _ =>
        destruct (afterWrite_cases rp)
          as [(_ & item & ->)|[[He _]|(c & He & _)]]; try congruence
    end;
    eexists _, _, _, _, _, _; (split; [reflexivity|]);
    (split; [eassumption|]); eauto.
Qed.

Lemma lock_committed (env : Environment) fuel lockGroup lockId lockOptions w
    (handle : loc) :
  let o := run env (LockClient.lock fuel lockGroup lockId lockOptions) w in
  let L0 := requested w lockGroup lockId lockOptions in
  result o = Resolved handle ->
  handle = length (heap w)
  /\ exists earlier w1 sent item call doc,
       exchanges o
       = earlier ++ [mkExchange w1 (Backend call doc) (Resolves item)]
       /\ attempting L0 handle w1 sent
       /\ ((call = CreateNewLock handle
            /\ doc = DocPut (DataLayer.createParams (client_config w1)
                               (clock w1) sent))
           \/ exists existingLock,
                call = UpdateLockWithNewLockContent existingLock handle
                /\ doc = DocUpdate
                           (DataLayer.stealParams (client_config w1) (clock w1)
                              existingLock sent))
       /\ heap (final o) !! handle = Some (granted w sent)
       /\ committedAt handle L0 w (final o).
Proof.
  intros o L0 Hr.
  destruct (lock_rounds env fuel lockGroup lockId lockOptions w)
    as (q & Hq & Hend). fold o L0 in Hq, Hend. rewrite Hr in Hend.
  destruct Hend as [-> (earlier & x & L & Hx & Hsent & Hfinal)].
  destruct (wp_run env _ _ w _
              (lock_spec fuel lockGroup lockId lockOptions w [] (uncommitted_nil _)))
    as [HQ _].
  fold o in HQ. unfold lockPost in HQ. rewrite Hr in HQ.
  destruct (Lock.create _ _ _ _ _ _ _) as [created|e] eqn:Hc;
    [|destruct HQ as [HQ _]; discriminate].
  apply create_Normal in Hc. fold (requested w lockGroup lockId lockOptions) in Hc.
  fold L0 in Hc. subst created.
  destruct HQ as (-> & Hcommitted & _).
  split; [reflexivity|].
  apply rounds_Committed in Hq
    as (before & w1 & L1 & item & call & doc & Hx1 & Hat & Hdoc).
  rewrite Hx in Hx1. apply app_inj_tail in Hx1 as [-> ->].
  cbn [stateAtRequest] in Hsent. destruct Hat as [Hl1 Hat].
  rewrite Hl1 in Hsent. injection Hsent as <-.
  exists before, w1, L1, item, call, doc.
  split; [exact Hx|]. split; [split; assumption|]. split; [exact Hdoc|].
  split; [exact Hfinal|exact Hcommitted].
Qed.

(** What a [lock] call that returns has done: its last exchange is a
    create or a steal that succeeded; the handle it returns is the lock
    object sent in that write, now marked
    acquired; it is registered under its identifier; and one timeout has
    been armed for it if prolongation is enabled, none otherwise. *)
Theorem lock_returns_the_handle_it_wrote (env : Environment) fuel lockGroup
    lockId lockOptions w (handle : loc) :
  let o := run env (LockClient.lock fuel lockGroup lockId lockOptions) w in
  let identifier := lockGroup +:+ "|" +:+ lockId in
  let prolong := default true (opt_prolongLeaseEnabled lockOptions) in
  result o = Resolved handle ->
  handle = length (heap w)
  /\ exists earlier x sent item,
       exchanges o = earlier ++ [x]
       /\ answer x = Resolves item
       /\ heap (stateAtRequest x) !! handle = Some sent
       /\ ((request x
            = Backend (CreateNewLock handle)
                (DocPut (DataLayer.createParams (client_config (stateAtRequest x))
                           (clock (stateAtRequest x)) sent)))
           \/ exists existingLock,
                request x
                = Backend (UpdateLockWithNewLockContent existingLock handle)
                    (DocUpdate
                       (DataLayer.stealParams (client_config (stateAtRequest x))
                          (clock (stateAtRequest x)) existingLock sent)))
       /\ heap (final o) !! handle
          = Some (if prolong
                  then Lock.attemptProlonging (nextTimer w) (Lock.acquired sent)
                  else Lock.acquired sent)
       /\ acquiredLocks (final o) = obj_set identifier handle (acquiredLocks w)
       /\ timers (final o)
          = if prolong
            then timers w
                 ++ [(nextTimer w,
                      mkTimerClosure identifier (Some handle)
                        (default 5000 (opt_prolongEveryMs lockOptions)))]
            else timers w.
Proof.
  intros o identifier prolong Hr.
  destruct (lock_committed env fuel lockGroup lockId lockOptions w handle Hr)
    as (Hh & earlier & w1 & sent & item & call & doc & Hx & (Hl & n & _ & Hs)
        & Hdoc & Hfinal & HR & _ & HT).
  split; [exact Hh|].
  exists earlier, (mkExchange w1 (Backend call doc) (Resolves item)), sent, item.
  split; [exact Hx|]. split; [reflexivity|]. split; [exact Hl|].
  split.
  { cbn [request stateAtRequest].
    destruct Hdoc as [[-> ->]|(R & -> & ->)]; [left|right; exists R];
      reflexivity. }
  assert (Hp : prolongLeaseEnabled sent = prolong) by (rewrite Hs; reflexivity).
  split; [unfold granted in Hfinal; rewrite Hp in Hfinal; exact Hfinal|].
  split; [exact HR|exact HT].
Qed.

(** ** The prolongation callback, when the renewal succeeds *)

Lemma onTimeout_renewal (c : TimerClosure) (l : loc) (L : Lock) (w : World) h :
  tc_lock c = Some l -> heap w !! l = Some L -> isAcquired L = true ->
  let rvn := uuidSource w (uuidCount w) in
  let registered := obj_get (tc_lockIdentifier c) (acquiredLocks w) in
  wp (fun w1 rq =>
        rq = Backend (UpdateRecordVersionNumberAndTime l rvn (clock w))
               (DocUpdate (DataLayer.renewParams (client_config w) (clock w)
                             L rvn (clock w))))
    (LockClient.onTimeout c w) h
    (fun h' w' s =>
       exists x, h' = h ++ [x]
         /\ forall item, answer x = Resolves item ->
              s = Resolved tt
              /\ acquiredLocks w' = acquiredLocks w
              /\ nextTimer w' = S (nextTimer w)
              /\ timers w'
                 = timers w
                   ++ [(nextTimer w,
                        mkTimerClosure (tc_lockIdentifier c) registered
                          (tc_prolongEveryMs c))]
              /\ heap w'
                 = match registered with
                   | Some l' =>
                       alter (Lock.attemptProlonging (nextTimer w)) l'
                         (alter (Lock.prolonged rvn (clock w)) l (heap w))
                   | None => alter (Lock.prolonged rvn (clock w)) l (heap w)
                   end).
Proof.
  intros Hc Hl Hacq rvn registered. unfold LockClient.onTimeout. rewrite Hc.
  deref_with Hl. rewrite Hacq. cbn [negb].
  unfold LockClient.prolongLease. wp_steps.
  unfold DataLayer.updateRecordVersionNumberAndTime. deref_with Hl. wp_steps.
  destruct rp as [item|code]; wp_steps.
  - deref_with Hl. wp_steps.
    unfold LockClient.startProlongingLease. wp_steps.
    subst registered.
    destruct (obj_get (tc_lockIdentifier c) (acquiredLocks w)) as [l'|];
      wp_steps;
      (eexists; split; [reflexivity|]; intros item' _;
       repeat (split; [reflexivity|]); reflexivity).
  - eexists. split; [reflexivity|]. intros item' Hx. discriminate.
Qed.

(** When the timeout of an acquired lock fires, one renewal is sent: it
    carries a newly drawn version number and the local time, and is
    built from the lock object as it is.  If the renewal succeeds, the
    lock object takes that version number and that time, and one new
    timeout is armed with the same identifier and period; the lock
    object remembers it if it is the one registered under the
    identifier. *)
Theorem renewal_updates_the_handle (env : Environment) (c : TimerClosure)
    (lock : loc) (L : Lock) (w : World) :
  tc_lock c = Some lock -> heap w !! lock = Some L -> isAcquired L = true ->
  let o := run env (LockClient.onTimeout c) w in
  let rvn := uuidSource w (uuidCount w) in
  let registered := obj_get (tc_lockIdentifier c) (acquiredLocks w) in
  exists x,
    exchanges o = [x]
    /\ request x
       = Backend (UpdateRecordVersionNumberAndTime lock rvn (clock w))
           (DocUpdate (DataLayer.renewParams (client_config w) (clock w)
                         L rvn (clock w)))
    /\ forall item,
         answer x = Resolves item ->
         result o = Resolved tt
         /\ heap (final o) !! lock
            = Some (if decide (registered = Some lock)
                    then Lock.attemptProlonging (nextTimer w)
                           (Lock.prolonged rvn (clock w) L)
                    else Lock.prolonged rvn (clock w) L)
         /\ acquiredLocks (final o) = acquiredLocks w
         /\ timers (final o)
            = timers w
              ++ [(nextTimer w,
                   mkTimerClosure (tc_lockIdentifier c) registered
                     (tc_prolongEveryMs c))].
Proof.
  intros Hc Hl Hacq o rvn registered.
  destruct (wp_run env _ _ w _ (onTimeout_renewal c lock L w [] Hc Hl Hacq))
    as [(x & Hx & Hres) Hall].
  fold o in Hx, Hres, Hall. exists x. split; [exact Hx|].
  rewrite Hx in Hall. apply Forall_cons in Hall as [Hreq _].
  split; [exact Hreq|].
  intros item Hitem. destruct (Hres item Hitem) as (Hr & HR & _ & HT & HH).
  split; [exact Hr|]. split; [|split; [exact HR|exact HT]].
  rewrite HH. fold registered.
  destruct registered as [l'|].
  - destruct (decide (Some l' = Some lock)) as [[= ->]|Hne].
    + now rewrite !list_lookup_alter_eq, Hl.
    + rewrite list_lookup_alter_ne by congruence.
      now rewrite list_lookup_alter_eq, Hl.
  - destruct (decide (None = Some lock)); [discriminate|].
    now rewrite list_lookup_alter_eq, Hl.
Qed.

(** A timeout that fires for a lock that has been released, or that
    found no lock under its identifier when it was armed, is dropped:
    nothing is sent, no timeout is armed in its place, and the registry
    and the lock objects stay as they are. *)
Theorem timeout_of_released_lock_is_dropped (c : Config) (h : TimerId)
    (callback : TimerClosure) :
  timer_lookup h (timers (world c)) = Some callback ->
  (tc_lock callback = None
   \/ exists lock L, tc_lock callback = Some lock
                     /\ heap (world c) !! lock = Some L
                     /\ isAcquired L = false) ->
  step (Fire h) c
  = Some (mkConfig
            (with_timers (timer_remove h (timers (world c)))
               (nextTimer (world c)) (world c))
            (pool c),
          [Finished FromTimeout true]).
Proof.
  intros Hh Hwhy. unfold step. rewrite Hh. unfold LockClient.onTimeout.
  destruct Hwhy as [->|(lock & L & -> & Hl & Hacq)]; [reflexivity|].
  unfold mbind, Async_bind, bind, deref. world_simpl. rewrite Hl.
  cbn [bind_run]. rewrite Hacq. reflexivity.
Qed.

(** ** [releaseAllLocks]: what happens locally *)

Lemma timer_lookup_remove_other (h h' : TimerId)
    (t : list (TimerId * TimerClosure)) :
  timer_lookup h (timer_remove h' t)
  = if Nat.eqb h h' then None else timer_lookup h t.
Proof.
  unfold timer_lookup, timer_remove.
  induction t as [|[h0 c0] t IH]; cbn [List.filter find fst negb].
  - destruct (Nat.eqb h h'); reflexivity.
  - destruct (Nat.eqb_spec h0 h') as [->|Hne]; cbn [negb find fst].
    + rewrite IH. destruct (Nat.eqb_spec h h') as [->|Hne'].
      * reflexivity.
      * destruct (Nat.eqb_spec h' h); [congruence|reflexivity].
    + destruct (Nat.eqb_spec h0 h) as [->|Hne0].
      * destruct (Nat.eqb_spec h h'); [congruence|reflexivity].
      * exact IH.
Qed.

Lemma Lock_released_effect (l : loc) (L : Lock) (w : World) :
  heap w !! l = Some L ->
  exists w',
    Lock_released l w = Done w' (Resolved tt)
    /\ acquiredLocks w' = acquiredLocks w
    /\ heap w' = alter (fun _ => fst (Lock.released L)) l (heap w)
    /\ timers w' = match timeoutHandler L with
                   | Some h => timer_remove h (timers w)
                   | None => timers w
                   end.
Proof.
  intros Hl. unfold Lock_released, mbind, Async_bind, bind, deref.
  rewrite Hl. cbn [bind_run]. unfold Lock.released.
  cbn [timeoutHandler set_isAcquired].
  destruct (timeoutHandler L); cbn; eexists; repeat split; reflexivity.
Qed.

Lemma released_fields (L : Lock) :
  isAcquired (fst (Lock.released L)) = false
  /\ timeoutHandler (fst (Lock.released L)) = None.
Proof.
  unfold Lock.released. cbn [timeoutHandler set_isAcquired].
  destruct (timeoutHandler L) eqn:Ht; cbn; auto.
Qed.

Lemma for_of_released (ls : list loc) (w : World) :
  (forall l, In l ls -> is_Some (heap w !! l)) ->
  exists w',
    for_of ls Lock_released w = Done w' (Resolved tt)
    /\ acquiredLocks w' = acquiredLocks w
    /\ (forall h, timer_lookup h (timers w) = None ->
                  timer_lookup h (timers w') = None)
    /\ forall l L,
         heap w !! l = Some L ->
         exists L',
           heap w' !! l = Some L'
           /\ (In l ls ->
               isAcquired L' = false /\ timeoutHandler L' = None
               /\ forall h, timeoutHandler L = Some h ->
                            timer_lookup h (timers w') = None)
           /\ (~ In l ls -> L' = L).
Proof.
  revert w. induction ls as [|l0 ls IH]; intros w Hvalid; cbn [for_of].
  - exists w. split; [reflexivity|]. split; [reflexivity|]. split; [auto|].
    intros l L Hl. exists L. split; [exact Hl|]. split; [intros []|auto].
  - destruct (Hvalid l0 (or_introl eq_refl)) as [L0 Hl0].
    destruct (Lock_released_effect l0 L0 w Hl0) as (w1 & Hrun & HR1 & HH1 & HT1).
    assert (Hmono1 : forall h, timer_lookup h (timers w) = None ->
                               timer_lookup h (timers w1) = None).
    { intros h Hh. rewrite HT1. destruct (timeoutHandler L0) as [h0|]; [|exact Hh].
      rewrite timer_lookup_remove_other, Hh. now destruct (Nat.eqb h h0). }
    destruct (IH w1) as (w' & Hrest & HR & Hmono & Hheap).
    { intros l Hin. rewrite HH1.
      destruct (decide (l = l0)) as [->|Hne].
      - rewrite list_lookup_alter_eq, Hl0. eauto.
      - rewrite list_lookup_alter_ne by congruence. apply Hvalid. now right. }
    exists w'. unfold mbind, Async_bind, bind. rewrite Hrun. cbn [bind_run].
    split; [exact Hrest|]. split; [congruence|]. split; [auto|].
    intros l L Hl.
    destruct (decide (l = l0)) as [->|Hne].
    + rewrite Hl0 in Hl. injection Hl as <-.
      destruct (Hheap l0 (fst (Lock.released L0))) as (L' & HL' & Hin & Hout).
      { now rewrite HH1, list_lookup_alter_eq, Hl0. }
      exists L'. split; [exact HL'|]. split; [|intros Hn; exfalso; apply Hn; now left].
      intros _.
      assert (Hcleared : forall h, timeoutHandler L0 = Some h ->
                timer_lookup h (timers w') = None).
      { intros h Hh. apply Hmono. rewrite HT1, Hh. apply timer_lookup_remove. }
      destruct (in_dec Nat.eq_dec l0 ls) as [Hls|Hls].
      * destruct (Hin Hls) as (Ha & Ht & _). auto.
      * rewrite (Hout Hls). destruct (released_fields L0). auto.
    + destruct (Hheap l L) as (L' & HL' & Hin & Hout).
      { now rewrite HH1, list_lookup_alter_ne by congruence. }
      exists L'. split; [exact HL'|]. split.
      * intros [Heq|Hls]; [congruence|]. apply Hin, Hls.
      * intros Hn. apply Hout. intros Hls. apply Hn. now right.
Qed.

(** [releaseAllLocks], on a client whose registry refers to lock objects
    that exist, returns without having sent anything, with an empty
    registry; every lock object that was registered is marked released
    and its timeout is cancelled; every other lock object is as it was. *)
Theorem releaseAllLocks_releases_every_registered_lock (env : Environment)
    (w : World) :
  (forall l, In l (obj_values (acquiredLocks w)) -> is_Some (heap w !! l)) ->
  let o := run env LockClient.releaseAllLocks w in
  result o = Resolved tt
  /\ exchanges o = []
  /\ acquiredLocks (final o) = []
  /\ forall l L,
       heap w !! l = Some L ->
       exists L',
         heap (final o) !! l = Some L'
         /\ (In l (obj_values (acquiredLocks w)) ->
             isAcquired L' = false /\ timeoutHandler L' = None
             /\ forall h, timeoutHandler L = Some h ->
                          timer_lookup h (timers (final o)) = None)
         /\ (~ In l (obj_values (acquiredLocks w)) -> L' = L).
Proof.
  intros Hvalid.
  destruct (for_of_released (obj_values (acquiredLocks w))
              (with_acquiredLocks [] w) Hvalid)
    as (w' & Hrun & HR & _ & Hheap).
  unfold run, LockClient.releaseAllLocks, mbind, Async_bind, bind.
  cbn [gets modify bind_run]. rewrite Hrun. cbn.
  split; [reflexivity|]. split; [reflexivity|]. split; [exact HR|].
  exact Hheap.
Qed.

(** ** [releaseLock] after [lock] *)



(** ** Instances *)

(** [lock] with [leaseDurationInMs = 10000] and [prolongEveryMs = 5000],
    prolongation enabled by default, is rejected. *)
Lemma lock_rejects_iff_prolong_too_long_witness :
  let opts := mkLockOptions (Some 10000) None (Some 5000) None None None None in
  default true (opt_prolongLeaseEnabled opts) = true
  /\ exists message,
       result (run emptyTable (LockClient.lock 3 "group" "id" opts)
                 (world exampleClient))
       = Rejected (LockOptionsValidationError message).
Proof.
  intros opts. split; [reflexivity|].
  pose proof (lock_rejects_iff_prolong_too_long emptyTable 3 "group" "id" opts
                (world exampleClient) eq_refl) as H.
  cbv zeta in H. destruct H as (_ & _ & Hhalf & _).
  apply Hhalf. reflexivity.
Defined.

(** Releasing the lock held in [oneLockHeld] while the backend answers
    the delete with a failed condition. *)
Lemma releaseLock_releases_locally_then_deletes_witness :
  let o := run lostRace (LockClient.releaseLock 0) oneLockHeld in
  heap oneLockHeld !! 0%nat = Some heldLock
  /\ exists x doc,
       exchanges o = [x]
       /\ request x = Backend (DeleteLock 0) doc
       /\ (answer x = Rejects (Some "ConditionalCheckFailedException") ->
           result o = Resolved tt).
Proof.
  intros o.
  assert (Hl : heap oneLockHeld !! 0%nat = Some heldLock)
    by (vm_compute; reflexivity).
  split; [exact Hl|].
  destruct (releaseLock_releases_locally_then_deletes lostRace lostRace
              oneLockHeld 0 heldLock Hl)
    as [(x & doc & Hx & Hreq & _ & _ & _ & Hccf & _) _].
  exists x, doc. split; [exact Hx|]. split; [exact Hreq|].
  intros Ha. exact (proj1 (Hccf Ha)).
Defined.

(** The timeout armed in [oneLockHeld] fires and the backend answers the
    renewal with a failed condition. *)
Lemma renewal_failure_is_not_handled_witness :
  let c := mkTimerClosure "group|id" (Some 0%nat) 5000 in
  let o := run lostRace (LockClient.onTimeout c) oneLockHeld in
  tc_lock c = Some 0%nat
  /\ heap oneLockHeld !! 0%nat = Some heldLock
  /\ isAcquired heldLock = true
  /\ exists x, exchanges o = [x]
               /\ (answer x = conditionalCheckFailed ->
                   result o
                   = Rejected (AWSError (Some "ConditionalCheckFailedException"))
                   /\ logged (final o) = logged oneLockHeld
                   /\ timers (final o) = timers oneLockHeld).
Proof.
  intros c o.
  assert (Hl : heap oneLockHeld !! 0%nat = Some heldLock)
    by (vm_compute; reflexivity).
  split; [reflexivity|]. split; [exact Hl|]. split; [reflexivity|].
  destruct (renewal_failure_is_not_handled lostRace c 0 heldLock oneLockHeld
              eq_refl Hl eq_refl) as (x & Hx & _ & Hrej).
  exists x. split; [exact Hx|]. intros Hcode. apply Hrej, Hcode.
Defined.

(** A lock is acquired and its timeout fires; while that renewal is in
    flight the lock is released.  Then the renewal and the delete are
    answered, the timeout armed by the late renewal fires, and the same
    lock is requested again. *)
Lemma no_renewal_once_releaseLock_is_called_witness :
  let before := [CallLock 3 "group" "id" noOptions;
                 Settle 0 (Resolves None); Settle 0 (Resolves None);
                 Fire 0] in
  let after := [Settle 0 (Resolves None); Settle 0 conditionalCheckFailed;
                Fire 1; CallLock 3 "group" "id" noOptions] in
  exists c events,
    execute (before ++ CallReleaseLock 0 :: after) exampleClient
    = Some (c, events)
    /\ exists earlier later,
         events = earlier ++ Called (CallReleaseLock 0) :: later
         /\ Forall (fun e => isRenewalOf 0 e = false) later.
Proof.
  intros before after.
  assert (Hruns : match execute (before ++ CallReleaseLock 0 :: after)
                          exampleClient with
                  | Some _ => true
                  | None => false
                  end = true) by (vm_compute; reflexivity).
  destruct (execute (before ++ CallReleaseLock 0 :: after) exampleClient)
    as [[c events]|] eqn:He; [|discriminate].
  exists c, events. split; [reflexivity|].
  unfold exampleClient in He.
  destruct (no_renewal_once_releaseLock_is_called _ _ _ _ _ _ _ _ _ _ He)
    as (earlier & later & H1 & H2 & _).
  exists earlier, later. split; assumption.
Defined.

(** The lock on a table with a TTL attribute, created at time 1000 with
    the default TTL of one hour. *)
Lemma createNewLock_item_witness :
  LockTableConfig.create ttlParam = Normal ttlConfig
  /\ let item := put_Item (DataLayer.createParams ttlConfig 1000 heldLock) in
     obj_get "recordVersionNumber" item = Some (VString "uuid-0")
     /\ obj_get "expiresAt" item = Some (VNumber 3601).
Proof.
  split; [reflexivity|].
  destruct (createNewLock_item ttlParam ttlConfig 1000 heldLock eq_refl)
    as (Hv & _ & _ & _ & _ & Httl & _).
  split; [exact Hv|]. apply Httl. left. reflexivity.
Defined.

Lemma steal_writes_what_create_writes_witness :
  LockTableConfig.create ttlParam = Normal ttlConfig
  /\ upd_UpdateExpression (DataLayer.stealParams ttlConfig 1000 theirLock heldLock)
     = "SET #recordVersionNumber = :newrecordVersionNumber, #ownerName = :newownerName, #lastUpdatedTimeInMs = :newlastUpdatedTimeInMs, #leaseDurationInMs = :newleaseDurationInMs, #additionalAttributes = :newadditionalAttributes, #expiresAt = :newexpiresAt".
Proof.
  split; [reflexivity|].
  destruct (steal_writes_what_create_writes ttlParam ttlConfig 1000 theirLock
              heldLock eq_refl) as [He _].
  exact He.
Defined.


Lemma leaseExpirationTimePassed_monotone_witness :
  21001 <= 30000
  /\ Lock.leaseExpirationTimePassed heldLock 21001 = true
  /\ Lock.leaseExpirationTimePassed heldLock 30000 = true.
Proof.
  assert (Hle : 21001 <= 30000) by lia.
  split; [exact Hle|]. split; [reflexivity|].
  exact (leaseExpirationTimePassed_monotone heldLock 21001 30000 Hle eq_refl).
Defined.

Lemma split_at {A} (l : list A) (i : nat) (d : A) :
  Nat.ltb i (length l) = true ->
  l = firstn i l ++ nth i l d :: skipn (S i) l.
Proof.
  revert i. induction l as [|a l IH]; intros [|i] Hi; cbn in Hi |- *;
    try discriminate; [reflexivity|].
  f_equal. apply IH, Hi.
Qed.

Lemma lock_steals_only_after_the_lease_witness :
  let steal := nth 2 (exchanges contended) noExchange in
  exchanges contended
  = firstn 2 (exchanges contended) ++ steal :: skipn 3 (exchanges contended)
  /\ (exists doc,
        request steal = Backend (UpdateLockWithNewLockContent theirLock 0) doc)
  /\ exists before read wait,
       firstn 2 (exchanges contended) = before ++ [read; wait]
       /\ request wait = WaitMs 15000.
Proof.
  intros steal.
  assert (Hx : exchanges contended
               = firstn 2 (exchanges contended)
                 ++ steal :: skipn 3 (exchanges contended))
    by (apply split_at; vm_compute; reflexivity).
  pose (doc := match request steal with
                | Backend _ doc => doc
                | WaitMs _ =>
                    DocGet (DataLayer.getParams exampleConfig
                              EmptyString EmptyString)
                end).
  assert (Hreq : request steal
                 = Backend (UpdateLockWithNewLockContent theirLock 0) doc)
    by (vm_compute; reflexivity).
  split; [exact Hx|]. split; [exists doc; exact Hreq|].
  destruct (lock_steals_only_after_the_lease heldByOther 10 "group" "id"
              oneRetry (world exampleClient)
              (firstn 2 (exchanges contended)) steal
              (skipn 3 (exchanges contended)) theirLock 0%nat doc Hx Hreq)
    as (before & read & params & attrs & _ & _ & _
        & [(_ & wait & Hw & Hms)|(Ht & _)]).
  - exists before, read, wait. split; [exact Hw|exact Hms].
  - discriminate Ht.
Defined.

Lemma lock_wait_durations_witness :
  let wait := nth 1 (exchanges contended) noExchange in
  exchanges contended
  = firstn 1 (exchanges contended) ++ wait :: skipn 2 (exchanges contended)
  /\ request wait = WaitMs 15000
  /\ exists before read,
       firstn 1 (exchanges contended) = before ++ [read]
       /\ exists attrs, answer read = Resolves (Some attrs).
Proof.
  intros wait.
  assert (Hx : exchanges contended
               = firstn 1 (exchanges contended)
                 ++ wait :: skipn 2 (exchanges contended))
    by (apply split_at; vm_compute; reflexivity).
  assert (Hreq : request wait = WaitMs 15000) by (vm_compute; reflexivity).
  split; [exact Hx|]. split; [exact Hreq|].
  destruct (lock_wait_durations heldByOther 10 "group" "id" oneRetry
              (world exampleClient) (firstn 1 (exchanges contended)) wait
              (skipn 2 (exchanges contended)) 15000 Hx Hreq)
    as (before & read & params & attrs & existingLock & Hb & _ & Ha & _).
  exists before, read. split; [exact Hb|]. exists attrs. exact Ha.
Defined.

Lemma lock_stamps_every_write_witness :
  let steal := nth 2 (exchanges contended) noExchange in
  exchanges contended
  = firstn 2 (exchanges contended) ++ steal :: skipn 3 (exchanges contended)
  /\ (exists call doc, request steal = Backend call doc /\ isRead call = false)
  /\ exists n L,
       uuidCount (stateAtRequest steal) = S n
       /\ heap (stateAtRequest steal) !! 0%nat = Some L
       /\ recordVersionNumber L = Some (uuidSource (stateAtRequest steal) n)
       /\ lastUpdatedTimeInMs L = Some (clock (stateAtRequest steal)).
Proof.
  intros steal.
  assert (Hx : exchanges contended
               = firstn 2 (exchanges contended)
                 ++ steal :: skipn 3 (exchanges contended))
    by (apply split_at; vm_compute; reflexivity).
  pose (doc := match request steal with
                | Backend _ doc => doc
                | WaitMs _ =>
                    DocGet (DataLayer.getParams exampleConfig
                              EmptyString EmptyString)
                end).
  assert (Hreq : request steal
                 = Backend (UpdateLockWithNewLockContent theirLock 0) doc)
    by (vm_compute; reflexivity).
  split; [exact Hx|].
  split; [exists (UpdateLockWithNewLockContent theirLock 0), doc;
          split; [exact Hreq|reflexivity]|].
  destruct (lock_stamps_every_write heldByOther 10 "group" "id" oneRetry
              (world exampleClient) (firstn 2 (exchanges contended)) steal
              (skipn 3 (exchanges contended))
              (UpdateLockWithNewLockContent theirLock 0) doc Hx Hreq eq_refl)
    as (n & L & Hn & HL & Hl & _).
  exists n, L. split; [exact Hn|]. split; [exact Hl|].
  rewrite HL. split; reflexivity.
Defined.

(** [lock] with one retry on a table where it loses every race for the
    record. *)
Lemma lock_gives_up_only_between_rounds_witness :
  result (run lostRace (LockClient.lock 10 "group" "id" oneRetry)
            (world exampleClient))
  = Rejected (LockNotGrantedError
                "group|id could not be acquired after retrying for 1 times.")
  /\ is_Some (opt_maxRetryCount oneRetry).
Proof.
  assert (Hr : result (run lostRace (LockClient.lock 10 "group" "id" oneRetry)
                         (world exampleClient))
               = Rejected (LockNotGrantedError
                    "group|id could not be acquired after retrying for 1 times."))
    by (vm_compute; reflexivity).
  split; [exact Hr|].
  exact (proj1 (lock_gives_up_only_between_rounds lostRace 10 "group" "id"
                  oneRetry (world exampleClient)
                  "group|id could not be acquired after retrying for 1 times."
                  Hr)).
Defined.

Lemma lock_retry_counter_witness :
  let o := run lostRace (LockClient.lock 10 "group" "id" oneRetry)
             (world exampleClient) in
  opt_maxRetryCount oneRetry = Some 1
  /\ result o
     = Rejected (LockNotGrantedError
                   "group|id could not be acquired after retrying for 1 times.")
  /\ (Z.of_nat (reads (exchanges o) + creates (exchanges o)) = 1 + 1
      \/ (Z.of_nat (reads (exchanges o) + creates (exchanges o)) = 1 + 2
          /\ (0 < creates (exchanges o))%nat)).
Proof.
  intros o.
  assert (Hr : result o
               = Rejected (LockNotGrantedError
                    "group|id could not be acquired after retrying for 1 times."))
    by (vm_compute; reflexivity).
  assert (Hm : 0 <= 1) by lia.
  split; [reflexivity|]. split; [exact Hr|].
  exact (lock_retry_counter lostRace 10 "group" "id" oneRetry
           (world exampleClient) 1
           "group|id could not be acquired after retrying for 1 times."
           eq_refl Hm Hr).
Defined.

Lemma lock_settles_witness :
  opt_maxRetryCount oneRetry = Some 1
  /\ 1 + 2 < Z.of_nat 10
  /\ result (run heldByOther (LockClient.lock 10 "group" "id" oneRetry)
               (world exampleClient))
     <> Unsettled.
Proof.
  assert (Hm : 0 <= 1) by lia.
  assert (Hf : 1 + 2 < Z.of_nat 10) by (cbn; lia).
  split; [reflexivity|]. split; [exact Hf|].
  exact (lock_settles heldByOther 10 "group" "id" oneRetry
           (world exampleClient) 1 eq_refl Hm Hf).
Defined.

Lemma lock_reads_bounded_witness :
  opt_maxRetryCount oneRetry = Some 1
  /\ Z.of_nat (reads (exchanges contended)) <= 1 + 1.
Proof.
  assert (Hm : 0 <= 1) by lia.
  split; [reflexivity|].
  exact (proj1 (lock_reads_bounded heldByOther 10 "group" "id" oneRetry
                  (world exampleClient) 1 eq_refl Hm)).
Defined.

Lemma lock_returns_the_handle_it_wrote_witness :
  let o := run emptyTable (LockClient.lock 3 "group" "id" noOptions)
             (world exampleClient) in
  result o = Resolved 0%nat
  /\ acquiredLocks (final o)
     = obj_set "group|id" 0%nat (acquiredLocks (world exampleClient)).
Proof.
  intros o.
  assert (Hr : result o = Resolved 0%nat) by (vm_compute; reflexivity).
  split; [exact Hr|].
  destruct (lock_returns_the_handle_it_wrote emptyTable 3 "group" "id"
              noOptions (world exampleClient) 0%nat Hr)
    as (_ & earlier & x & sent & item & _ & _ & _ & _ & _ & HR & _).
  exact HR.
Defined.

(** The timeout armed in [oneLockHeld] fires and the renewal succeeds. *)
Lemma renewal_updates_the_handle_witness :
  let c := mkTimerClosure "group|id" (Some 0%nat) 5000 in
  let o := run emptyTable (LockClient.onTimeout c) oneLockHeld in
  heap oneLockHeld !! 0%nat = Some heldLock
  /\ isAcquired heldLock = true
  /\ exists x,
       exchanges o = [x]
       /\ forall item, answer x = Resolves item -> result o = Resolved tt.
Proof.
  intros c o.
  assert (Hl : heap oneLockHeld !! 0%nat = Some heldLock)
    by (vm_compute; reflexivity).
  split; [exact Hl|]. split; [reflexivity|].
  destruct (renewal_updates_the_handle emptyTable c 0%nat heldLock oneLockHeld
              eq_refl Hl eq_refl) as (x & Hx & _ & Hres).
  exists x. split; [exact Hx|].
  intros item Hitem. exact (proj1 (Hres item Hitem)).
Defined.

(** The timeout that [lateRenewal] leaves armed fires. *)
Lemma timeout_of_released_lock_is_dropped_witness :
  timer_lookup 1 (timers (world afterLateRenewal))
  = Some (mkTimerClosure "group|id" (Some 1%nat) 5000)
  /\ heap (world afterLateRenewal) !! 1%nat = Some releasedLock
  /\ exists c, step (Fire 1) afterLateRenewal
               = Some (c, [Finished FromTimeout true]).
Proof.
  assert (Ht : timer_lookup 1 (timers (world afterLateRenewal))
               = Some (mkTimerClosure "group|id" (Some 1%nat) 5000))
    by (vm_compute; reflexivity).
  assert (Hl : heap (world afterLateRenewal) !! 1%nat = Some releasedLock)
    by (vm_compute; reflexivity).
  split; [exact Ht|]. split; [exact Hl|].
  eexists.
  exact (timeout_of_released_lock_is_dropped afterLateRenewal 1%nat
           (mkTimerClosure "group|id" (Some 1%nat) 5000) Ht
           (or_intror (ex_intro _ 1%nat
              (ex_intro _ releasedLock (conj eq_refl (conj Hl eq_refl)))))).
Defined.

Lemma releaseAllLocks_releases_every_registered_lock_witness :
  obj_values (acquiredLocks twoLocksHeld) = [0%nat; 1%nat]
  /\ length (heap twoLocksHeld) = 2%nat
  /\ acquiredLocks (final (run emptyTable LockClient.releaseAllLocks twoLocksHeld))
     = [].
Proof.
  assert (Hv : obj_values (acquiredLocks twoLocksHeld) = [0%nat; 1%nat])
    by (vm_compute; reflexivity).
  assert (Hn : length (heap twoLocksHeld) = 2%nat) by (vm_compute; reflexivity).
  split; [exact Hv|]. split; [exact Hn|].
  assert (Hvalid : forall l, In l (obj_values (acquiredLocks twoLocksHeld)) ->
                             is_Some (heap twoLocksHeld !! l)).
  { intros l Hin. rewrite Hv in Hin. apply lookup_lt_is_Some. rewrite Hn.
    destruct Hin as [<-|[<-|[]]]; lia. }
  destruct (releaseAllLocks_releases_every_registered_lock emptyTable
              twoLocksHeld Hvalid) as (_ & _ & HR & _).
  exact HR.
Defined.


(** [{partitionKey: "ownerName"}] is refused. *)
Lemma LockTableConfig_create_reserved_witness :
  let configParam :=
    mkLockTableConfigParam None (Some "ownerName") None None None in
  exists message,
    LockTableConfig.create configParam
    = Thrown (LockTableConfigValidationError message).
Proof.
  intros configParam.
  apply (proj1 (proj1 (LockTableConfig_create_reserved configParam))).
  left. cbn. tauto.
Defined.

(** [lock] on an empty table: the create comes second, after the read
    that found nothing. *)
Lemma lock_reads_before_it_creates_witness :
  let o := run emptyTable (LockClient.lock 3 "group" "id" noOptions)
             (world exampleClient) in
  let create := nth 1 (exchanges o) noExchange in
  exchanges o = firstn 1 (exchanges o) ++ create :: skipn 2 (exchanges o)
  /\ (exists doc, request create = Backend (CreateNewLock 0) doc)
  /\ exists before read,
       firstn 1 (exchanges o) = before ++ [read]
       /\ answer read = Resolves None.
Proof.
  intros o create.
  assert (Hx : exchanges o
               = firstn 1 (exchanges o) ++ create :: skipn 2 (exchanges o))
    by (apply split_at; vm_compute; reflexivity).
  pose (doc := match request create with
                | Backend _ doc => doc
                | WaitMs _ =>
                    DocGet (DataLayer.getParams exampleConfig
                              EmptyString EmptyString)
                end).
  assert (Hreq : request create = Backend (CreateNewLock 0) doc)
    by (vm_compute; reflexivity).
  split; [exact Hx|]. split; [exists doc; exact Hreq|].
  destruct (proj2 (lock_reads_before_it_creates emptyTable 3 "group" "id"
                     noOptions (world exampleClient))
              (firstn 1 (exchanges o)) create (skipn 2 (exchanges o))
              0%nat doc Hx Hreq)
    as (before & read & params & Hb & _ & Ha).
  exists before, read. split; [exact Hb|exact Ha].
Defined.

(** [lock] on a table that does not exist: the error of the read is the
    error of the call. *)
Lemma lock_surfaces_the_last_backend_error_witness :
  let o := run tableMissing (LockClient.lock 3 "group" "id" noOptions)
             (world exampleClient) in
  result o = Rejected (AWSError (Some "ResourceNotFoundException"))
  /\ exists earlier x,
       exchanges o = earlier ++ [x]
       /\ answer x = Rejects (Some "ResourceNotFoundException").
Proof.
  intros o.
  assert (Hr : result o = Rejected (AWSError (Some "ResourceNotFoundException")))
    by (vm_compute; reflexivity).
  split; [exact Hr|].
  destruct (proj1 (lock_surfaces_the_last_backend_error tableMissing 3 "group"
                     "id" noOptions (world exampleClient)
                     (Some "ResourceNotFoundException")) Hr)
    as (earlier & x & call & doc & Hx & _ & Ha & _).
  exists earlier, x. split; [exact Hx|exact Ha].
Defined.
